(** * Leaderboard pipeline: normalisation, aggregation, window filter, rendering

    Shallow embedding of [scripts/fetch_data.py] and [scripts/generate_html.py].

    Conventions of the embedding:
    - a Python [dict] keyed by model name is a [gmap string _];
    - an exception ([IndexError], [ValueError], [OverflowError], ...) is [None]
      in the [option] monad, a [sys.exit(1)] with a diagnostic is an explicit
      error constructor;
    - a metric value is a JSON number with a fraction or an exponent, which
      the parser reads as a Python [float]; a finite float is embedded as its
      exact value in [Q], and an arithmetic operation on floats returns the
      double nearest to its exact result, ties to the even one
      ([round_double]), or an infinity beyond the double range.  An integer
      literal, which the parser reads as a Python [int], is embedded as the
      float of the same value: the operations of the aggregator agree with
      that as long as its running sums stay below [2^53].  The sign of a zero
      is not represented, and no cell is a NaN or an infinity: the aggregator
      produces no NaN from finite cells;
    - Python [str] values are embedded as their UTF-8 byte strings; code-point
      order of [str] coincides with byte order of the encodings, and a match of
      an ASCII pattern in the encoding is a match in the text. *)

From Stdlib Require Import QArith Qround Qabs Qpower ZArith List String Ascii Lia Lqa Permutation Sorted.
From Stdlib Require Import SpecFloat.
From stdpp Require Import gmap strings list fin_maps sorting.

Local Open Scope string_scope.
Local Open Scope list_scope.

(** ** Data model *)

(** A cell of a raw table: a string (grouping keys), a number, or JSON [null]. *)
Inductive cell : Type :=
  | CStr (s : string)
  | CNum (q : Q)
  | CNone.

(** The record dictionary built by [parse_rows].  [K] is the type of the three
    grouping-key cells and [V] the type of a model cell: [parse_rows] copies
    cells of one row, so it produces [MetricRecord C C]; the later stages read
    the keys as strings and the model cells as optional numbers. *)
Record MetricRecord (K V : Type) : Type := mkRecord {
  subdataset : K;
  frequency : K;
  cutoff : K;
  values : gmap string V
}.
Arguments mkRecord {K V} _ _ _ _.
Arguments subdataset {K V} _.
Arguments frequency {K V} _.
Arguments cutoff {K V} _.
Arguments values {K V} _.

(** Records as the aggregator and the window filter read them. *)
Abbreviation record := (MetricRecord string (option Q)).

(** [MODELS] *)
Definition MODELS : list string :=
  [ "AutoARIMA"; "AutoCES"; "AutoETS"; "Chronos";
    "DynamicOptimizedTheta"; "HistoricAverage"; "Moirai";
    "Prophet"; "SeasonalNaive"; "TiRex"; "TimesFM"; "ZeroModel" ].

(** ** Table normaliser: [parse_rows] *)

(** [enumerate(l)] *)
Definition enumerate {A} (l : list A) : list (nat * A) :=
  zip (seq 0 (length l)) l.

(** The inner loop [for i, model in enumerate(model_cols)]:
    [val = row[3 + i]; values[model] = val].  [row[3 + i]] raises
    [IndexError] out of range. *)
Fixpoint fill_values {C} (row : list C) (cols : list (nat * string))
    (values : gmap string C) : option (gmap string C) :=
  match cols with
  | [] => Some values
  | (i, model) :: cols' =>
      val ← row !! (3 + i)%nat;
      fill_values row cols' (<[model := val]> values)
  end.

(** One iteration of [for row in raw_rows]. *)
Definition parse_row {C} (model_cols : list string) (row : list C)
    : option (MetricRecord C C) :=
  subdataset ← row !! 0%nat;
  frequency ← row !! 1%nat;
  cutoff ← row !! 2%nat;
  values ← fill_values row (enumerate model_cols) ∅;
  Some (mkRecord subdataset frequency cutoff values).

(** The loop [for row in raw_rows: ... records.append(...)]. *)
Fixpoint parse_loop {C} (model_cols : list string) (raw_rows : list (list C))
    (records : list (MetricRecord C C)) : option (list (MetricRecord C C)) :=
  match raw_rows with
  | [] => Some records
  | row :: rest =>
      r ← parse_row model_cols row;
      parse_loop model_cols rest (records ++ [r])
  end.

(** [parse_rows(headers, raw_rows)]: [model_cols = headers[3:]]. *)
Definition parse_rows {C} (headers : list string) (raw_rows : list (list C))
    : option (list (MetricRecord C C) * list string) :=
  let model_cols := drop 3 headers in
  records ← parse_loop model_cols raw_rows [];
  Some (records, model_cols).

(** The table shape under which every row access of [parse_rows] is in range. *)
Definition table_ok {C} (headers : list string) (raw_rows : list (list C)) : Prop :=
  (3 ≤ length headers)%nat ∧
  Forall (λ row, (length headers ≤ length row)%nat) raw_rows.

(** ** Double precision

    Python's [float] is the IEEE 754 binary64 format: 53 significant bits,
    exponents of the last place from [-1074] to [971].  [+], [/] and the
    conversions return the double nearest to the exact result, ties to the
    one with an even significand. *)

(** The integer nearest to [x], ties to the even one. *)
Definition round_half_even (x : Q) : Z :=
  let f := Qfloor x in
  match Qcompare (x - inject_Z f) (1 # 2) with
  | Lt => f
  | Gt => (f + 1)%Z
  | Eq => if Z.even f then f else (f + 1)%Z
  end.

Definition pow2 (k : Z) : Q := (2 ^ k)%Q.

(** [floor (log2 |x|)], for [x] other than [0]. *)
Definition Qlog2 (x : Q) : Z :=
  let k := (Z.log2 (Z.abs (Qnum x)) - Z.log2 (Zpos (Qden x)))%Z in
  if Qle_bool (pow2 k) (Qabs x) then k else (k - 1)%Z.

(** The exponent of the last place of the doubles around [x]: 53 bits below
    the leading one, and [-1074] in the subnormal range. *)
Definition ulp_exp (x : Q) : Z := Z.max (Qlog2 x - 52) (-1074).

(** The double nearest to [x], ties to even, the exponent not bounded above. *)
Definition round_double (x : Q) : Q :=
  if Qeq_bool x 0 then 0%Q
  else (inject_Z (round_half_even (x / pow2 (ulp_exp x))) * pow2 (ulp_exp x))%Q.

(** A float other than NaN: a finite double, by its value, or an infinity. *)
Inductive pyfloat : Type :=
  | Fin (q : Q)
  | Inf (negative : bool).

(** The result of an operation whose exact value is [x]: an infinity when
    the rounded value reaches [2^1024]. *)
Definition to_float (x : Q) : pyfloat :=
  let r := round_double x in
  if Qle_bool (pow2 1024) (Qabs r) then Inf (negb (Qle_bool 0 x)) else Fin r.

(** [s + v] for a float [s] and a finite float [v]. *)
Definition float_add (s : pyfloat) (v : Q) : pyfloat :=
  match s with
  | Fin x => to_float (x + v)
  | Inf negative => Inf negative
  end.

(** [s / n] for a float [s] and an int [n > 0]: [n] is converted to a float
    first. *)
Definition float_div_int (s : pyfloat) (n : nat) : pyfloat :=
  match s with
  | Fin x => to_float (x / round_double (inject_Z (Z.of_nat n)))
  | Inf negative => Inf negative
  end.

(** [a / b] for ints [a] and [b > 0]: the double nearest to the exact
    quotient.  ([OverflowError] is raised for a quotient beyond the double
    range; the quotients of the aggregator are rank means, at most
    [len(models)].) *)
Definition int_truediv (a b : nat) : Q :=
  round_double (inject_Z (Z.of_nat a) / inject_Z (Z.of_nat b)).

(** [round(x, ndigits)] for a finite float [x] and [ndigits >= 0]: [x] is
    written in decimal with [ndigits] digits after the point, correctly
    rounded, ties to even, and the text is read back as a double. *)
Definition round_decimal (x : Q) (ndigits : nat) : Q :=
  (inject_Z (round_half_even (x * inject_Z (10 ^ Z.of_nat ndigits)))
   / inject_Z (10 ^ Z.of_nat ndigits))%Q.

Definition py_round (x : Q) (ndigits : nat) : Q :=
  round_double (round_decimal x ndigits).

(** [round] returns an infinity unchanged. *)
Definition py_round_float (x : pyfloat) (ndigits : nat) : pyfloat :=
  match x with
  | Fin q => Fin (py_round q ndigits)
  | Inf negative => Inf negative
  end.

(** The value of a float of the reference implementation [SpecFloat] of the
    standard library, and the comparison of one with a [pyfloat]. *)
Definition SF_value (f : spec_float) : option Q :=
  match f with
  | S754_zero _ => Some 0%Q
  | S754_finite s m e =>
      Some ((if s then -1 else 1) * inject_Z (Zpos m) * pow2 e)%Q
  | _ => None
  end.

Definition SF_agrees (f : spec_float) (x : pyfloat) : bool :=
  match f, x with
  | S754_infinity s, Inf negative => Bool.eqb s negative
  | _, Fin q => match SF_value f with
                | Some v => Qeq_bool v q
                | None => false
                end
  | _, _ => false
  end.

(** The double [m * 2^e] of [SpecFloat], for a non-negative [m]. *)
Definition binary64 (m e : Z) : spec_float := binary_normalize 53 1024 m e false.

(** ** Summary aggregator: [compute_summary] *)

(** [r["values"].get(m)]: [None] when the key is missing or holds [None]. *)
Definition get_value (r : record) (m : string) : option Q :=
  mjoin (values r !! m).

(** [{m: v for m in models}] *)
Definition init_dict {V} (v : V) (models : list string) : gmap string V :=
  foldl (λ d m, <[m := v]> d) ∅ models.

(** Inner loop of the collection pass:
    [v = r["values"].get(m); if v is not None: model_vals[m].append(v)].
    The dictionaries of the aggregator are initialised with every model of
    [models] as key and only indexed by models of [models], so no access
    raises [KeyError]; [alter] and [!!!] are used accordingly. *)
Definition collect_record (models : list string)
    (model_vals : gmap string (list Q)) (r : record) : gmap string (list Q) :=
  foldl (λ mv m,
           match get_value r m with
           | Some v => alter (λ l, l ++ [v]) m mv
           | None => mv
           end) model_vals models.

(** [model_vals] after [for r in records: for m in models: ...]. *)
Definition collect_vals (models : list string) (records : list record)
    : gmap string (list Q) :=
  foldl (collect_record models) (init_dict [] models) records.

(** [sum(vals)] on floats: the values are added one after the other in
    double precision, starting from [0], as CPython does up to version 3.11
    (later versions carry a compensation term along the running sum). *)
Definition py_sum (vals : list Q) : pyfloat := foldl float_add (Fin 0) vals.

(** [sum(vals) / len(vals) if vals else None] *)
Definition mean_or_none (vals : list Q) : option pyfloat :=
  match vals with
  | [] => None
  | _ => Some (float_div_int (py_sum vals) (length vals))
  end.

(** [avg_metric] after [for m in models: vals = model_vals[m]; ...]. *)
Definition avg_metric_of (models : list string)
    (model_vals : gmap string (list Q)) : gmap string (option pyfloat) :=
  foldl (λ d m, <[m := mean_or_none (model_vals !!! m)]> d) ∅ models.

(** [list.sort(key=...)] is a stable sort that compares keys with [<]; on
    rational keys any such sort returns the list of the stable insertion
    sort below: [x] goes before the first [y] with [not (key y < key x)]. *)
Section list_sort.
Context {A : Type} (key : A → Q).

Fixpoint sort_insert (x : A) (l : list A) : list A :=
  match l with
  | [] => [x]
  | y :: l' =>
      if Qle_bool (key x) (key y) then x :: l else y :: sort_insert x l'
  end.

Definition list_sort (l : list A) : list A := foldr sort_insert [] l.
End list_sort.

(** [vals = [(m, r["values"].get(m)) for m in models]]
    [vals = [(m, v) for m, v in vals if v is not None]] *)
Definition present_vals (models : list string) (r : record) : list (string * Q) :=
  omap (λ mv : string * option Q, v ← mv.2; Some (mv.1, v))
       ((λ m, (m, get_value r m)) <$> models).

(** [vals.sort(key=lambda x: x[1])] followed by [enumerate(vals)]: the
    per-record list of [(rank_idx, (m, v))]. *)
Definition ranked (models : list string) (r : record) : list (nat * (string * Q)) :=
  enumerate (list_sort snd (present_vals models r)).

(** The rank a record assigns: [(m, rank_idx + 1)] for each ranked entry. *)
Definition record_ranks (models : list string) (r : record) : list (string * nat) :=
  (λ e : nat * (string * Q), (e.2.1, (e.1 + 1)%nat)) <$> ranked models r.

(** The two accumulators [rank_accum], [rank_count]. *)
Definition rank_state : Type := gmap string nat * gmap string nat.

(** [rank_accum[m] += rank_idx + 1; rank_count[m] += 1] *)
Definition rank_add (st : rank_state) (e : nat * (string * Q)) : rank_state :=
  let m := e.2.1 in
  (<[m := (st.1 !!! m + (e.1 + 1))%nat]> st.1, <[m := (st.2 !!! m + 1)%nat]> st.2).

(** One iteration of [for r in records] of the ranking pass. *)
Definition rank_record (models : list string) (st : rank_state) (r : record)
    : rank_state :=
  foldl rank_add st (ranked models r).

Definition rank_totals (models : list string) (records : list record) : rank_state :=
  foldl (rank_record models) (init_dict 0%nat models, init_dict 0%nat models) records.

(** [rank_accum[m] / rank_count[m] if rank_count[m] > 0 else None] *)
Definition rank_mean (accum count : nat) : option Q :=
  if (0 <? count)%nat then Some (int_truediv accum count) else None.

Definition avg_rank_of (models : list string) (st : rank_state)
    : gmap string (option Q) :=
  foldl (λ d m, <[m := rank_mean (st.1 !!! m) (st.2 !!! m)]> d) ∅ models.

(** [avg_metric_and_rank(records, models)] *)
Definition avg_metric_and_rank (records : list record) (models : list string)
    : gmap string (option pyfloat) * gmap string (option Q) :=
  (avg_metric_of models (collect_vals models records),
   avg_rank_of models (rank_totals models records)).

(** [round(d[m], 3) if d[m] is not None else None], for a rank mean and for
    an average. *)
Definition round3_opt (x : option Q) : option Q := (λ v, py_round v 3) <$> x.

Definition round3_float_opt (x : option pyfloat) : option pyfloat :=
  (λ v, py_round_float v 3) <$> x.

(** The [combined]/[count] accumulation and
    [combined / count if count > 0 else 999].  [combined] starts as the int
    [0]; [combined += r] adds the float [r] in double precision and
    [combined / count] divides by [count], [1] or [2], in double precision.
    The operands are rank means, at most [len(models)], so that no result
    leaves the double range. *)
Definition combined_rank (rank_mase_m rank_crps_m : option Q) : Q :=
  let st0 : Q * nat := (0%Q, 0%nat) in
  let st1 := match rank_mase_m with
             | Some x => (round_double (st0.1 + x), (st0.2 + 1)%nat)
             | None => st0
             end in
  let st2 := match rank_crps_m with
             | Some x => (round_double (st1.1 + x), (st1.2 + 1)%nat)
             | None => st1
             end in
  if (0 <? st2.2)%nat
  then round_double (st2.1 / inject_Z (Z.of_nat st2.2))
  else 999%Q.

(** A summary dictionary once [del s["_combined"]] has run. *)
Record SummaryEntry : Type := mkEntry {
  model : string;
  avg_mase : option pyfloat;
  avg_crps : option pyfloat;
  rank_mase : option Q;
  rank_crps : option Q
}.

(** A summary dictionary as appended: the five reported keys and ["_combined"]. *)
Record SummaryRow : Type := mkRow {
  fields : SummaryEntry;
  _combined : Q
}.

(** The dictionary appended for model [m]. *)
Definition summary_row (mase_avg : gmap string (option pyfloat))
    (mase_rank : gmap string (option Q))
    (crps_avg : gmap string (option pyfloat))
    (crps_rank : gmap string (option Q)) (m : string) : SummaryRow :=
  mkRow (mkEntry m
           (round3_float_opt (mase_avg !!! m))
           (round3_float_opt (crps_avg !!! m))
           (round3_opt (mase_rank !!! m))
           (round3_opt (crps_rank !!! m)))
        (combined_rank (mase_rank !!! m) (crps_rank !!! m)).

(** [summary] before and after [summary.sort(key=lambda x: x["_combined"])]. *)
Definition summary_rows (mase_records crps_records : list record)
    (models : list string) : list SummaryRow :=
  let '(mase_avg, mase_rank) := avg_metric_and_rank mase_records models in
  let '(crps_avg, crps_rank) := avg_metric_and_rank crps_records models in
  summary_row mase_avg mase_rank crps_avg crps_rank <$> models.

Definition sorted_rows (mase_records crps_records : list record)
    (models : list string) : list SummaryRow :=
  list_sort _combined (summary_rows mase_records crps_records models).

(** [medals]: U+1F947, U+1F948, U+1F949 in UTF-8. *)
Definition medal (last_byte : ascii) : string :=
  String "240" (String "159" (String "165" (String last_byte EmptyString))).

Definition medals : list string := [medal "135"; medal "136"; medal "137"].

(** Body of [for i, s in enumerate(summary)]:
    [if i < 3: s["model"] = f"{medals[i]} {s['model']}"] and
    [del s["_combined"]]. *)
Definition decorate (e : nat * SummaryRow) : SummaryEntry :=
  let s := fields e.2 in
  if (e.1 <? 3)%nat
  then mkEntry (medals !!! e.1 ++ " " ++ model s)
               (avg_mase s) (avg_crps s) (rank_mase s) (rank_crps s)
  else s.

(** [compute_summary(mase_records, crps_records, models)] *)
Definition compute_summary (mase_records crps_records : list record)
    (models : list string) : list SummaryEntry :=
  decorate <$> enumerate (sorted_rows mase_records crps_records models).

(** ** Time-window filter and dataset assembly: [main] of [fetch_data.py] *)

(** [sorted(set(xs))] on strings. *)
Definition sorted_set (xs : list string) : list string :=
  merge_sort String.le (elements (list_to_set xs : gset string)).

(** [s.split(sep)] for a one-character separator. *)
Fixpoint str_split (sep : ascii) (s : string) : list string :=
  match s with
  | EmptyString => [EmptyString]
  | String c s' =>
      if Ascii.eqb c sep then EmptyString :: str_split sep s'
      else match str_split sep s' with
           | p :: ps => String c p :: ps
           | [] => [String c EmptyString]
           end
  end.

(** [int(s)] on ASCII text: surrounding white space is stripped, one sign is
    allowed, then decimal digits with single underscores between digits.
    [None] is [ValueError].  (The interpreter's configurable limit on the
    number of digits is not part of the embedding.) *)
Definition is_space (c : ascii) : bool :=
  let n := nat_of_ascii c in
  ((9 <=? n)%nat && (n <=? 13)%nat) || (n =? 32)%nat.

Fixpoint lstrip (s : string) : string :=
  match s with
  | EmptyString => EmptyString
  | String c s' => if is_space c then lstrip s' else s
  end.

Definition strip (s : string) : string :=
  String.rev (lstrip (String.rev (lstrip s))).

Definition digit_of (c : ascii) : option Z :=
  let n := Z.of_nat (nat_of_ascii c) in
  if ((48 <=? n) && (n <=? 57))%Z then Some (n - 48)%Z else None.

Fixpoint parse_digits (acc : Z) (after_digit : bool) (s : string) : option Z :=
  match s with
  | EmptyString => if after_digit then Some acc else None
  | String c s' =>
      match digit_of c with
      | Some d => parse_digits (10 * acc + d)%Z true s'
      | None =>
          if Ascii.eqb c "_" && after_digit then parse_digits acc false s'
          else None
      end
  end.

Definition py_int (s : string) : option Z :=
  match strip s with
  | String "+" s' => parse_digits 0 false s'
  | String "-" s' => Z.opp <$> parse_digits 0 false s'
  | s' => parse_digits 0 false s'
  end.

(** [datetime(y, m, d)]: a naive datetime at midnight, represented by its
    proleptic Gregorian ordinal ([toordinal()]); on such values [>=] and
    [- timedelta(days=n)] are [>=] and [- n] on ordinals.  [None] is the
    [ValueError] of an out-of-range field. *)
Definition is_leap (y : Z) : bool :=
  ((y mod 4 =? 0) && (negb (y mod 100 =? 0) || (y mod 400 =? 0)))%Z.

Definition days_in_month (y m : Z) : Z :=
  if (m =? 2)%Z then (if is_leap y then 29 else 28)%Z
  else if ((m =? 4) || (m =? 6) || (m =? 9) || (m =? 11))%Z then 30%Z
  else 31%Z.

Definition days_before_year (y : Z) : Z :=
  let y1 := (y - 1)%Z in
  (y1 * 365 + y1 / 4 - y1 / 100 + y1 / 400)%Z.

Definition days_before_month (y m : Z) : Z :=
  foldr Z.add 0%Z
    ((λ k, days_in_month y (Z.of_nat k)) <$> seq 1 (Z.to_nat m - 1)).

Definition datetime (y m d : Z) : option Z :=
  if ((1 <=? y) && (y <=? 9999) && (1 <=? m) && (m <=? 12)
      && (1 <=? d) && (d <=? days_in_month y m))%Z
  then Some (days_before_year y + days_before_month y m + d)%Z
  else None.

(** [dt - timedelta(days=n)]; [None] is the [OverflowError] below
    [datetime.min]. *)
Definition minus_days (dt n : Z) : option Z :=
  if (1 <=? dt - n)%Z then Some (dt - n)%Z else None.

(** [parts = s.split("-"); datetime(int(parts[0]), int(parts[1]), int(parts[2]))] *)
Definition parse_date (cutoff_str : string) : option Z :=
  let parts := str_split "-" cutoff_str in
  p0 ← parts !! 0%nat; y ← py_int p0;
  p1 ← parts !! 1%nat; m ← py_int p1;
  p2 ← parts !! 2%nat; d ← py_int p2;
  datetime y m d.

(** [is_within_3_months(cutoff_str)] for a given [cutoff_threshold]. *)
Definition is_within_3_months (cutoff_threshold : Z) (cutoff_str : string)
    : option bool :=
  dt ← parse_date cutoff_str;
  Some (cutoff_threshold <=? dt)%Z.

(** [[r for r in records if is_within_3_months(r["cutoff"])]] *)
Fixpoint keep_within (cutoff_threshold : Z) (records : list record)
    : option (list record) :=
  match records with
  | [] => Some []
  | r :: rest =>
      keep ← is_within_3_months cutoff_threshold (cutoff r);
      rest' ← keep_within cutoff_threshold rest;
      Some (if keep : bool then r :: rest' else rest')
  end.

(** The block "Filter to last 3 months only" of [main]. *)
Definition filter_last_3_months (mase_records crps_records : list record)
    : option (list record * list record) :=
  let all_cutoffs := sorted_set (cutoff <$> mase_records ++ crps_records) in
  match last all_cutoffs with
  | None => Some (mase_records, crps_records)
  | Some latest =>
      latest_date ← parse_date latest;
      cutoff_threshold ← minus_days latest_date 90;
      mase' ← keep_within cutoff_threshold mase_records;
      crps' ← keep_within cutoff_threshold crps_records;
      Some (mase', crps')
  end.

(** The [data] dictionary written to [leaderboard.json]. *)
Module Dataset.
Record t : Type := mk {
  models : list string;
  cutoffs : list string;
  subdatasets : list string;
  frequencies : list string;
  mase : list record;
  crps : list record;
  summary : list SummaryEntry
}.
End Dataset.

(** Lines "Extract unique cutoffs ..." to "Build final DATA object". *)
Definition build_data (mase_records crps_records : list record)
    (models : list string) : Dataset.t :=
  let all_records := mase_records ++ crps_records in
  Dataset.mk models
    (sorted_set (cutoff <$> all_records))
    (sorted_set (subdataset <$> all_records))
    (sorted_set (frequency <$> all_records))
    mase_records crps_records
    (compute_summary mase_records crps_records models).

(** [main] from the parsed records on: filter, then assemble with [MODELS]. *)
Definition main_data (mase_records crps_records : list record)
    : option Dataset.t :=
  '(mase', crps') ← filter_last_3_months mase_records crps_records;
  Some (build_data mase' crps' MODELS).

(** ** Template renderer: [main] of [generate_html.py] *)

Definition PLACEHOLDER : string := "/* __DATA_PLACEHOLDER__ */".

(** [old in s] *)
Fixpoint contains (old s : string) : bool :=
  String.prefix old s ||
  match s with
  | EmptyString => false
  | String _ s' => contains old s'
  end.

(** [s.replace(old, new)] for a non-empty [old]: scan left to right, replace
    each match and resume after it.  [skip] counts the characters of the
    current match still to be dropped. *)
Fixpoint replace_from (old new : string) (skip : nat) (s : string) : string :=
  match s with
  | EmptyString => EmptyString
  | String c s' =>
      match skip with
      | S k => replace_from old new k s'
      | O =>
          if String.prefix old s
          then new ++ replace_from old new (String.length old - 1) s'
          else String c (replace_from old new 0 s')
      end
  end.

Definition replace (old new s : string) : string := replace_from old new 0 s.

Inductive exit_error : Type :=
  | PlaceholderMissing.

(** [data_line = f"const DATA = {data_json};"] *)
Definition data_line (data_json : string) : string :=
  "const DATA = " ++ data_json ++ ";".

(** Lines 41-48: [data_json] is [json.dumps(data, separators=(",", ":"))]. *)
Definition render (data_json template : string) : exit_error + string :=
  if negb (contains PLACEHOLDER template)
  then inl PlaceholderMissing
  else inr (replace PLACEHOLDER (data_line data_json) template).

(** Number of positions of [s] at which [old] occurs. *)
Fixpoint occurrences (old s : string) : nat :=
  (if String.prefix old s then 1 else 0) +
  match s with
  | EmptyString => 0
  | String _ s' => occurrences old s'
  end.

(** ** Properties used in the statements *)

(** [a] occurs before [b] in [l]. *)
Definition before {A} (l : list A) (a b : A) : Prop :=
  ∃ i j, (i < j)%nat ∧ l !! i = Some a ∧ l !! j = Some b.

(** The order a stable sort of [l0] by [key] establishes: by key, and by
    position in [l0] among equal keys. *)
Definition stable_le {A} (key : A → Q) (l0 : list A) (x y : A) : Prop :=
  (key x < key y)%Q ∨ ((key x == key y)%Q ∧ before l0 x y).

(** Numbers [m * 2^e] with at most 53 significant bits, on or above the grid
    of the subnormal doubles. *)
Definition representable (y : Q) : Prop :=
  ∃ m e, (y == inject_Z m * pow2 e)%Q ∧ (Z.abs m ≤ 2 ^ 53)%Z ∧ (-1074 ≤ e)%Z.




(** The value of a finite float in lowest terms. *)
Definition float_red (x : pyfloat) : pyfloat :=
  match x with
  | Fin q => Fin (Qred q)
  | Inf negative => Inf negative
  end.



(** The combined score in the words of the specification: the mean of the
    rank means that are present, [999] when none is. *)
Definition combined_spec (rank_mase_m rank_crps_m : option Q) : Q :=
  match rank_mase_m, rank_crps_m with
  | Some a, Some b => ((a + b) / 2)%Q
  | Some a, None => a
  | None, Some b => b
  | None, None => 999%Q
  end.

(** The dictionary [compute_summary] appends for model [m]. *)
Definition model_row (mase_records crps_records : list record)
    (models : list string) (m : string) : SummaryRow :=
  summary_row (avg_metric_and_rank mase_records models).1
              (avg_metric_and_rank mase_records models).2
              (avg_metric_and_rank crps_records models).1
              (avg_metric_and_rank crps_records models).2 m.

(** The combined score read in exact arithmetic: every row of the sorted
    summary has the exact mean of its present rank means as score. *)
Definition combined_is_mean (mase_records crps_records : list record)
    (models : list string) : Prop :=
  ∀ row, row ∈ sorted_rows mase_records crps_records models →
    (_combined row ==
     combined_spec
       ((avg_metric_and_rank mase_records models).2 !!! model (fields row))
       ((avg_metric_and_rank crps_records models).2 !!! model (fields row)))%Q.



(** Every accumulated rank lies between [1] and the number of models. *)
Definition rank_inv (models : list string) (st : rank_state) : Prop :=
  ∀ m, (st.2 !!! m ≤ st.1 !!! m ≤ st.2 !!! m * length models)%nat.

(** The text [YYYY-MM-DD-HH] of a cutoff: zero-padded decimal fields. *)
Definition is_digit (k : Z) : Prop := (0 ≤ k < 10)%Z.

Definition digit_char (n : Z) : ascii := ascii_of_nat (48 + Z.to_nat n).

Definition two_digits (n : Z) : string :=
  String (digit_char (n / 10)) (String (digit_char (n mod 10)) EmptyString).

Definition four_digits (n : Z) : string :=
  (two_digits (n / 100) ++ two_digits (n mod 100))%string.

Definition format_cutoff (y m d h : Z) : string :=
  (four_digits y ++ "-" ++ two_digits m ++ "-" ++ two_digits d
   ++ "-" ++ two_digits h)%string.

(** A record whose cutoff parses to a date on or after [threshold]. *)
Definition on_or_after (threshold : Z) (r : record) : bool :=
  match parse_date (cutoff r) with
  | Some d => (threshold <=? d)%Z
  | None => false
  end.

(** Text on which [py_int] reads what [int] reads: ASCII characters only,
    and no more of them than the interpreter's default limit of 4300 digits
    for a decimal number. *)
Definition ascii_text (s : string) : Prop :=
  Forall (λ c, (nat_of_ascii c < 128)%nat) (list_ascii_of_string s) ∧
  (String.length s ≤ 4300)%nat.

(** Cutoffs that parse, to dates from which 90 days can be subtracted. *)
Definition cutoffs_ok (records : list record) : Prop :=
  Forall (λ r, ∃ d, parse_date (cutoff r) = Some d ∧ (91 ≤ d)%Z) records.

(** ** Sample inputs *)

Definition example_record : record :=
  mkRecord "s1" "H" "2026-01-01-00"
    (list_to_map [("AutoARIMA", Some 3%Q); ("AutoCES", None);
                  ("AutoETS", Some 1%Q); ("Chronos", Some 3%Q)]).

Definition example_records : list record :=
  [ example_record;
    mkRecord "s1" "H" "2026-01-08-00"
      (list_to_map [("AutoARIMA", Some 1%Q); ("AutoCES", None)]) ].

Definition example_cutoff_record (cutoff_str : string) : record :=
  mkRecord "s1" "H" cutoff_str ∅.

(** The records of the end-to-end example: models [A] and [B]. *)
Definition example_ab (a b : Q) : record :=
  mkRecord "s1" "H" "2026-01-01-00"
    (list_to_map [("A", Some a); ("B", Some b)]).

(** A record with a value for model [A] only. *)
Definition example_a (a : Q) : record :=
  mkRecord "s1" "H" "2026-01-01-00" (list_to_map [("A", Some a)]).




(** [A] is ranked once for MASE, and second, second and first for CRPS; [B]
    is ranked for CRPS only: first, first and second. *)
Definition example_mase_a : list record := [example_a 1].

Definition example_crps_ab : list record :=
  [example_ab 3 2; example_ab 2 1; example_ab 1 2].

(** 80 records: [A] is first in 73 of them and second in 7. *)
Definition example_80 : list record :=
  replicate 73 (example_ab 1 2) ++ replicate 7 (example_ab 2 1).
(** ** Further properties: definitions *)

(** The rank a record assigns to model [m], if it ranks it. *)
Definition rank_of (models : list string) (r : record) (m : string) : option nat :=
  (list_to_map (record_ranks models r) : gmap string nat) !! m.

(** The summary dictionary of a model without any value. *)
Definition empty_row (m : string) : SummaryRow :=
  mkRow (mkEntry m None None None None) 999.

(** ** Remote data fetcher: [fetch_mase_data], [fetch_crps_data]

    The HTTP exchanges are inputs of the embedding: the parsed body of the
    [/config] response, the parsed body of the submission response, and the
    text of each poll response.  What the functions do with them is embedded
    as written, with Python's dynamic typing: every operation on a JSON value
    is defined for the kinds of value on which Python defines it and is
    [None] (an uncaught [TypeError], [AttributeError] or [KeyError]) on the
    others. *)

(** A parsed JSON value.  A dict is the list of its items, each key once.
    (The non-finite floats some encoders emit are not part of the type.) *)
Inductive json : Type :=
  | JNull
  | JBool (b : bool)
  | JNum (q : Q)
  | JStr (s : string)
  | JArr (items : list json)
  | JObj (members : list (string * json)).

(** How a fetch ends: a normal return, a diagnostic followed by
    [sys.exit(1)], or an uncaught exception. *)
Inductive fetch_error : Type :=
  | DataNotFound
  | SubmissionError
  | PollTimeout.

Inductive outcome (A : Type) : Type :=
  | Returns (a : A)
  | Exits (e : fetch_error)
  | Raises.
Arguments Returns {A} _.
Arguments Exits {A} _.
Arguments Raises {A}.

(** [bool(x)] *)
Definition truthy (x : json) : bool :=
  match x with
  | JNull => false
  | JBool b => b
  | JNum q => negb (Qeq_bool q 0)
  | JStr s => negb (String.eqb s EmptyString)
  | JArr items => match items with [] => false | _ => true end
  | JObj members => match members with [] => false | _ => true end
  end.

(** The value stored under [key] in the items of a dict. *)
Fixpoint dict_lookup (key : string) (members : list (string * json)) : option json :=
  match members with
  | [] => None
  | (k, v) :: rest => if String.eqb k key then Some v else dict_lookup key rest
  end.

(** [x.get(key, default)]: only a dict has [get]. *)
Definition py_get_or (key : string) (default : json) (x : json) : option json :=
  match x with
  | JObj members =>
      Some (match dict_lookup key members with Some v => v | None => default end)
  | _ => None
  end.

(** [x.get(key)] *)
Definition py_get (key : string) (x : json) : option json :=
  py_get_or key JNull x.

(** [x == s] for a string literal [s] *)
Definition json_eq_str (x : json) (s : string) : bool :=
  match x with
  | JStr t => String.eqb t s
  | _ => false
  end.

(** [key in x]: a key of a dict, an element of a list, a substring of a
    string; the other kinds are not containers. *)
Definition py_in (key : string) (x : json) : option bool :=
  match x with
  | JObj members => Some (bool_decide (is_Some (dict_lookup key members)))
  | JArr items => Some (existsb (λ y, json_eq_str y key) items)
  | JStr s => Some (contains key s)
  | _ => None
  end.

(** [x[key]] for a string [key]: only a dict can be indexed by a string. *)
Definition py_getitem (key : string) (x : json) : option json :=
  match x with
  | JObj members => dict_lookup key members
  | _ => None
  end.

(** A continuation byte of a UTF-8 sequence. *)
Definition is_continuation (c : ascii) : bool :=
  let n := nat_of_ascii c in (128 <=? n)%nat && (n <? 192)%nat.

(** [len(s)] of a string: its number of code points. *)
Fixpoint str_len (s : string) : nat :=
  match s with
  | EmptyString => 0
  | String c s' => ((if is_continuation c then 0 else 1) + str_len s')%nat
  end.

(** The code points of a string, each as a string. *)
Fixpoint chars_from_right (s : string) : string * list string :=
  match s with
  | EmptyString => (EmptyString, [])
  | String c s' =>
      let '(pending, chars) := chars_from_right s' in
      if is_continuation c then (String c pending, chars)
      else (EmptyString, String c pending :: chars)
  end.

Definition str_chars (s : string) : list string :=
  let '(pending, chars) := chars_from_right s in
  match pending with
  | EmptyString => chars
  | _ => pending :: chars
  end.

(** [len(x)] *)
Definition py_len (x : json) : option nat :=
  match x with
  | JStr s => Some (str_len s)
  | JArr items => Some (length items)
  | JObj members => Some (length members)
  | _ => None
  end.

(** The values [for y in x] goes through. *)
Definition py_iter (x : json) : option (list json) :=
  match x with
  | JArr items => Some items
  | JObj members => Some (JStr <$> members.*1)
  | JStr s => Some (JStr <$> str_chars s)
  | _ => None
  end.

(** [comp.get("component") or comp.get("type")] *)
Definition comp_type (comp : json) : option json :=
  c ← py_get "component" comp;
  if truthy c then Some c else py_get "type" comp.

(** The body of the loop of [fetch_mase_data] for one component: [None]
    raises, [Some None] goes on to the next component, [Some (Some val)]
    sets [dataframe = val] and breaks. *)
Definition dataframe_value (comp : json) : option (option json) :=
  t ← comp_type comp;
  if json_eq_str t "dataframe" then
    props ← py_get_or "props" (JObj []) comp;
    val ← py_get "value" props;
    if truthy val then
      has_headers ← py_in "headers" val;
      if has_headers : bool then
        has_data ← py_in "data" val;
        if has_data : bool then
          headers ← py_getitem "headers" val;
          n ← py_len headers;
          Some (if (15 <=? n)%nat then Some val else None)
        else Some None
      else Some None
    else Some None
  else Some None.

(** [for comp in components: ...] *)
Fixpoint find_dataframe (comps : list json) : option (option json) :=
  match comps with
  | [] => Some None
  | comp :: rest =>
      found ← dataframe_value comp;
      match found with
      | Some val => Some (Some val)
      | None => find_dataframe rest
      end
  end.

(** [fetch_mase_data()] from [config = resp.json()] on.  The value found is
    truthy, so [if not dataframe] only fires when the loop found none; the
    [print] evaluates [len(rows)] and [len(headers)]. *)
Definition fetch_mase_data (config : json) : outcome (json * json) :=
  match (comps ← py_get_or "components" (JArr []) config;
         items ← py_iter comps;
         find_dataframe items) with
  | None => Raises
  | Some None => Exits DataNotFound
  | Some (Some dataframe) =>
      match (headers ← py_getitem "headers" dataframe;
             rows ← py_getitem "data" dataframe;
             _ ← py_len rows;
             _ ← py_len headers;
             Some (headers, rows)) with
      | Some table => Returns table
      | None => Raises
      end
  end.

(** [s[n:]] *)
Fixpoint str_drop (n : nat) (s : string) : string :=
  match n, s with
  | S n', String _ s' => str_drop n' s'
  | _, _ => s
  end.

Section fetch_crps.
(** [json.loads]; [None] is [json.JSONDecodeError]. *)
Context (json_loads : string → option json).

(** The body of [for line in content.split("\n")] for one line: [None]
    raises, [Some None] goes on to the next line, [Some (Some t)] returns
    [t].  Only [json.JSONDecodeError] is caught. *)
Definition scan_line (line : string) : option (option (json * json)) :=
  if String.prefix "data: " line then
    match json_loads (str_drop 6 line) with
    | None => Some None
    | Some (JArr (df :: _)) =>
        has_headers ← py_in "headers" df;
        if has_headers : bool then
          has_data ← py_in "data" df;
          if has_data : bool then
            data ← py_getitem "data" df;
            _ ← py_len data;
            headers ← py_getitem "headers" df;
            Some (Some (headers, data))
          else Some None
        else Some None
    | Some _ => Some None
    end
  else Some None.

Fixpoint scan_lines (lines : list string) : option (option (json * json)) :=
  match lines with
  | [] => Some None
  | line :: rest =>
      found ← scan_line line;
      match found with
      | Some table => Some (Some table)
      | None => scan_lines rest
      end
  end.

(** The text of the response to the poll number [attempt] for an event id;
    [None] when the request or [raise_for_status] raises. *)
Context (poll : json → nat → option string).

(** [for attempt in range(10)] with [remaining] iterations to go; [slept]
    is the number of seconds passed to [time.sleep] so far. *)
Fixpoint poll_loop (event_id : json) (remaining attempt slept : nat)
    : outcome (json * json) * nat :=
  match remaining with
  | O => (Exits PollTimeout, slept)
  | S remaining' =>
      match poll event_id attempt with
      | None => (Raises, slept)
      | Some content =>
          match scan_lines (str_split "010" content) with
          | None => (Raises, slept)
          | Some (Some table) => (Returns table, slept)
          | Some None => poll_loop event_id remaining' (S attempt) (slept + 3)
          end
      end
  end.

(** [fetch_crps_data()] from the submission response on: [submit] is
    [resp.json()], or [None] when the request, [raise_for_status] or the
    decoding raises.  The result comes with the seconds slept. *)
Definition fetch_crps_data (submit : option json) : outcome (json * json) * nat :=
  match submit with
  | None => (Raises, 0%nat)
  | Some body =>
      match py_get "event_id" body with
      | None => (Raises, 0%nat)
      | Some event_id =>
          if truthy event_id then poll_loop event_id 10 0 1
          else (Exits SubmissionError, 0%nat)
      end
  end.
End fetch_crps.

(** The shape of the [/config] payload the service documents: a dict with a
    [components] list of dicts with a [type] and [props.value]. *)
Definition table_json (headers : list string) (rows : list json) : json :=
  JObj [("headers", JArr (JStr <$> headers)); ("data", JArr rows)].

Definition component_json (desc : string * list string * list json) : json :=
  JObj [("type", JStr desc.1.1);
        ("props", JObj [("value", table_json desc.1.2 desc.2)])].

Definition config_json (descs : list (string * list string * list json)) : json :=
  JObj [("components", JArr (component_json <$> descs))].

(** The test [fetch_mase_data] applies to such a component. *)
Definition is_mase_table (desc : string * list string * list json) : Prop :=
  desc.1.1 = "dataframe" ∧ (15 ≤ length desc.1.2)%nat.

(** A poll whose response carries no table and raises nothing. *)
Definition no_result (json_loads : string → option json)
    (poll : json → nat → option string) (event_id : json) (attempt : nat) : Prop :=
  ∃ content, poll event_id attempt = Some content ∧
             scan_lines json_loads (str_split "010" content) = Some None.

(** A payload with a short summary table, a non-table component and the
    full table. *)
Definition example_headers : list string :=
  ["subdataset"; "frequency"; "cutoff"] ++ MODELS.

Definition example_config : json :=
  config_json [ ("dataframe", ["model"; "mase"; "crps"; "rank"; "n"], []);
                ("markdown", example_headers, []);
                ("dataframe", example_headers, [JArr [JStr "s1"]]) ].

(** A decoder that knows one payload, and a service that answers the third
    poll. *)
Definition example_loads (s : string) : option json :=
  if String.eqb s "[table]" then Some (JArr [table_json ["h"] []]) else None.

Definition example_poll (event_id : json) (attempt : nat) : option string :=
  if (attempt <? 2)%nat
  then Some ("event: heartbeat" ++ String "010" "data: null")%string
  else Some ("event: complete" ++ String "010" "data: [table]")%string.

Definition example_silent_poll (event_id : json) (attempt : nat) : option string :=
  Some "event: heartbeat".

(** ** Normaliser *)

Section parse_rows_facts.
Context {C : Type}.
Implicit Types (row : list C) (acc : gmap string C) (mc : list string).

Lemma fill_values_is_Some row mc k acc :
  (∀ i, (i < length mc)%nat → is_Some (row !! (3 + k + i)%nat)) →
  is_Some (fill_values row (zip (seq k (length mc)) mc) acc).
Proof.
  revert k acc. induction mc as [|a mc IH]; intros k acc Hrow; simpl.
  - by eexists.
  - destruct (Hrow 0%nat) as [val Hval]; [simpl; lia|].
    rewrite Nat.add_0_r in Hval. simpl in Hval. rewrite Hval. simpl.
    apply IH. intros i Hi.
    replace (3 + S k + i)%nat with (3 + k + S i)%nat by lia.
    apply Hrow. simpl. lia.
Qed.

Lemma fill_values_inv row mc k acc acc' :
  fill_values row (zip (seq k (length mc)) mc) acc = Some acc' →
  (∀ i, (i < length mc)%nat → is_Some (row !! (3 + k + i)%nat)) ∧
  dom acc' = dom acc ∪ list_to_set mc ∧
  (∀ m, m ∉ mc → acc' !! m = acc !! m) ∧
  (∀ i m, mc !! i = Some m →
          (∀ j, (i < j)%nat → mc !! j ≠ Some m) →
          acc' !! m = row !! (3 + k + i)%nat).
Proof.
  revert k acc. induction mc as [|a mc IH]; intros k acc Hfill; simpl in Hfill.
  - injection Hfill as <-. split; [|split; [|split]].
    + simpl. lia.
    + set_solver.
    + done.
    + intros i m Hi. by rewrite lookup_nil in Hi.
  - destruct (row !! S (S (S k))) as [val|] eqn:Hval; [|done]. simpl in Hfill.
    apply IH in Hfill as (Hrow & Hdom & Hout & Hin).
    split; [|split; [|split]].
    + intros [|i] Hi.
      * rewrite Nat.add_0_r. simpl. rewrite Hval. by eexists.
      * replace (3 + k + S i)%nat with (3 + S k + i)%nat by lia.
        apply Hrow. simpl in Hi. lia.
    + rewrite Hdom, dom_insert_L. set_solver.
    + intros m Hm. apply not_elem_of_cons in Hm as [Hne Hm].
      rewrite (Hout m Hm). by rewrite lookup_insert_ne.
    + intros [|i] m Hi Hlast; simpl in Hi.
      * inversion Hi; subst m.
        assert (a ∉ mc) as Ha.
        { intros [j Hj]%list_elem_of_lookup. apply (Hlast (S j)); [lia|done]. }
        rewrite (Hout a Ha), lookup_insert_eq, Nat.add_0_r. done.
      * replace (3 + k + S i)%nat with (3 + S k + i)%nat by lia.
        apply Hin; [done|]. intros j Hj. apply (Hlast (S j)). lia.
Qed.

Lemma parse_row_is_Some mc row :
  (3 `max` (3 + length mc) ≤ length row)%nat → is_Some (parse_row mc row).
Proof.
  intros Hlen. unfold parse_row.
  destruct (lookup_lt_is_Some_2 row 0%nat) as [c0 ->]; [lia|].
  destruct (lookup_lt_is_Some_2 row 1%nat) as [c1 ->]; [lia|].
  destruct (lookup_lt_is_Some_2 row 2%nat) as [c2 ->]; [lia|]. simpl.
  destruct (fill_values_is_Some row mc 0 ∅) as [vs Hvs].
  { intros i Hi. apply lookup_lt_is_Some_2. lia. }
  unfold enumerate. rewrite Hvs. by eexists.
Qed.

Lemma parse_row_inv mc row r :
  parse_row mc row = Some r →
  row !! 0%nat = Some (subdataset r) ∧
  row !! 1%nat = Some (frequency r) ∧
  row !! 2%nat = Some (cutoff r) ∧
  (∀ i, (i < length mc)%nat → is_Some (row !! (3 + i)%nat)) ∧
  dom (values r) = list_to_set mc ∧
  (∀ i m, mc !! i = Some m →
          (∀ j, (i < j)%nat → mc !! j ≠ Some m) →
          values r !! m = row !! (3 + i)%nat).
Proof.
  unfold parse_row, enumerate. intros Hp.
  destruct (row !! 0%nat) as [c0|]; [|done].
  destruct (row !! 1%nat) as [c1|]; [|done].
  destruct (row !! 2%nat) as [c2|]; [|done]. simpl in Hp.
  destruct (fill_values row (zip (seq 0 (length mc)) mc) ∅) as [vs|] eqn:Hvs;
    [|done].
  inversion Hp; subst r; simpl.
  apply fill_values_inv in Hvs as (Hrow & Hdom & _ & Hin).
  repeat split; try done.
  - rewrite Hdom, dom_empty_L. set_solver.
Qed.

Lemma parse_loop_inv mc (rows : list (list C)) (sofar : list (MetricRecord C C)) out :
  parse_loop mc rows sofar = Some out →
  ∃ recs, out = sofar ++ recs ∧
          Forall2 (λ row r, parse_row mc row = Some r) rows recs.
Proof.
  revert sofar. induction rows as [|row rows IH]; intros sofar Hp; simpl in Hp.
  - inversion Hp. exists []. by rewrite app_nil_r.
  - destruct (parse_row mc row) as [r|] eqn:Hr; [|done]. simpl in Hp.
    apply IH in Hp as (recs & -> & Hall).
    exists (r :: recs). split; [by rewrite <- app_assoc|]. by constructor.
Qed.

Lemma parse_loop_is_Some mc (rows : list (list C)) (sofar : list (MetricRecord C C)) :
  Forall (λ row, is_Some (parse_row mc row)) rows →
  is_Some (parse_loop mc rows sofar).
Proof.
  intros Hall. revert sofar. induction Hall as [|row rows [r Hr] _ IH];
    intros sofar; simpl.
  - by eexists.
  - rewrite Hr. simpl. apply IH.
Qed.

Lemma parse_loop_None mc (rows : list (list C)) (sofar : list (MetricRecord C C)) :
  Exists (λ row, parse_row mc row = None) rows →
  parse_loop mc rows sofar = None.
Proof.
  intros Hex. revert sofar. induction Hex as [row rows Hr|row rows _ IH];
    intros sofar; simpl.
  - by rewrite Hr.
  - destruct (parse_row mc row); [apply IH|done].
Qed.

(** What [parse_rows] returns, whenever it returns. *)
Lemma parse_rows_inv headers (raw_rows : list (list C)) records model_cols :
  parse_rows headers raw_rows = Some (records, model_cols) →
  model_cols = drop 3 headers ∧
  Forall2 (λ row r, parse_row model_cols row = Some r) raw_rows records.
Proof.
  unfold parse_rows. intros Hp.
  destruct (parse_loop (drop 3 headers) raw_rows []) as [out|] eqn:Hloop;
    [|done].
  inversion Hp; subst. split; [done|].
  by apply parse_loop_inv in Hloop as (recs & -> & Hall).
Qed.

(** [parse_rows] returns exactly on the tables whose rows all reach the
    last indexed column. *)
Lemma parse_rows_is_Some_iff headers (raw_rows : list (list C)) :
  is_Some (parse_rows headers raw_rows) ↔
  Forall (λ row, (3 `max` length headers ≤ length row)%nat) raw_rows.
Proof.
  split.
  - intros [[records mc] Hp]. apply parse_rows_inv in Hp as [-> Hall].
    induction Hall as [|row r rows recs Hr _ IH]; constructor; [|done].
    apply parse_row_inv in Hr as (H0 & H1 & H2 & Hrow & _).
    apply lookup_lt_Some in H2.
    rewrite length_drop in Hrow.
    destruct (decide (length headers ≤ 3)%nat); [lia|].
    destruct (Hrow (length headers - 4)%nat) as [c Hc]; [lia|].
    apply lookup_lt_Some in Hc. lia.
  - intros Hall. unfold parse_rows.
    destruct (parse_loop_is_Some (drop 3 headers) raw_rows []) as [out ->].
    + eapply Forall_impl; [exact Hall|]. intros row Hrow. simpl in Hrow.
      apply parse_row_is_Some. rewrite length_drop. lia.
    + by eexists.
Qed.
End parse_rows_facts.

(** C8. On a table whose rows are as long as the header list, [parse_rows]
    returns the header slice from index 3 as model columns and one record per
    data row, in row order.  The first three cells of the row are the record's
    subdataset, frequency and cutoff.  The keys of [values] are exactly the
    header names from index 3 on (no reference to [MODELS]), and the entry of
    a header name is the row's cell in that column (for a name that occurs
    several times, the last such column); a [None] cell is stored as [None]. *)
Theorem parse_rows_records headers (raw_rows : list (list cell)) :
  table_ok headers raw_rows →
  ∃ records,
    parse_rows headers raw_rows = Some (records, drop 3 headers) ∧
    length records = length raw_rows ∧
    ∀ k row, raw_rows !! k = Some row →
      ∃ r, records !! k = Some r ∧
           row !! 0%nat = Some (subdataset r) ∧
           row !! 1%nat = Some (frequency r) ∧
           row !! 2%nat = Some (cutoff r) ∧
           dom (values r) = list_to_set (drop 3 headers) ∧
           ∀ i m, drop 3 headers !! i = Some m →
                  (∀ j, (i < j)%nat → drop 3 headers !! j ≠ Some m) →
                  (∃ c, row !! (3 + i)%nat = Some c ∧ values r !! m = Some c) ∧
                  (row !! (3 + i)%nat = Some CNone → values r !! m = Some CNone).
Proof.
  intros [Hh Hrows].
  destruct (proj2 (parse_rows_is_Some_iff headers raw_rows)) as [[records mc] Hp].
  { eapply Forall_impl; [exact Hrows|]. simpl. lia. }
  pose proof Hp as Hp'. apply parse_rows_inv in Hp' as [-> Hall].
  exists records. split; [done|]. split.
  { symmetry. by eapply Forall2_length. }
  intros k row Hk.
  destruct (Forall2_lookup_l _ _ _ _ _ Hall Hk) as (r & Hr & Hrow).
  exists r. split; [done|].
  apply parse_row_inv in Hrow as (H0 & H1 & H2 & Hdef & Hdom & Hval).
  repeat (split; [done|]).
  intros i m Hi Hlast. specialize (Hval i m Hi Hlast). split.
  - destruct (Hdef i) as [c Hc]; [by eapply lookup_lt_Some|].
    exists c. by rewrite Hval.
  - intros Hc. by rewrite Hval.
Qed.

Lemma parse_rows_records_witness :
  let headers := ["subdataset"; "frequency"; "cutoff"; "A"; "B"] in
  let raw_rows := [[CStr "s1"; CStr "H"; CStr "2026-01-01-00"; CNum 1; CNone]] in
  table_ok headers raw_rows ∧
  ∃ records,
    parse_rows headers raw_rows = Some (records, drop 3 headers) ∧
    length records = length raw_rows ∧
    ∀ k row, raw_rows !! k = Some row →
      ∃ r, records !! k = Some r ∧
           row !! 0%nat = Some (subdataset r) ∧
           row !! 1%nat = Some (frequency r) ∧
           row !! 2%nat = Some (cutoff r) ∧
           dom (values r) = list_to_set (drop 3 headers) ∧
           ∀ i m, drop 3 headers !! i = Some m →
                  (∀ j, (i < j)%nat → drop 3 headers !! j ≠ Some m) →
                  (∃ c, row !! (3 + i)%nat = Some c ∧ values r !! m = Some c) ∧
                  (row !! (3 + i)%nat = Some CNone → values r !! m = Some CNone).
Proof.
  intros headers raw_rows.
  assert (table_ok headers raw_rows) as Hok.
  { split; [simpl; lia|]. repeat constructor; simpl; lia. }
  split; [exact Hok|].
  exact (parse_rows_records headers raw_rows Hok).
Defined.

(** C9. [parse_rows] needs a precondition on the table.  With at least three
    headers and rows at least as long as the header list, every row access
    (positions 0, 1, 2 and [3 + i] for each model column [i]) is in range and
    [parse_rows] returns.  Without it an access can be undefined: for four
    headers and an empty row, the accesses at 0, 1, 2 and [3 + 0] all fail and
    [parse_rows] raises.  The row part of the precondition is necessary on
    every table: whenever [parse_rows] returns, each row has at least three
    cells and at least as many cells as there are headers. *)
Theorem parse_rows_precondition :
  (∀ headers (raw_rows : list (list cell)),
     table_ok headers raw_rows →
     is_Some (parse_rows headers raw_rows) ∧
     Forall (λ row : list cell,
               is_Some (row !! 0%nat) ∧ is_Some (row !! 1%nat) ∧
               is_Some (row !! 2%nat) ∧
               ∀ i, (i < length (drop 3 headers))%nat →
                    is_Some (row !! (3 + i)%nat)) raw_rows) ∧
  (∃ headers (row : list cell) (i : nat),
     ¬ table_ok headers [row] ∧
     (length row < length headers)%nat ∧
     (i < length (drop 3 headers))%nat ∧
     row !! 0%nat = None ∧ row !! 1%nat = None ∧ row !! 2%nat = None ∧
     row !! (3 + i)%nat = None ∧
     parse_rows headers [row] = None) ∧
  (∀ headers (raw_rows : list (list cell)),
     is_Some (parse_rows headers raw_rows) →
     Forall (λ row : list cell,
               (3 ≤ length row)%nat ∧ (length headers ≤ length row)%nat)
            raw_rows).
Proof.
  split; [|split].
  - intros headers raw_rows [Hh Hrows]. split.
    + apply parse_rows_is_Some_iff.
      eapply Forall_impl; [exact Hrows|]. simpl. lia.
    + eapply Forall_impl; [exact Hrows|]. intros row Hrow. simpl in Hrow.
      repeat split; try (apply lookup_lt_is_Some_2; lia).
      intros i Hi. rewrite length_drop in Hi.
      apply lookup_lt_is_Some_2. lia.
  - exists ["subdataset"; "frequency"; "cutoff"; "A"], [], 0%nat.
    repeat split; try done; try (simpl; lia).
    intros [_ Hrows]. apply Forall_cons in Hrows as [Hlen _].
    simpl in Hlen. lia.
  - intros headers raw_rows Hsome. apply parse_rows_is_Some_iff in Hsome.
    eapply Forall_impl; [exact Hsome|]. simpl. lia.
Qed.

Lemma parse_rows_precondition_witness :
  let headers := ["subdataset"; "frequency"; "cutoff"; "A"] in
  let raw_rows := [[CStr "s1"; CStr "H"; CStr "2026-01-01-00"; CNone]] in
  table_ok headers raw_rows ∧
  is_Some (parse_rows headers raw_rows) ∧
  Forall (λ row : list cell,
            is_Some (row !! 0%nat) ∧ is_Some (row !! 1%nat) ∧
            is_Some (row !! 2%nat) ∧
            ∀ i, (i < length (drop 3 headers))%nat →
                 is_Some (row !! (3 + i)%nat)) raw_rows.
Proof.
  intros headers raw_rows.
  assert (table_ok headers raw_rows) as Hok.
  { split; [simpl; lia|]. repeat constructor; simpl; lia. }
  split; [exact Hok|].
  exact (proj1 parse_rows_precondition headers raw_rows Hok).
Defined.

(** ** Stable sorting *)

Section list_sort_facts.
Context {A : Type} (key : A → Q).
Implicit Types (x y : A) (l : list A).

Lemma stable_le_key l0 x y : stable_le key l0 x y → (key x <= key y)%Q.
Proof.
  intros [Hlt|[Heq _]]; [by apply Qlt_le_weak|]. rewrite Heq. apply Qle_refl.
Qed.

Lemma before_cons_head x y l : y ∈ l → before (x :: l) x y.
Proof.
  intros [j Hj]%list_elem_of_lookup. exists 0%nat, (S j).
  split; [lia|]. by split.
Qed.

Lemma before_cons x a b l : before l a b → before (x :: l) a b.
Proof.
  intros (i & j & Hij & Hi & Hj). exists (S i), (S j).
  split; [lia|]. by split.
Qed.

Lemma sort_insert_Permutation x l : sort_insert key x l ≡ₚ x :: l.
Proof.
  induction l as [|y l IH]; simpl; [done|].
  destruct (Qle_bool (key x) (key y)); [done|].
  rewrite IH. apply Permutation_swap.
Qed.

Lemma list_sort_Permutation l : list_sort key l ≡ₚ l.
Proof.
  induction l as [|x l IH]; simpl; [done|].
  by rewrite sort_insert_Permutation, IH.
Qed.

Lemma length_list_sort l : length (list_sort key l) = length l.
Proof. apply Permutation_length, list_sort_Permutation. Qed.

Lemma sort_insert_sorted (R : relation A) x l :
  (∀ a b, R a b → (key a <= key b)%Q) →
  (∀ y, y ∈ l → (key y < key x)%Q → R y x) →
  (∀ y, y ∈ l → (key x <= key y)%Q → R x y) →
  StronglySorted R l → StronglySorted R (sort_insert key x l).
Proof.
  intros Hkey Hlt Hle. induction 1 as [|y l Hl IH Hy]; simpl.
  - repeat constructor.
  - destruct (Qle_bool (key x) (key y)) eqn:Hxy.
    + apply Qle_bool_iff in Hxy.
      constructor; [by constructor|].
      apply Forall_forall. intros z Hz. apply Hle; [done|].
      apply elem_of_cons in Hz as [->|Hz]; [done|].
      eapply Qle_trans; [exact Hxy|]. apply Hkey.
      rewrite Forall_forall in Hy. by apply Hy.
    + assert (key y < key x)%Q as Hyx.
      { apply Qnot_le_lt. intros Hc. apply Qle_bool_iff in Hc. congruence. }
      constructor.
      * apply IH; intros z Hz; [apply Hlt|apply Hle]; by right.
      * apply Forall_forall. intros z Hz.
        rewrite sort_insert_Permutation in Hz.
        apply elem_of_cons in Hz as [->|Hz].
        -- apply Hlt; [by left|done].
        -- rewrite Forall_forall in Hy. by apply Hy.
Qed.

Lemma StronglySorted_impl (R1 R2 : relation A) l :
  (∀ a b, R1 a b → R2 a b) → StronglySorted R1 l → StronglySorted R2 l.
Proof.
  intros HR. induction 1 as [|y l Hl IH Hy]; constructor; [done|].
  eapply Forall_impl; [exact Hy|]. intros z. apply HR.
Qed.

(** [list_sort] sorts by key and keeps entries with equal keys in their
    order of [l]. *)
Lemma list_sort_stable l : StronglySorted (stable_le key l) (list_sort key l).
Proof.
  induction l as [|x l IH]; simpl; [constructor|].
  apply sort_insert_sorted.
  - apply stable_le_key.
  - intros y _ Hyx. by left.
  - intros y Hy Hxy. apply Qle_lt_or_eq in Hxy as [Hlt|Heq]; [by left|].
    right. split; [done|]. apply before_cons_head.
    by rewrite list_sort_Permutation in Hy.
  - eapply StronglySorted_impl; [|exact IH].
    intros a b [Hlt|[Heq Hb]]; [by left|right].
    split; [done|]. by apply before_cons.
Qed.

Lemma StronglySorted_lookup (R : relation A) l i j x y :
  StronglySorted R l → (i < j)%nat →
  l !! i = Some x → l !! j = Some y → R x y.
Proof.
  intros Hs. revert i j. induction Hs as [|z l Hl IH Hz]; intros i j Hij Hi Hj.
  - by rewrite lookup_nil in Hi.
  - destruct j as [|j]; [lia|]. simpl in Hj. destruct i as [|i]; simpl in Hi.
    + inversion Hi; subst z. rewrite Forall_forall in Hz.
      apply Hz. by eapply list_elem_of_lookup_2.
    + apply (IH i j); [lia|done|done].
Qed.
End list_sort_facts.

(** ** Per-record ranking *)

Lemma enumerate_lookup {A} (l : list A) i j x :
  enumerate l !! i = Some (j, x) ↔ j = i ∧ l !! i = Some x.
Proof.
  unfold enumerate. rewrite lookup_zip_with_Some. split.
  - intros (a & b & Hab & Ha & Hb). apply lookup_seq in Ha as [-> _].
    inversion Hab; subst. done.
  - intros [-> Hx]. exists i, x. split; [done|]. split; [|done].
    apply lookup_seq. split; [done|]. by eapply lookup_lt_Some.
Qed.

Lemma enumerate_fst {A} (l : list A) : (enumerate l).*1 = seq 0 (length l).
Proof. apply fst_zip. by rewrite length_seq. Qed.

Lemma enumerate_snd {A} (l : list A) : (enumerate l).*2 = l.
Proof. apply snd_zip. by rewrite length_seq. Qed.

Lemma enumerate_elem_of {A} (l : list A) i x :
  (i, x) ∈ enumerate l ↔ l !! i = Some x.
Proof.
  rewrite list_elem_of_lookup. split.
  - intros [n Hn]. by apply enumerate_lookup in Hn as [-> ?].
  - intros Hx. exists i. by apply enumerate_lookup.
Qed.

Section present_vals_facts.
Context (r : record).
Implicit Types (models : list string) (m : string) (v : Q).

Lemma present_vals_cons m models :
  present_vals (m :: models) r
  = match get_value r m with
    | Some v => (m, v) :: present_vals models r
    | None => present_vals models r
    end.
Proof. unfold present_vals. simpl. by destruct (get_value r m). Qed.

Lemma elem_of_present_vals models m v :
  (m, v) ∈ present_vals models r ↔ m ∈ models ∧ get_value r m = Some v.
Proof.
  induction models as [|m' models IH].
  - unfold present_vals. simpl. split; [by intros ?%elem_of_nil|].
    by intros [?%elem_of_nil _].
  - rewrite present_vals_cons, elem_of_cons.
    destruct (get_value r m') as [v'|] eqn:Hv'.
    + rewrite elem_of_cons, IH. split.
      * intros [Heq|[? ?]]; [inversion Heq; subst; by split; [left|]|].
        split; [by right|done].
      * intros [[->|Hin] Hv]; [left; congruence|right; done].
    + rewrite IH. split; [intros [? ?]; split; [by right|done]|].
      intros [[->|Hin] Hv]; [congruence|done].
Qed.

Lemma present_vals_fst models :
  (present_vals models r).*1 = filter (λ m, is_Some (get_value r m)) models.
Proof.
  induction models as [|m models IH]; [done|].
  rewrite present_vals_cons, filter_cons.
  destruct (get_value r m) as [v|] eqn:Hv.
  - rewrite decide_True by (by eexists). by rewrite fmap_cons, IH.
  - by rewrite decide_False by (by intros [? ?]).
Qed.

Lemma present_vals_NoDup models :
  NoDup models → NoDup (present_vals models r).*1.
Proof. intros Hnd. rewrite present_vals_fst. by apply NoDup_filter. Qed.

Lemma length_present_vals models :
  (length (present_vals models r) ≤ length models)%nat.
Proof.
  rewrite <- (length_fmap fst), present_vals_fst. apply length_filter.
Qed.

Lemma present_vals_before models m1 v1 m2 v2 :
  before (present_vals models r) (m1, v1) (m2, v2) → before models m1 m2.
Proof.
  induction models as [|m models IH]; intros (i & j & Hij & Hi & Hj).
  - unfold present_vals in Hi. simpl in Hi. by rewrite lookup_nil in Hi.
  - rewrite present_vals_cons in Hi, Hj.
    destruct (get_value r m) as [v|] eqn:Hv.
    + destruct j as [|j]; [lia|]. simpl in Hj. destruct i as [|i]; simpl in Hi.
      * inversion Hi; subst. apply before_cons_head.
        apply list_elem_of_lookup_2 in Hj.
        by apply elem_of_present_vals in Hj as [? _].
      * apply before_cons, IH. exists i, j. split; [lia|]. by split.
    + apply before_cons, IH. exists i, j. by split.
Qed.
End present_vals_facts.

Section rank_record_facts.
Implicit Types (st : rank_state) (es : list (nat * (string * Q))).

Lemma foldl_rank_add_other st es m :
  m ∉ (λ e : nat * (string * Q), e.2.1) <$> es →
  (foldl rank_add st es).1 !! m = st.1 !! m ∧
  (foldl rank_add st es).2 !! m = st.2 !! m.
Proof.
  revert st. induction es as [|e es IH]; intros st Hm; simpl; [done|].
  rewrite fmap_cons in Hm. apply not_elem_of_cons in Hm as [Hne Hm].
  destruct (IH (rank_add st e) Hm) as [-> ->]. unfold rank_add. simpl.
  by rewrite !lookup_insert_ne.
Qed.

Lemma foldl_rank_add_once st es i m v :
  NoDup ((λ e : nat * (string * Q), e.2.1) <$> es) →
  (i, (m, v)) ∈ es →
  (foldl rank_add st es).1 !!! m = (st.1 !!! m + (i + 1))%nat ∧
  (foldl rank_add st es).2 !!! m = (st.2 !!! m + 1)%nat.
Proof.
  revert st. induction es as [|e es IH]; intros st Hnd Hin; simpl.
  - by apply elem_of_nil in Hin.
  - rewrite fmap_cons in Hnd. apply NoDup_cons in Hnd as [Hfresh Hnd].
    apply elem_of_cons in Hin as [<-|Hin].
    + destruct (foldl_rank_add_other (rank_add st (i, (m, v))) es m Hfresh)
        as [H1 H2].
      rewrite !lookup_total_alt, H1, H2. unfold rank_add. simpl.
      by rewrite !lookup_insert_eq.
    + destruct (IH (rank_add st e) Hnd Hin) as [-> ->].
      assert (e.2.1 ≠ m) as Hne.
      { intros Heq. apply Hfresh. rewrite Heq.
        apply (list_elem_of_fmap_2 (λ e : nat * (string * Q), e.2.1) _ _ Hin). }
      unfold rank_add. simpl. by rewrite !lookup_total_insert_ne.
Qed.
End rank_record_facts.

Lemma ranked_names models (r : record) :
  (λ e : nat * (string * Q), e.2.1) <$> ranked models r
  = (list_sort snd (present_vals models r)).*1.
Proof.
  unfold ranked.
  rewrite <- (enumerate_snd (list_sort snd (present_vals models r))) at 2.
  by rewrite <- list_fmap_compose.
Qed.

Lemma record_ranks_fst models (r : record) :
  (record_ranks models r).*1 = (list_sort snd (present_vals models r)).*1.
Proof.
  unfold record_ranks. rewrite <- list_fmap_compose. apply ranked_names.
Qed.

Lemma record_ranks_lookup models (r : record) i m k :
  record_ranks models r !! i = Some (m, k) ↔
  k = (i + 1)%nat ∧
  ∃ v, list_sort snd (present_vals models r) !! i = Some (m, v).
Proof.
  unfold record_ranks, ranked. rewrite list_lookup_fmap. split.
  - destruct (enumerate _ !! i) as [[j [m' v]]|] eqn:He; [|done].
    apply enumerate_lookup in He as [-> Hs]. simpl.
    intros Heq. inversion Heq; subst. split; [done|]. by exists v.
  - intros [-> [v Hv]].
    assert (enumerate (list_sort snd (present_vals models r)) !! i
            = Some (i, (m, v))) as -> by (by apply enumerate_lookup).
    done.
Qed.

(** C1. For a duplicate-free model list and any record, the ranks the
    aggregator assigns are [1..k] over exactly the [k] models of the list with
    a present value in the record, each once.  The ranks ascend with the
    value ([rank 1] is the lowest value); models with equal values are ranked
    in their order of the model list.  The accumulators [rank_accum] and
    [rank_count] of a ranked model grow by its rank and by one; those of a
    model with no value in the record are left as they were. *)
Theorem record_ranks_spec models (r : record) :
  NoDup models →
  let ranks := record_ranks models r in
  let k := length (filter (λ m, is_Some (get_value r m)) models) in
  ranks.*2 = seq 1 k ∧
  NoDup ranks.*1 ∧
  (∀ m, m ∈ ranks.*1 ↔ m ∈ models ∧ is_Some (get_value r m)) ∧
  (∀ i j mi mj ki kj,
     (i < j)%nat →
     ranks !! i = Some (mi, ki) → ranks !! j = Some (mj, kj) →
     ∃ vi vj,
       get_value r mi = Some vi ∧ get_value r mj = Some vj ∧ (ki < kj)%nat ∧
       ((vi < vj)%Q ∨ ((vi == vj)%Q ∧ before models mi mj))) ∧
  (∀ st m km,
     (m, km) ∈ ranks →
     (rank_record models st r).1 !!! m = (st.1 !!! m + km)%nat ∧
     (rank_record models st r).2 !!! m = (st.2 !!! m + 1)%nat) ∧
  (∀ st m,
     get_value r m = None →
     (rank_record models st r).1 !! m = st.1 !! m ∧
     (rank_record models st r).2 !! m = st.2 !! m).
Proof.
  intros Hnd ranks k.
  pose proof (list_sort_Permutation snd (present_vals models r)) as Hperm.
  assert (ranks.*1 ≡ₚ (present_vals models r).*1) as Hnames.
  { unfold ranks. rewrite record_ranks_fst. by apply fmap_Permutation. }
  assert (∀ m v, (m, v) ∈ list_sort snd (present_vals models r) →
                 m ∈ models ∧ get_value r m = Some v) as Hsorted_in.
  { intros m v Hin. rewrite Hperm in Hin. by apply elem_of_present_vals. }
  split; [|split; [|split; [|split; [|split]]]].
  - unfold ranks, record_ranks, ranked. rewrite <- list_fmap_compose.
    rewrite (list_fmap_ext _ (S ∘ fst) (enumerate _)).
    + rewrite list_fmap_compose, enumerate_fst, length_list_sort, fmap_S_seq.
      by rewrite <- (length_fmap fst (present_vals models r)), present_vals_fst.
    + intros n [j e] _. simpl. lia.
  - rewrite Hnames. by apply present_vals_NoDup.
  - intros m. rewrite Hnames, present_vals_fst, list_elem_of_filter. tauto.
  - intros i j mi mj ki kj Hij Hi Hj.
    apply record_ranks_lookup in Hi as [-> [vi Hi]].
    apply record_ranks_lookup in Hj as [-> [vj Hj]].
    exists vi, vj.
    destruct (Hsorted_in mi vi) as [_ Hvi]; [by eapply list_elem_of_lookup_2|].
    destruct (Hsorted_in mj vj) as [_ Hvj]; [by eapply list_elem_of_lookup_2|].
    split; [done|]. split; [done|]. split; [lia|].
    pose proof (StronglySorted_lookup _ _ _ _ _ _
                  (list_sort_stable snd (present_vals models r)) Hij Hi Hj)
      as [Hlt|[Heq Hb]]; simpl in *; [by left|right].
    split; [done|]. by eapply present_vals_before.
  - intros st m km Hin. unfold ranks in Hin.
    apply list_elem_of_lookup in Hin as [i Hi].
    apply record_ranks_lookup in Hi as [-> [v Hv]].
    unfold rank_record. apply (foldl_rank_add_once st _ i m v).
    + rewrite ranked_names, <- record_ranks_fst. fold ranks.
      rewrite Hnames. by apply present_vals_NoDup.
    + unfold ranked. by apply enumerate_elem_of.
  - intros st m Hnone. unfold rank_record. apply foldl_rank_add_other.
    rewrite ranked_names. intros Hin.
    apply list_elem_of_fmap in Hin as ([m' v] & -> & Hin). simpl in Hnone.
    apply Hsorted_in in Hin as [_ Hv]. congruence.
Qed.

Lemma record_ranks_spec_witness :
  NoDup MODELS ∧
  record_ranks MODELS example_record
  = [("AutoETS", 1%nat); ("AutoARIMA", 2%nat); ("Chronos", 3%nat)] ∧
  (record_ranks MODELS example_record).*2
  = seq 1 (length (filter (λ m, is_Some (get_value example_record m)) MODELS)).
Proof.
  assert (NoDup MODELS) as Hnd by (apply (bool_decide_unpack _); vm_compute; exact I).
  split; [exact Hnd|]. split; [vm_compute; reflexivity|].
  exact (proj1 (record_ranks_spec MODELS example_record Hnd)).
Defined.

(** ** Average metric *)

Lemma foldl_insert_lookup {V} (g : string → V) (models : list string)
    (d0 : gmap string V) m :
  foldl (λ d m', <[m' := g m']> d) d0 models !! m
  = if decide (m ∈ models) then Some (g m) else d0 !! m.
Proof.
  revert d0. induction models as [|m' models IH]; intros d0; cbn [foldl].
  - rewrite decide_False; [done|]. apply not_elem_of_nil.
  - rewrite IH. destruct (decide (m ∈ models)) as [Hin|Hout].
    + rewrite decide_True; [done|]. by right.
    + destruct (decide (m' = m)) as [->|Hne].
      * rewrite lookup_insert_eq, decide_True; [done|]. by left.
      * rewrite lookup_insert_ne by done. rewrite decide_False; [done|].
        intros [->|?]%elem_of_cons; done.
Qed.

Lemma init_dict_lookup {V} (v : V) models m :
  init_dict v models !! m = if decide (m ∈ models) then Some v else None.
Proof. unfold init_dict. by rewrite (foldl_insert_lookup (λ _, v)). Qed.

Lemma avg_metric_of_lookup models (model_vals : gmap string (list Q)) m :
  m ∈ models →
  avg_metric_of models model_vals !! m = Some (mean_or_none (model_vals !!! m)).
Proof.
  intros Hin. unfold avg_metric_of.
  rewrite (foldl_insert_lookup (λ m', mean_or_none (model_vals !!! m'))).
  by rewrite decide_True.
Qed.

Section collect_facts.
Implicit Types (mv : gmap string (list Q)) (r : record).

Lemma collect_record_lookup models mv r m :
  NoDup models →
  collect_record models mv r !! m
  = if decide (m ∈ models)
    then (λ l, l ++ option_list (get_value r m)) <$> mv !! m
    else mv !! m.
Proof.
  unfold collect_record. intros Hnd. revert mv.
  induction Hnd as [|m' models Hfresh Hnd IH]; intros mv; cbn [foldl].
  - rewrite decide_False; [done|]. apply not_elem_of_nil.
  - rewrite IH. destruct (decide (m = m')) as [->|Hne].
    + rewrite (decide_False (P := m' ∈ models)) by done.
      rewrite decide_True by (by left).
      destruct (get_value r m') as [v|]; simpl.
      * by rewrite lookup_alter_eq.
      * destruct (mv !! m'); simpl; [|done]. by rewrite app_nil_r.
    + assert ((match get_value r m' with
               | Some v => alter (λ l, l ++ [v]) m' mv
               | None => mv
               end) !! m = mv !! m) as ->.
      { destruct (get_value r m'); [|done]. by rewrite lookup_alter_ne. }
      destruct (decide (m ∈ models)) as [Hin|Hout].
      * rewrite decide_True; [done|]. by right.
      * rewrite decide_False; [done|]. intros [?|?]%elem_of_cons; done.
Qed.

Lemma foldl_collect_lookup models mv (records : list record) m :
  NoDup models → m ∈ models →
  foldl (collect_record models) mv records !! m
  = (λ l, l ++ omap (λ r, get_value r m) records) <$> mv !! m.
Proof.
  intros Hnd Hin. revert mv.
  induction records as [|r records IH]; intros mv; simpl.
  - destruct (mv !! m); simpl; [|done]. by rewrite app_nil_r.
  - rewrite IH, collect_record_lookup, decide_True by done.
    destruct (mv !! m) as [l|]; simpl; [|done].
    destruct (get_value r m); simpl; by rewrite <- app_assoc.
Qed.

(** [model_vals[m]] is the list of the present values of [m], in record
    order. *)
Lemma collect_vals_lookup models (records : list record) m :
  NoDup models → m ∈ models →
  collect_vals models records !!! m = omap (λ r, get_value r m) records.
Proof.
  intros Hnd Hin. unfold collect_vals.
  rewrite lookup_total_alt, foldl_collect_lookup, init_dict_lookup by done.
  by rewrite decide_True.
Qed.
End collect_facts.

(** ** Double precision: facts *)

Lemma pow2_pos k : (0 < pow2 k)%Q.
Proof. apply Qpower_0_lt. reflexivity. Qed.

Lemma pow2_add a b : (pow2 (a + b) == pow2 a * pow2 b)%Q.
Proof. apply Qpower_plus. discriminate. Qed.

Lemma pow2_le a b : (a ≤ b)%Z → (pow2 a <= pow2 b)%Q.
Proof. intros H. apply Qpower_le_compat_l; [done|]. discriminate. Qed.

Lemma pow2_lt a b : (a < b)%Z → (pow2 a < pow2 b)%Q.
Proof. intros H. apply Qpower_lt_compat_l; [done|]. reflexivity. Qed.

Lemma pow2_Z k : (0 ≤ k)%Z → (pow2 k == inject_Z (2 ^ k))%Q.
Proof. intros H. unfold pow2. symmetry. by apply (Zpower_Qpower 2 k). Qed.

Lemma pow2_sub a b : (pow2 (a - b) == pow2 a / pow2 b)%Q.
Proof.
  pose proof (pow2_pos b) as Hb.
  assert (pow2 a == pow2 (a - b) * pow2 b)%Q as ->.
  { rewrite <- pow2_add. by replace (a - b + b)%Z with a by lia. }
  field. intros H0. rewrite H0 in Hb. by apply Qlt_irrefl in Hb.
Qed.

Lemma Qlog2_bounds (x : Q) :
  ¬ (x == 0)%Q →
  let k := (Z.log2 (Z.abs (Qnum x)) - Z.log2 (Zpos (Qden x)))%Z in
  (pow2 (k - 1) <= Qabs x)%Q ∧ (Qabs x < pow2 (k + 1))%Q.
Proof.
  intros Hx k. destruct x as [n d]. cbn [Qnum Qden] in k.
  assert (n ≠ 0)%Z as Hn.
  { intros ->. apply Hx. reflexivity. }
  assert (0 < Z.abs n)%Z as Hpos by lia.
  destruct (Z.log2_spec (Z.abs n) Hpos) as [Hn1 Hn2].
  destruct (Z.log2_spec (Zpos d) (Pos2Z.is_pos d)) as [Hd1 Hd2].
  pose proof (Z.log2_nonneg (Z.abs n)) as Hln.
  pose proof (Z.log2_nonneg (Zpos d)) as Hld.
  set (ln := Z.log2 (Z.abs n)) in *. set (ld := Z.log2 (Zpos d)) in *.
  assert (Qabs (n # d) == inject_Z (Z.abs n) / inject_Z (Zpos d))%Q as ->.
  { simpl. apply Qmake_Qdiv. }
  assert (0 < inject_Z (Zpos d))%Q as Hdq by (rewrite <- (Zlt_Qlt 0); lia).
  split.
  - apply Qle_shift_div_l; [done|].
    apply Qle_trans with (pow2 (k - 1) * pow2 (ld + 1))%Q.
    + apply Qmult_le_l; [apply pow2_pos|].
      rewrite pow2_Z by lia. rewrite <- Zle_Qle.
      replace (ld + 1)%Z with (Z.succ ld) by lia. by apply Z.lt_le_incl.
    + rewrite <- pow2_add. replace (k - 1 + (ld + 1))%Z with ln by lia.
      rewrite pow2_Z by lia. by rewrite <- Zle_Qle.
  - apply Qlt_shift_div_r; [done|].
    apply Qlt_le_trans with (pow2 (k + 1) * pow2 ld)%Q.
    + rewrite <- pow2_add. replace (k + 1 + ld)%Z with (ln + 1)%Z by lia.
      rewrite pow2_Z by lia. rewrite <- Zlt_Qlt.
      by replace (ln + 1)%Z with (Z.succ ln) by lia.
    + apply Qmult_le_l; [apply pow2_pos|].
      rewrite pow2_Z by lia. by rewrite <- Zle_Qle.
Qed.

(** [Qlog2 x] is the integer [k] with [2^k <= |x| < 2^(k+1)]. *)
Lemma Qlog2_spec (x : Q) :
  ¬ (x == 0)%Q → (pow2 (Qlog2 x) <= Qabs x)%Q ∧ (Qabs x < pow2 (Qlog2 x + 1))%Q.
Proof.
  intros Hx. destruct (Qlog2_bounds x Hx) as [Hlo Hhi]. unfold Qlog2.
  set (k := (Z.log2 (Z.abs (Qnum x)) - Z.log2 (Zpos (Qden x)))%Z) in *.
  destruct (Qle_bool (pow2 k) (Qabs x)) eqn:Hk.
  - apply Qle_bool_iff in Hk. done.
  - split; [done|]. replace (k - 1 + 1)%Z with k by lia.
    apply Qnot_le_lt. intros Hle. apply Qle_bool_iff in Hle. congruence.
Qed.

Lemma Qlog2_unique (x : Q) k :
  (pow2 k <= Qabs x)%Q → (Qabs x < pow2 (k + 1))%Q → Qlog2 x = k.
Proof.
  intros Hlo Hhi.
  assert (¬ (x == 0)%Q) as Hx.
  { intros H0. rewrite H0 in Hlo. pose proof (pow2_pos k) as Hp.
    change (Qabs 0) with 0%Q in Hlo. apply (Qlt_irrefl 0).
    by eapply Qlt_le_trans. }
  destruct (Qlog2_spec x Hx) as [Hlo' Hhi'].
  destruct (Z.lt_trichotomy (Qlog2 x) k) as [Hlt|[Heq|Hgt]]; [|done|]; exfalso.
  - apply (Qlt_irrefl (Qabs x)). eapply Qlt_le_trans; [exact Hhi'|].
    eapply Qle_trans; [|exact Hlo]. apply pow2_le. lia.
  - apply (Qlt_irrefl (Qabs x)). eapply Qlt_le_trans; [exact Hhi|].
    eapply Qle_trans; [|exact Hlo']. apply pow2_le. lia.
Qed.

Lemma Qlog2_proper (x y : Q) : (x == y)%Q → ¬ (x == 0)%Q → Qlog2 x = Qlog2 y.
Proof.
  intros Hxy Hx. destruct (Qlog2_spec x Hx) as [Hlo Hhi].
  symmetry. apply Qlog2_unique; by rewrite <- Hxy.
Qed.

Lemma Qabs_pos_nonzero (x : Q) : ¬ (x == 0)%Q → (0 < Qabs x)%Q.
Proof.
  intros Hx. apply Qnot_le_lt. intros Hle.
  apply Qabs_Qle_condition in Hle as [H1 H2]. apply Hx. lra.
Qed.

Lemma Qabs_nonzero (x : Q) : (0 < Qabs x)%Q → ¬ (x == 0)%Q.
Proof.
  intros Hpos H0. rewrite H0 in Hpos. by apply Qlt_irrefl in Hpos.
Qed.

Lemma Qlog2_mono (x y : Q) :
  ¬ (x == 0)%Q → (Qabs x <= Qabs y)%Q → (Qlog2 x ≤ Qlog2 y)%Z.
Proof.
  intros Hx Hxy.
  assert (¬ (y == 0)%Q) as Hy.
  { apply Qabs_nonzero. eapply Qlt_le_trans; [|exact Hxy].
    by apply Qabs_pos_nonzero. }
  destruct (Qlog2_spec x Hx) as [Hlo _]. destruct (Qlog2_spec y Hy) as [_ Hhi].
  assert (pow2 (Qlog2 x) < pow2 (Qlog2 y + 1))%Q as Hlt.
  { eapply Qle_lt_trans; [exact Hlo|]. by eapply Qle_lt_trans. }
  apply Qpower_lt_compat_l_inv in Hlt; [lia|reflexivity].
Qed.

(** ** Rounding to the nearest integer *)

Lemma round_half_even_near (y : Q) :
  (- (1 # 2) <= y - inject_Z (round_half_even y) <= 1 # 2)%Q.
Proof.
  unfold round_half_even.
  pose proof (Qfloor_le y) as Hlo. pose proof (Qlt_floor y) as Hhi.
  rewrite inject_Z_plus in Hhi. change (inject_Z 1) with 1%Q in Hhi.
  destruct (Qcompare_spec (y - inject_Z (Qfloor y)) (1 # 2)) as [He|Hl|Hg].
  - destruct (Z.even (Qfloor y)).
    + lra.
    + rewrite inject_Z_plus. change (inject_Z 1) with 1%Q. lra.
  - lra.
  - rewrite inject_Z_plus. change (inject_Z 1) with 1%Q. lra.
Qed.

Lemma round_half_even_proper (x y : Q) :
  (x == y)%Q → round_half_even x = round_half_even y.
Proof.
  intros Hxy. unfold round_half_even. rewrite (Qfloor_comp _ _ Hxy).
  assert (Qcompare (x - inject_Z (Qfloor y)) (1 # 2)
          = Qcompare (y - inject_Z (Qfloor y)) (1 # 2)) as ->; [|done].
  apply Qcompare_comp; [|reflexivity]. by rewrite Hxy.
Qed.

Lemma round_half_even_Z (n : Z) : round_half_even (inject_Z n) = n.
Proof.
  unfold round_half_even. rewrite Qfloor_Z.
  assert (Qcompare (inject_Z n - inject_Z n) (1 # 2) = Lt) as ->; [|done].
  apply Qlt_alt.
  assert (inject_Z n - inject_Z n == 0)%Q as -> by ring. reflexivity.
Qed.

Lemma round_half_even_mono (x y : Q) :
  (x <= y)%Q → (round_half_even x ≤ round_half_even y)%Z.
Proof.
  intros Hxy. apply Qle_lt_or_eq in Hxy as [Hlt|Heq].
  - pose proof (round_half_even_near x) as Hx.
    pose proof (round_half_even_near y) as Hy.
    assert (inject_Z (round_half_even x) < inject_Z (round_half_even y + 1))%Q
      as H.
    { rewrite inject_Z_plus. change (inject_Z 1) with 1%Q. lra. }
    rewrite <- Zlt_Qlt in H. lia.
  - by rewrite (round_half_even_proper _ _ Heq).
Qed.

Lemma round_half_even_ge (a : Z) (x : Q) :
  (inject_Z a <= x)%Q → (a ≤ round_half_even x)%Z.
Proof.
  intros H. rewrite <- (round_half_even_Z a). by apply round_half_even_mono.
Qed.

Lemma round_half_even_le (b : Z) (x : Q) :
  (x <= inject_Z b)%Q → (round_half_even x ≤ b)%Z.
Proof.
  intros H. rewrite <- (round_half_even_Z b). by apply round_half_even_mono.
Qed.

(** ** Rounding to the nearest double *)

Lemma round_double_zero (x : Q) : (x == 0)%Q → round_double x = 0%Q.
Proof.
  intros Hx. unfold round_double.
  by rewrite (proj2 (Qeq_bool_iff x 0) Hx).
Qed.

Lemma round_double_nonzero (x : Q) :
  ¬ (x == 0)%Q →
  round_double x
  = (inject_Z (round_half_even (x / pow2 (ulp_exp x))) * pow2 (ulp_exp x))%Q.
Proof.
  intros Hx. unfold round_double.
  destruct (Qeq_bool x 0) eqn:Hb; [|done].
  by apply Qeq_bool_iff in Hb.
Qed.

Lemma ulp_exp_proper (x y : Q) :
  (x == y)%Q → ¬ (x == 0)%Q → ulp_exp x = ulp_exp y.
Proof. intros Hxy Hx. unfold ulp_exp. by rewrite (Qlog2_proper x y). Qed.

Lemma round_double_proper (x y : Q) :
  (x == y)%Q → (round_double x == round_double y)%Q.
Proof.
  intros Hxy. destruct (Qeq_dec x 0) as [Hx|Hx].
  - rewrite (round_double_zero x Hx), (round_double_zero y); [reflexivity|].
    by rewrite <- Hxy.
  - assert (¬ (y == 0)%Q) as Hy by (by rewrite <- Hxy).
    rewrite (round_double_nonzero x Hx), (round_double_nonzero y Hy).
    rewrite <- (ulp_exp_proper x y Hxy Hx). set (u := ulp_exp x).
    rewrite (round_half_even_proper (x / pow2 u) (y / pow2 u));
      [reflexivity|].
    by rewrite Hxy.
Qed.

Lemma pow2_nonzero k : ¬ (pow2 k == 0)%Q.
Proof.
  intros H0. pose proof (pow2_pos k) as Hp. rewrite H0 in Hp.
  by apply Qlt_irrefl in Hp.
Qed.

(** A point [a * 2^e] of the grid of [x] that bounds [x] bounds its
    rounding. *)
Lemma round_double_grid_le (x : Q) (a : Z) :
  ¬ (x == 0)%Q →
  (x <= inject_Z a * pow2 (ulp_exp x))%Q →
  (round_double x <= inject_Z a * pow2 (ulp_exp x))%Q.
Proof.
  intros Hx Hle. rewrite (round_double_nonzero x Hx).
  pose proof (pow2_pos (ulp_exp x)) as Hp.
  apply Qmult_le_compat_r; [|by apply Qlt_le_weak].
  rewrite <- Zle_Qle. apply round_half_even_le.
  by apply Qle_shift_div_r.
Qed.

Lemma round_double_grid_ge (x : Q) (a : Z) :
  ¬ (x == 0)%Q →
  (inject_Z a * pow2 (ulp_exp x) <= x)%Q →
  (inject_Z a * pow2 (ulp_exp x) <= round_double x)%Q.
Proof.
  intros Hx Hle. rewrite (round_double_nonzero x Hx).
  pose proof (pow2_pos (ulp_exp x)) as Hp.
  apply Qmult_le_compat_r; [|by apply Qlt_le_weak].
  rewrite <- Zle_Qle. apply round_half_even_ge.
  by apply Qle_shift_div_l.
Qed.

Lemma ulp_exp_mono (x y : Q) :
  ¬ (x == 0)%Q → (Qabs x <= Qabs y)%Q → (ulp_exp x ≤ ulp_exp y)%Z.
Proof.
  intros Hx Hxy. unfold ulp_exp.
  pose proof (Qlog2_mono x y Hx Hxy). lia.
Qed.

(** Rounding is monotone (on positive numbers). *)
Lemma round_double_mono (x y : Q) :
  (0 < x)%Q → (x <= y)%Q → (round_double x <= round_double y)%Q.
Proof.
  intros Hx0 Hxy.
  assert (0 < y)%Q as Hy0 by (by eapply Qlt_le_trans).
  assert (¬ (x == 0)%Q) as Hx by (intros H0; rewrite H0 in Hx0; by apply Qlt_irrefl in Hx0).
  assert (¬ (y == 0)%Q) as Hy by (intros H0; rewrite H0 in Hy0; by apply Qlt_irrefl in Hy0).
  assert (Qabs x == x)%Q as Hax by (apply Qabs_pos; by apply Qlt_le_weak).
  assert (Qabs y == y)%Q as Hay by (apply Qabs_pos; by apply Qlt_le_weak).
  assert (Qabs x <= Qabs y)%Q as Habs by (by rewrite Hax, Hay).
  pose proof (ulp_exp_mono x y Hx Habs) as He.
  destruct (decide (ulp_exp x = ulp_exp y)) as [Heq|Hne].
  - rewrite (round_double_nonzero x Hx), (round_double_nonzero y Hy), <- Heq.
    pose proof (pow2_pos (ulp_exp x)) as Hp.
    apply Qmult_le_compat_r; [|by apply Qlt_le_weak].
    rewrite <- Zle_Qle. apply round_half_even_mono.
    apply Qmult_le_compat_r; [done|]. apply Qinv_le_0_compat.
    by apply Qlt_le_weak.
  - assert (ulp_exp x < ulp_exp y)%Z as Hlt by lia.
    destruct (Qlog2_spec x Hx) as [_ Hxhi].
    destruct (Qlog2_spec y Hy) as [Hylo _].
    rewrite Hax in Hxhi. rewrite Hay in Hylo.
    unfold ulp_exp in Hlt.
    set (Lx := Qlog2 x) in *. set (Ly := Qlog2 y) in *.
    assert (Ly - 52 = ulp_exp y)%Z as Hey by (unfold ulp_exp; fold Ly; lia).
    apply Qle_trans with (pow2 Ly).
    + assert (pow2 Ly == inject_Z (2 ^ (Ly - ulp_exp x)) * pow2 (ulp_exp x))%Q
        as HB.
      { rewrite <- pow2_Z by (unfold ulp_exp; fold Lx; lia).
        rewrite <- pow2_add. by replace (Ly - ulp_exp x + ulp_exp x)%Z with Ly by lia. }
      rewrite HB. apply round_double_grid_le; [done|]. rewrite <- HB.
      apply Qlt_le_weak. eapply Qlt_le_trans; [exact Hxhi|].
      apply pow2_le. lia.
    + assert (pow2 Ly == inject_Z (2 ^ 52) * pow2 (ulp_exp y))%Q as HB.
      { rewrite <- (pow2_Z 52) by lia. rewrite <- pow2_add, <- Hey.
        by replace (52 + (Ly - 52))%Z with Ly by lia. }
      rewrite HB. apply round_double_grid_ge; [done|]. by rewrite <- HB.
Qed.

Lemma Qlog2_scaled (m e : Z) :
  m ≠ 0%Z → Qlog2 (inject_Z m * pow2 e) = (Z.log2 (Z.abs m) + e)%Z.
Proof.
  intros Hm. assert (0 < Z.abs m)%Z as Hpos by lia.
  destruct (Z.log2_spec (Z.abs m) Hpos) as [H1 H2].
  pose proof (Z.log2_nonneg (Z.abs m)) as Hl.
  pose proof (pow2_pos e) as Hp.
  assert (Qabs (inject_Z m * pow2 e) == inject_Z (Z.abs m) * pow2 e)%Q as Ha.
  { rewrite Qabs_Qmult. rewrite (Qabs_pos (pow2 e)) by (by apply Qlt_le_weak).
    reflexivity. }
  apply Qlog2_unique; rewrite Ha.
  - rewrite pow2_add. apply Qmult_le_compat_r; [|by apply Qlt_le_weak].
    rewrite pow2_Z by done. by rewrite <- Zle_Qle.
  - replace (Z.log2 (Z.abs m) + e + 1)%Z with (Z.succ (Z.log2 (Z.abs m)) + e)%Z
      by lia.
    rewrite pow2_add. apply Qmult_lt_compat_r; [done|].
    rewrite pow2_Z by lia. by rewrite <- Zlt_Qlt.
Qed.

(** Rounding leaves a representable number unchanged. *)
Lemma round_double_representable (y : Q) :
  representable y → (round_double y == y)%Q.
Proof.
  intros (m & e & Hy & Hm & He).
  assert (∃ m' e', (y == inject_Z m' * pow2 e')%Q ∧ (Z.abs m' < 2 ^ 53)%Z ∧
                   (-1074 ≤ e')%Z) as (m' & e' & Hy' & Hm' & He').
  { destruct (decide (Z.abs m = 2 ^ 53)%Z) as [Hmax|Hlt].
    - exists (m / 2)%Z, (e + 1)%Z. split; [|split].
      + rewrite Hy, pow2_add.
        assert (m = 2 * (m / 2))%Z as Hdiv.
        { apply Z.div_exact; [lia|].
          change (2 ^ 53)%Z with 9007199254740992%Z in Hmax.
          destruct (Z.abs_eq_or_opp m) as [Ha|Ha]; rewrite Ha in Hmax.
          - by subst m.
          - assert (m = -9007199254740992)%Z as -> by lia. reflexivity. }
        rewrite Hdiv at 1. rewrite inject_Z_mult.
        change (pow2 1) with 2%Q. change (inject_Z 2) with 2%Q. ring.
      + change (2 ^ 53)%Z with 9007199254740992%Z in *.
        destruct (Z.abs_eq_or_opp m) as [Ha|Ha]; rewrite Ha in Hmax.
        * subst m. by vm_compute.
        * assert (m = -9007199254740992)%Z as -> by lia. by vm_compute.
      + lia.
    - exists m, e. split; [done|]. split; [lia|done]. }
  clear m e Hy Hm He.
  destruct (decide (m' = 0%Z)) as [->|Hm0].
  - rewrite round_double_zero; [|rewrite Hy'; ring].
    rewrite Hy'. ring.
  - assert (¬ (y == 0)%Q) as Hy0.
    { rewrite Hy'. intros H0. apply Qmult_integral in H0 as [H0|H0].
      - apply Hm0. unfold Qeq in H0. simpl in H0. lia.
      - by apply pow2_nonzero in H0. }
    rewrite (round_double_nonzero y Hy0).
    assert (ulp_exp y ≤ e')%Z as Hle.
    { unfold ulp_exp. rewrite (Qlog2_proper y _ Hy' Hy0).
      rewrite (Qlog2_scaled m' e' Hm0).
      assert (Z.log2 (Z.abs m') < 53)%Z by (apply Z.log2_lt_pow2; lia). lia. }
    set (u := ulp_exp y) in *.
    assert (y / pow2 u == inject_Z (m' * 2 ^ (e' - u)))%Q as Hint.
    { rewrite Hy', inject_Z_mult, <- pow2_Z by lia. rewrite pow2_sub.
      field. apply pow2_nonzero. }
    rewrite (round_half_even_proper _ _ Hint), round_half_even_Z.
    rewrite <- Hint. field. apply pow2_nonzero.
Qed.

Lemma round_double_is_representable (x : Q) : representable (round_double x).
Proof.
  destruct (Qeq_dec x 0) as [Hx|Hx].
  - rewrite (round_double_zero x Hx). exists 0%Z, 0%Z.
    split; [reflexivity|]. split; [by vm_compute|lia].
  - rewrite (round_double_nonzero x Hx).
    exists (round_half_even (x / pow2 (ulp_exp x))), (ulp_exp x).
    split; [reflexivity|]. split; [|unfold ulp_exp; lia].
    destruct (Qlog2_spec x Hx) as [_ Hhi].
    pose proof (pow2_pos (ulp_exp x)) as Hp.
    assert (pow2 (Qlog2 x + 1) <= inject_Z (2 ^ 53) * pow2 (ulp_exp x))%Q as Hb.
    { rewrite <- (pow2_Z 53), <- pow2_add by lia. apply pow2_le.
      unfold ulp_exp. lia. }
    assert (Qabs x <= inject_Z (2 ^ 53) * pow2 (ulp_exp x))%Q as Hx'.
    { apply Qlt_le_weak. by eapply Qlt_le_trans. }
    apply Qabs_Qle_condition in Hx' as [Hlo Hup].
    apply Z.abs_le. split.
    + apply round_half_even_ge. apply Qle_shift_div_l; [done|].
      rewrite inject_Z_opp. lra.
    + apply round_half_even_le. by apply Qle_shift_div_r.
Qed.

Lemma round_double_idempotent (x : Q) :
  (round_double (round_double x) == round_double x)%Q.
Proof. apply round_double_representable, round_double_is_representable. Qed.

(** Integers up to [2^53] are doubles. *)
Lemma round_double_Z (z : Z) :
  (Z.abs z ≤ 2 ^ 53)%Z → (round_double (inject_Z z) == inject_Z z)%Q.
Proof.
  intros Hz. apply round_double_representable. exists z, 0%Z.
  split; [|split; [done|lia]]. change (pow2 0) with 1%Q. ring.
Qed.

(** Halving commutes with rounding above the subnormal range. *)
Lemma round_double_half (x : Q) :
  (pow2 (-1021) <= Qabs x)%Q → (round_double (x / 2) == round_double x / 2)%Q.
Proof.
  intros Hx1.
  assert (¬ (x == 0)%Q) as Hx.
  { apply Qabs_nonzero. eapply Qlt_le_trans; [apply (pow2_pos (-1021))|done]. }
  assert (¬ (x / 2 == 0)%Q) as Hx2.
  { intros H0. apply Hx. assert (x == (x / 2) * 2)%Q as -> by field.
    rewrite H0. ring. }
  destruct (Qlog2_spec x Hx) as [Hlo Hhi].
  assert (-1021 ≤ Qlog2 x)%Z as HL.
  { assert (pow2 (-1021) < pow2 (Qlog2 x + 1))%Q as Hlt
      by (by eapply Qle_lt_trans).
    apply Qpower_lt_compat_l_inv in Hlt; [lia|reflexivity]. }
  assert (Qabs (x / 2) == Qabs x / 2)%Q as Hab.
  { unfold Qdiv. rewrite Qabs_Qmult. reflexivity. }
  assert (Qlog2 (x / 2) = Qlog2 x - 1)%Z as HL2.
  { apply Qlog2_unique; rewrite Hab.
    - rewrite pow2_sub. change (pow2 1) with 2%Q.
      apply Qmult_le_compat_r; [done|]. discriminate.
    - replace (Qlog2 x - 1 + 1)%Z with (Qlog2 x + 1 - 1)%Z by lia.
      rewrite pow2_sub. change (pow2 1) with 2%Q.
      apply Qmult_lt_compat_r; [reflexivity|done]. }
  assert (ulp_exp (x / 2) = ulp_exp x - 1)%Z as Hu.
  { unfold ulp_exp. rewrite HL2. lia. }
  rewrite (round_double_nonzero x Hx), (round_double_nonzero _ Hx2), Hu.
  assert (x / 2 / pow2 (ulp_exp x - 1) == x / pow2 (ulp_exp x))%Q as Hs.
  { rewrite pow2_sub. change (pow2 1) with 2%Q. field. apply pow2_nonzero. }
  rewrite (round_half_even_proper _ _ Hs).
  rewrite pow2_sub. change (pow2 1) with 2%Q. field.
Qed.

#[local] Instance round_double_Proper : Proper (Qeq ==> Qeq) round_double.
Proof. intros x y Hxy. by apply round_double_proper. Qed.

(** The rounding agrees with the reference implementation of binary64 in the
    standard library: on quotients, on a tie, on an overflow and on
    subnormal results. *)
Example round_double_reference :
  SF_agrees (SFdiv 53 1024 (binary64 5 0) (binary64 3 0)) (to_float (5 # 3))
  = true ∧
  SF_agrees (SFdiv 53 1024 (binary64 87 0) (binary64 80 0))
            (to_float (87 # 80)) = true ∧
  SF_agrees (SFdiv 53 1024 (binary64 1 0) (binary64 10 0)) (to_float (1 # 10))
  = true ∧
  SF_agrees (SFadd 53 1024 (binary64 1 0)
               (SFdiv 53 1024 (binary64 5 0) (binary64 3 0)))
            (to_float (1 + round_double (5 # 3))) = true ∧
  SF_agrees (SFadd 53 1024 (binary64 (2 ^ 53) 0) (binary64 1 0))
            (to_float (inject_Z (2 ^ 53 + 1))) = true ∧
  SF_agrees (SFadd 53 1024 (binary64 (2 ^ 53) 0) (binary64 3 0))
            (to_float (inject_Z (2 ^ 53 + 3))) = true ∧
  SF_agrees (SFadd 53 1024 (binary64 1 1023) (binary64 1 1023))
            (to_float (pow2 1023 + pow2 1023)) = true ∧
  SF_agrees (SFdiv 53 1024 (binary64 1 (-1074)) (binary64 3 0))
            (to_float (pow2 (-1074) / 3)) = true ∧
  SF_agrees (SFdiv 53 1024 (binary64 3 (-1074)) (binary64 2 0))
            (to_float (3 * pow2 (-1074) / 2)) = true.
Proof. repeat split; vm_compute; reflexivity. Qed.

(** ** Averages *)








(** ** Rank means and the combined score *)

Section rank_bounds.
Context (models : list string).

Lemma rank_add_inv st e :
  (e.1 < length models)%nat → rank_inv models st → rank_inv models (rank_add st e).
Proof.
  intros He Hinv m. specialize (Hinv m). unfold rank_add. simpl.
  destruct (decide (e.2.1 = m)) as [<-|Hne].
  - rewrite !lookup_total_insert_eq. nia.
  - by rewrite !lookup_total_insert_ne.
Qed.

Lemma foldl_rank_add_inv st es :
  Forall (λ e : nat * (string * Q), (e.1 < length models)%nat) es →
  rank_inv models st → rank_inv models (foldl rank_add st es).
Proof.
  intros Hes. revert st. induction Hes as [|e es He _ IH]; intros st Hinv.
  - done.
  - simpl. by apply IH, rank_add_inv.
Qed.

Lemma ranked_index_bound (r : record) :
  Forall (λ e : nat * (string * Q), (e.1 < length models)%nat)
         (ranked models r).
Proof.
  apply Forall_forall. intros [i x] Hin. simpl.
  apply enumerate_elem_of, lookup_lt_Some in Hin.
  rewrite length_list_sort in Hin.
  pose proof (length_present_vals r models). lia.
Qed.

Lemma rank_totals_inv (records : list record) :
  rank_inv models (rank_totals models records).
Proof.
  unfold rank_totals.
  assert (rank_inv models (init_dict 0%nat models, init_dict 0%nat models)) as Hinit.
  { intros m. simpl. rewrite lookup_total_alt, init_dict_lookup.
    destruct (decide (m ∈ models)); simpl; lia. }
  revert Hinit. generalize (init_dict 0%nat models, init_dict 0%nat models).
  induction records as [|r records IH]; intros st Hinv; simpl; [done|].
  apply IH. unfold rank_record.
  by apply foldl_rank_add_inv; [apply ranked_index_bound|].
Qed.

(** The exact quotient of a rank sum by a rank count lies between [1] and
    the number of models; so does its nearest double, up to the rounding of
    that number. *)
Lemma rank_mean_bound accum count q :
  (count ≤ accum ≤ count * length models)%nat →
  rank_mean accum count = Some q →
  representable q ∧
  (1 <= q)%Q ∧
  (q <= round_double (inject_Z (Z.of_nat (length models))))%Q.
Proof.
  unfold rank_mean, int_truediv. intros Hb Hq.
  destruct (0 <? count)%nat eqn:Hc; [|done].
  apply Nat.ltb_lt in Hc. inversion Hq; subst q. clear Hq.
  assert (0 < inject_Z (Z.of_nat count))%Q as Hpos.
  { rewrite <- (Zlt_Qlt 0). lia. }
  assert (1 <= inject_Z (Z.of_nat accum) / inject_Z (Z.of_nat count))%Q as Hlo.
  { apply Qle_shift_div_l; [done|]. rewrite Qmult_1_l.
    rewrite <- Zle_Qle. lia. }
  assert (inject_Z (Z.of_nat accum) / inject_Z (Z.of_nat count)
          <= inject_Z (Z.of_nat (length models)))%Q as Hhi.
  { apply Qle_shift_div_r; [done|]. rewrite <- inject_Z_mult.
    rewrite <- Zle_Qle. nia. }
  split; [apply round_double_is_representable|]. split.
  - rewrite <- (round_double_Z 1) by (by vm_compute).
    by apply round_double_mono.
  - apply round_double_mono; [|done]. eapply Qlt_le_trans; [|exact Hlo]. reflexivity.
Qed.

Lemma avg_rank_of_lookup st m :
  avg_rank_of models st !!! m
  = if decide (m ∈ models) then rank_mean (st.1 !!! m) (st.2 !!! m) else None.
Proof.
  unfold avg_rank_of. rewrite lookup_total_alt.
  rewrite (foldl_insert_lookup (λ m', rank_mean (st.1 !!! m') (st.2 !!! m'))).
  by destruct (decide (m ∈ models)).
Qed.

(** A rank mean, when present, is a double between [1] and the number of
    models (rounded to a double, which changes it only above [2^53]). *)
Lemma avg_rank_bound (records : list record) m q :
  (avg_metric_and_rank records models).2 !!! m = Some q →
  representable q ∧
  (1 <= q)%Q ∧
  (q <= round_double (inject_Z (Z.of_nat (length models))))%Q.
Proof.
  unfold avg_metric_and_rank. simpl. rewrite avg_rank_of_lookup.
  destruct (decide (m ∈ models)); [|done].
  apply rank_mean_bound, rank_totals_inv.
Qed.
End rank_bounds.

(** The combined score is the double nearest to the mean of the rank means
    that are present. *)
Lemma combined_rank_spec (a b : option Q) :
  (∀ q, a = Some q → representable q ∧ (1 <= q)%Q) →
  (∀ q, b = Some q → representable q ∧ (1 <= q)%Q) →
  (combined_rank a b == round_double (combined_spec a b))%Q.
Proof.
  intros Ha Hb.
  assert (∀ q : Q, representable q →
            (round_double (round_double (0 + q) / inject_Z 1) == q)%Q) as Hone.
  { intros q Hq.
    assert (round_double (0 + q) == q)%Q as ->.
    { rewrite <- (round_double_representable q Hq) at 2.
      apply round_double_proper. ring. }
    rewrite <- (round_double_representable q Hq) at 2.
    apply round_double_proper. change (inject_Z 1) with 1%Q. field. }
  destruct a as [a|], b as [b|]; unfold combined_rank, combined_spec;
    cbn [fst snd Nat.add Nat.ltb Nat.leb].
  - destruct (Ha a eq_refl) as [Hra Ha1]. destruct (Hb b eq_refl) as [Hrb Hb1].
    assert (round_double (0 + a) == a)%Q as ->.
    { rewrite <- (round_double_representable a Hra) at 2.
      apply round_double_proper. ring. }
    assert (2 <= a + b)%Q as H2 by lra.
    assert (2 <= round_double (a + b))%Q as Hs2.
    { rewrite <- (round_double_Z 2) by (by vm_compute).
      apply round_double_mono; [reflexivity|done]. }
    assert (pow2 (-1021) <= 2)%Q as Hsmall.
    { change 2%Q with (pow2 1). apply pow2_le. lia. }
    change (inject_Z (Z.of_nat 2)) with 2%Q.
    rewrite (round_double_half (round_double (a + b))).
    + rewrite round_double_idempotent.
      rewrite (round_double_half (a + b)); [reflexivity|].
      apply Qabs_ge. lra.
    + apply Qabs_ge. lra.
  - destruct (Ha a eq_refl) as [Hra _]. rewrite (Hone a Hra).
    by rewrite (round_double_representable a Hra).
  - destruct (Hb b eq_refl) as [Hrb _]. rewrite (Hone b Hrb).
    by rewrite (round_double_representable b Hrb).
  - symmetry. apply (round_double_Z 999). by vm_compute.
Qed.

Lemma combined_spec_bound (a b : option Q) (K : Q) :
  (∀ q, a = Some q → 1 <= q <= K)%Q →
  (∀ q, b = Some q → 1 <= q <= K)%Q →
  is_Some a ∨ is_Some b →
  (1 <= combined_spec a b <= K)%Q.
Proof.
  intros Ha Hb Hsome. destruct a as [a|], b as [b|]; simpl.
  - destruct (Ha a eq_refl), (Hb b eq_refl). split.
    + apply Qle_shift_div_l; [reflexivity|]. lra.
    + apply Qle_shift_div_r; [reflexivity|]. lra.
  - by apply Ha.
  - by apply Hb.
  - destruct Hsome as [[? ?]|[? ?]]; done.
Qed.

(** ** Rounding *)

(** A tie goes to the even digit, and it is the value of the double that is
    rounded: [round(0.0625, 3)] is [0.062], [round(0.1875, 3)] is [0.188] and
    [round(2.675, 2)] is [2.67], the double nearest to [2.675] lying below
    it. *)
Example py_round_ties :
  Qred (py_round (1 # 16) 3) = Qred (round_double (62 # 1000)) ∧
  Qred (py_round (3 # 16) 3) = Qred (round_double (188 # 1000)) ∧
  Qred (py_round (round_double (2675 # 1000)) 2)
  = Qred (round_double (267 # 100)).
Proof. repeat split; vm_compute; reflexivity. Qed.

(** ** Summary rows *)

Section summary_facts.
Context (mase_records crps_records : list record) (models : list string).

Lemma summary_rows_eq :
  summary_rows mase_records crps_records models
  = model_row mase_records crps_records models <$> models.
Proof. reflexivity. Qed.

Lemma sorted_rows_Permutation :
  sorted_rows mase_records crps_records models
  ≡ₚ model_row mase_records crps_records models <$> models.
Proof.
  unfold sorted_rows. by rewrite list_sort_Permutation, summary_rows_eq.
Qed.

Lemma elem_of_sorted_rows row :
  row ∈ sorted_rows mase_records crps_records models ↔
  ∃ m, m ∈ models ∧ row = model_row mase_records crps_records models m.
Proof.
  rewrite sorted_rows_Permutation, list_elem_of_fmap. naive_solver.
Qed.

Lemma sorted_rows_models :
  (model ∘ fields) <$> sorted_rows mase_records crps_records models ≡ₚ models.
Proof.
  rewrite sorted_rows_Permutation, <- list_fmap_compose.
  rewrite (list_fmap_ext _ id models); [by rewrite list_fmap_id|done].
Qed.

Lemma sorted_rows_sorted :
  StronglySorted (λ a b, (_combined a <= _combined b)%Q)
                 (sorted_rows mase_records crps_records models).
Proof.
  unfold sorted_rows.
  eapply StronglySorted_impl; [|apply list_sort_stable].
  apply stable_le_key.
Qed.

Lemma compute_summary_lookup i :
  compute_summary mase_records crps_records models !! i
  = (λ row, decorate (i, row))
      <$> sorted_rows mase_records crps_records models !! i.
Proof.
  unfold compute_summary. rewrite list_lookup_fmap.
  destruct (sorted_rows mase_records crps_records models !! i) as [row|] eqn:Hr.
  - by rewrite (proj2 (enumerate_lookup _ i i row) (conj eq_refl Hr)).
  - destruct (enumerate _ !! i) as [[j row]|] eqn:He; [|done].
    apply enumerate_lookup in He as [_ He]. congruence.
Qed.
End summary_facts.

Lemma decorate_model i (row : SummaryRow) :
  model (decorate (i, row))
  = match medals !! i with
    | Some glyph => (glyph ++ " " ++ model (fields row))%string
    | None => model (fields row)
    end.
Proof. by destruct i as [|[|[|i]]]. Qed.

Lemma decorate_fields i (row : SummaryRow) :
  avg_mase (decorate (i, row)) = avg_mase (fields row) ∧
  avg_crps (decorate (i, row)) = avg_crps (fields row) ∧
  rank_mase (decorate (i, row)) = rank_mase (fields row) ∧
  rank_crps (decorate (i, row)) = rank_crps (fields row).
Proof. unfold decorate. simpl. by destruct (i <? 3)%nat. Qed.


(** C3. With fewer than 999 models (the canonical list has 12), the sorted
    summary has a row per model.  Its combined score is the double nearest
    to the mean of those of its MASE and CRPS rank means that are present:
    the average of the two, rounded to nearest, when both are; the present
    one when only one is; the sentinel [999] when neither is.  A row with
    neither rank mean has score [999], a row with at least one has a score
    below [999], and the former comes after the latter; the same order holds
    between the entries of the returned summary. *)
Theorem combined_score_spec mase_records crps_records models :
  (length models < 999)%nat →
  let mase_rank := (avg_metric_and_rank mase_records models).2 in
  let crps_rank := (avg_metric_and_rank crps_records models).2 in
  let rows := sorted_rows mase_records crps_records models in
  let out := compute_summary mase_records crps_records models in
  (model ∘ fields) <$> rows ≡ₚ models ∧
  (∀ row, row ∈ rows →
     (_combined row ==
      round_double (combined_spec (mase_rank !!! model (fields row))
                                  (crps_rank !!! model (fields row))))%Q) ∧
  (∀ row q, row ∈ rows →
     (mase_rank !!! model (fields row) = Some q ∧
      crps_rank !!! model (fields row) = None) ∨
     (mase_rank !!! model (fields row) = None ∧
      crps_rank !!! model (fields row) = Some q) →
     (_combined row == q)%Q) ∧
  (∀ i j ri rj,
     rows !! i = Some ri → rows !! j = Some rj →
     mase_rank !!! model (fields ri) = None →
     crps_rank !!! model (fields ri) = None →
     is_Some (mase_rank !!! model (fields rj)) ∨
     is_Some (crps_rank !!! model (fields rj)) →
     (_combined ri == 999)%Q ∧ (_combined rj < 999)%Q ∧ (j < i)%nat) ∧
  (∀ i j ei ej,
     out !! i = Some ei → out !! j = Some ej →
     rank_mase ei = None → rank_crps ei = None →
     is_Some (rank_mase ej) ∨ is_Some (rank_crps ej) →
     (j < i)%nat).
Proof.
  intros Hlen mase_rank crps_rank rows out.
  assert (∀ m q, mase_rank !!! m = Some q → representable q ∧ (1 <= q)%Q)
    as Hmase.
  { intros m q Hq. destruct (avg_rank_bound models mase_records m q Hq)
      as (? & ? & _). done. }
  assert (∀ m q, crps_rank !!! m = Some q → representable q ∧ (1 <= q)%Q)
    as Hcrps.
  { intros m q Hq. destruct (avg_rank_bound models crps_records m q Hq)
      as (? & ? & _). done. }
  assert (∀ row, row ∈ rows →
     (_combined row ==
      round_double (combined_spec (mase_rank !!! model (fields row))
                                  (crps_rank !!! model (fields row))))%Q)
    as Hscore.
  { intros row (m & _ & ->)%elem_of_sorted_rows. simpl.
    apply combined_rank_spec; [apply Hmase|apply Hcrps]. }
  assert (round_double (inject_Z (Z.of_nat (length models)))
          == inject_Z (Z.of_nat (length models)))%Q as Hn.
  { apply round_double_Z. change (2 ^ 53)%Z with 9007199254740992%Z. lia. }
  assert (∀ i j ri rj,
     rows !! i = Some ri → rows !! j = Some rj →
     mase_rank !!! model (fields ri) = None →
     crps_rank !!! model (fields ri) = None →
     is_Some (mase_rank !!! model (fields rj)) ∨
     is_Some (crps_rank !!! model (fields rj)) →
     (_combined ri == 999)%Q ∧ (_combined rj < 999)%Q ∧ (j < i)%nat) as Horder.
  { intros i j ri rj Hi Hj Hm Hc Hsome.
    pose proof (Hscore ri (list_elem_of_lookup_2 _ _ _ Hi)) as Hsi.
    pose proof (Hscore rj (list_elem_of_lookup_2 _ _ _ Hj)) as Hsj.
    rewrite Hm, Hc in Hsi. simpl in Hsi.
    rewrite (round_double_Z 999) in Hsi by (by vm_compute).
    assert (_combined rj <= inject_Z (Z.of_nat (length models)))%Q as Hbound.
    { rewrite Hsj, <- Hn.
      destruct (combined_spec_bound (mase_rank !!! model (fields rj))
                  (crps_rank !!! model (fields rj))
                  (inject_Z (Z.of_nat (length models)))) as [Hlo Hhi];
        [| |done|].
      - intros q Hq.
        destruct (avg_rank_bound models mase_records _ q Hq) as (_ & ? & ?).
        split; [done|]. by rewrite <- Hn.
      - intros q Hq.
        destruct (avg_rank_bound models crps_records _ q Hq) as (_ & ? & ?).
        split; [done|]. by rewrite <- Hn.
      - apply round_double_mono; [|done].
        eapply Qlt_le_trans; [|exact Hlo]. reflexivity. }
    assert (inject_Z (Z.of_nat (length models)) < 999)%Q as Hk.
    { change 999%Q with (inject_Z 999). rewrite <- Zlt_Qlt. lia. }
    assert (_combined rj < 999)%Q as Hlt by (eapply Qle_lt_trans; done).
    split; [done|]. split; [done|].
    destruct (decide (j < i)%nat) as [|Hge]; [done|]. exfalso.
    destruct (decide (i = j)) as [->|Hne].
    - rewrite Hi in Hj. inversion Hj; subst rj.
      rewrite Hsi in Hlt. by apply Qlt_irrefl in Hlt.
    - assert (i < j)%nat as Hij by lia.
      pose proof (StronglySorted_lookup _ _ _ _ _ _
                    (sorted_rows_sorted mase_records crps_records models)
                    Hij Hi Hj) as Hle.
      simpl in Hle. rewrite Hsi in Hle.
      apply (Qlt_irrefl 999). by eapply Qle_lt_trans. }
  split; [apply sorted_rows_models|]. split; [exact Hscore|].
  split.
  { intros row q Hrow Hcase. rewrite (Hscore row Hrow).
    destruct Hcase as [[Hm Hc]|[Hm Hc]]; rewrite Hm, Hc; simpl;
      apply round_double_representable.
    - by destruct (Hmase _ _ Hm).
    - by destruct (Hcrps _ _ Hc). }
  split; [exact Horder|].
  assert (∀ i e, out !! i = Some e →
            ∃ row, rows !! i = Some row ∧
                   (rank_mase e = None ↔
                    mase_rank !!! model (fields row) = None) ∧
                   (rank_crps e = None ↔
                    crps_rank !!! model (fields row) = None)) as Hout.
  { intros i e He. unfold out in He. rewrite compute_summary_lookup in He.
    fold rows in He. destruct (rows !! i) as [row|] eqn:Hrow; [|done].
    simpl in He. inversion He; subst e. exists row. split; [done|].
    destruct (decorate_fields i row) as (_ & _ & -> & ->).
    apply list_elem_of_lookup_2, elem_of_sorted_rows in Hrow as (m & _ & ->).
    unfold model_row, summary_row, round3_opt. simpl.
    split; apply fmap_None. }
  intros i j ei ej Hi Hj Hm Hc Hsome.
  destruct (Hout i ei Hi) as (ri & Hri & Hmi & Hci).
  destruct (Hout j ej Hj) as (rj & Hrj & Hmj & Hcj).
  apply (Horder i j ri rj Hri Hrj); [by apply Hmi|by apply Hci|].
  destruct Hsome as [Hs|Hs]; [left|right];
    apply not_eq_None_Some; intros Hnone;
    [apply Hmj in Hnone|apply Hcj in Hnone];
    rewrite Hnone in Hs; by destruct Hs.
Qed.

(** C3, counterexample.  Read in exact arithmetic the claim fails: the rank
    means of [A] are [1] and the double nearest to [5/3], and its combined
    score, [1.3333333333333335], is the double nearest to their mean, not
    their mean.  The only rank mean of [B] is the double nearest to [4/3],
    [1.3333333333333333], so that [B] comes first. *)
Lemma combined_score_spec_counterexample :
  ¬ combined_is_mean example_mase_a example_crps_ab ["A"; "B"] ∧
  (λ row, (model (fields row), Qred (_combined row)))
    <$> sorted_rows example_mase_a example_crps_ab ["A"; "B"]
  = [ ("B", 6004799503160661 # 4503599627370496);
      ("A", 3002399751580331 # 2251799813685248) ].
Proof.
  split; [|vm_compute; reflexivity].
  intros H.
  specialize (H (model_row example_mase_a example_crps_ab ["A"; "B"] "A")).
  assert (model_row example_mase_a example_crps_ab ["A"; "B"] "A"
          ∈ sorted_rows example_mase_a example_crps_ab ["A"; "B"]) as Hin.
  { apply elem_of_sorted_rows. exists "A". split; [|done].
    apply list_elem_of_here. }
  specialize (H Hin). vm_compute in H. discriminate.
Qed.





Lemma combined_score_spec_witness :
  (length MODELS < 999)%nat ∧
  (model ∘ fields) <$> sorted_rows example_records example_records MODELS
  ≡ₚ MODELS.
Proof.
  assert (length MODELS < 999)%nat as Hlen by (simpl; lia).
  split; [exact Hlen|].
  exact (proj1 (combined_score_spec example_records example_records MODELS Hlen)).
Defined.

(** The end-to-end example of the specification: both models get the
    combined score [3/2]; the tie keeps the order of the model list, and both
    are decorated. *)
Example compute_summary_example :
  (λ e, (model e, float_red <$> avg_mase e, Qred <$> rank_mase e,
         float_red <$> avg_crps e, Qred <$> rank_crps e))
    <$> compute_summary [example_ab 1 2] [example_ab 3 1] ["A"; "B"]
  = [ ((medal "135" ++ " A")%string,
       Some (Fin 1), Some 1%Q, Some (Fin 3), Some 2%Q);
      ((medal "136" ++ " B")%string,
       Some (Fin 2), Some 2%Q, Some (Fin 1), Some 1%Q) ] ∧
  Qred <$> (_combined <$> sorted_rows [example_ab 1 2] [example_ab 3 1] ["A"; "B"])
  = [(3 # 2)%Q; (3 # 2)%Q].
Proof. split; vm_compute; reflexivity. Qed.

(** Rounding in the reported fields: with 80 records in which [A] is first
    73 times and second 7 times, its rank mean is the double nearest to
    [87/80 = 1.0875], which lies below [1.0875], and is reported as [1.087];
    that of [B] is reported as [1.913]. *)
Example compute_summary_rank_rounding :
  (λ e, (model e, Qred <$> rank_mase e))
    <$> compute_summary example_80 [] ["A"; "B"]
  = [ ((medal "135" ++ " A")%string, Some (Qred (round_double (1087 # 1000))));
      ((medal "136" ++ " B")%string, Some (Qred (round_double (1913 # 1000)))) ].
Proof. vm_compute. reflexivity. Qed.

(** ** Sorted sets of strings *)

Lemma elem_of_sorted_set (xs : list string) x : x ∈ sorted_set xs ↔ x ∈ xs.
Proof.
  unfold sorted_set.
  by rewrite merge_sort_Permutation, elem_of_elements, elem_of_list_to_set.
Qed.

Lemma sorted_set_sorted (xs : list string) :
  StronglySorted String.le (sorted_set xs).
Proof. apply (StronglySorted_merge_sort _). Qed.

Lemma sorted_set_NoDup (xs : list string) : NoDup (sorted_set xs).
Proof.
  unfold sorted_set. rewrite merge_sort_Permutation. apply NoDup_elements.
Qed.

Lemma sorted_set_nil (xs : list string) : sorted_set xs = [] ↔ xs = [].
Proof.
  split.
  - intros Hs. destruct xs as [|x xs]; [done|].
    assert (x ∈ sorted_set (x :: xs)) as Hx by (apply elem_of_sorted_set; by left).
    rewrite Hs in Hx. by apply elem_of_nil in Hx.
  - by intros ->.
Qed.

(** The last element of [sorted(set(xs))] is the greatest string of [xs]. *)
Lemma sorted_set_last (xs : list string) latest :
  last (sorted_set xs) = Some latest →
  latest ∈ xs ∧ ∀ c, c ∈ xs → String.le c latest.
Proof.
  intros Hlast. pose proof Hlast as Hin.
  apply last_Some_elem_of, (proj1 (elem_of_sorted_set xs latest)) in Hin.
  split; [done|].
  intros c Hc. apply (proj2 (elem_of_sorted_set xs c)) in Hc.
  apply last_Some in Hlast as [l' Hl'].
  pose proof (sorted_set_sorted xs) as Hs. rewrite Hl' in Hs, Hc.
  apply elem_of_app in Hc as [Hc|Hc].
  - eapply StronglySorted_app_1_elem_of; [exact Hs|exact Hc|].
    by apply list_elem_of_singleton.
  - apply list_elem_of_singleton in Hc as ->. done.
Qed.

(** ** Time-window filter *)

Lemma on_or_after_iff threshold (r : record) :
  on_or_after threshold r ↔
  ∃ d, parse_date (cutoff r) = Some d ∧ (threshold ≤ d)%Z.
Proof.
  unfold on_or_after. destruct (parse_date (cutoff r)) as [d|].
  - rewrite Is_true_true, Z.leb_le. naive_solver.
  - split; [done|]. by intros (d & ? & _).
Qed.

Lemma keep_within_inv threshold (records out : list record) :
  keep_within threshold records = Some out →
  out = filter (λ r, on_or_after threshold r) records.
Proof.
  revert out. induction records as [|r records IH]; intros out Hk; simpl in Hk.
  - by inversion Hk.
  - unfold is_within_3_months in Hk. rewrite filter_cons.
    destruct (parse_date (cutoff r)) as [d|] eqn:Hd; [|done]. simpl in Hk.
    destruct (keep_within threshold records) as [rest|]; [|done]. simpl in Hk.
    inversion Hk; subst out. rewrite <- (IH rest eq_refl).
    assert (on_or_after threshold r = (threshold <=? d)%Z) as Hon.
    { unfold on_or_after. by rewrite Hd. }
    destruct (threshold <=? d)%Z.
    + rewrite decide_True; [done|]. by rewrite Hon.
    + rewrite decide_False; [done|]. rewrite Hon. simpl. tauto.
Qed.

Lemma keep_within_is_Some threshold (records : list record) :
  Forall (λ r, is_Some (parse_date (cutoff r))) records →
  is_Some (keep_within threshold records).
Proof.
  induction 1 as [|r records [d Hd] _ [rest IH]]; simpl; [by eexists|].
  unfold is_within_3_months. rewrite Hd, IH. simpl. by eexists.
Qed.

Lemma filter_last_3_months_nil :
  filter_last_3_months [] [] = Some ([], []).
Proof. reflexivity. Qed.

Lemma filter_last_3_months_inv (mase_records crps_records mase' crps' : list record) :
  mase_records ++ crps_records ≠ [] →
  filter_last_3_months mase_records crps_records = Some (mase', crps') →
  ∃ latest latest_date,
    last (sorted_set (cutoff <$> mase_records ++ crps_records)) = Some latest ∧
    parse_date latest = Some latest_date ∧
    (91 ≤ latest_date)%Z ∧
    mase' = filter (λ r, on_or_after (latest_date - 90) r) mase_records ∧
    crps' = filter (λ r, on_or_after (latest_date - 90) r) crps_records.
Proof.
  intros Hne Hf. unfold filter_last_3_months in Hf.
  destruct (last (sorted_set (cutoff <$> mase_records ++ crps_records)))
    as [latest|] eqn:Hlast.
  - destruct (parse_date latest) as [latest_date|] eqn:Hdate; [|done].
    simpl in Hf. unfold minus_days in Hf.
    destruct (1 <=? latest_date - 90)%Z eqn:Hthr; [|done]. simpl in Hf.
    apply Z.leb_le in Hthr.
    destruct (keep_within _ mase_records) as [m|] eqn:Hm; [|done].
    destruct (keep_within _ crps_records) as [c|] eqn:Hc; [|done].
    simpl in Hf. inversion Hf; subst.
    exists latest, latest_date. split; [done|]. split; [done|].
    split; [lia|]. split; by apply keep_within_inv.
  - apply last_None, sorted_set_nil, fmap_nil_inv in Hlast. done.
Qed.

Lemma filter_last_3_months_is_Some (mase_records crps_records : list record) :
  cutoffs_ok (mase_records ++ crps_records) →
  is_Some (filter_last_3_months mase_records crps_records).
Proof.
  intros Hok. unfold filter_last_3_months.
  destruct (last (sorted_set (cutoff <$> mase_records ++ crps_records)))
    as [latest|] eqn:Hlast; [|by eexists].
  apply sorted_set_last in Hlast as [Hin _].
  apply list_elem_of_fmap_1 in Hin as (r & -> & Hr).
  unfold cutoffs_ok in Hok. rewrite Forall_forall in Hok.
  destruct (Hok r Hr) as (d & Hd & Hd91). rewrite Hd. simpl.
  unfold minus_days. rewrite (proj2 (Z.leb_le 1 (d - 90))) by lia. simpl.
  assert (∀ rs : list record, (∀ x, x ∈ rs → x ∈ mase_records ++ crps_records) →
            is_Some (keep_within (d - 90) rs)) as Hkeep.
  { intros rs Hsub. apply keep_within_is_Some, Forall_forall.
    intros x Hx. destruct (Hok x (Hsub x Hx)) as (dx & -> & _). by eexists. }
  destruct (Hkeep mase_records) as [m ->].
  { intros x Hx. apply elem_of_app. by left. }
  destruct (Hkeep crps_records) as [c ->].
  { intros x Hx. apply elem_of_app. by right. }
  by eexists.
Qed.

(** ** Cutoff strings and dates *)

Lemma is_digit_cases k :
  is_digit k →
  k = 0%Z ∨ k = 1%Z ∨ k = 2%Z ∨ k = 3%Z ∨ k = 4%Z ∨
  k = 5%Z ∨ k = 6%Z ∨ k = 7%Z ∨ k = 8%Z ∨ k = 9%Z.
Proof. unfold is_digit. lia. Qed.

Ltac digit_cases H :=
  apply is_digit_cases in H;
  repeat (destruct H as [->|H]); [..|subst].

Lemma digit_of_digit_char k : is_digit k → digit_of (digit_char k) = Some k.
Proof. intros H. digit_cases H; reflexivity. Qed.

Lemma is_space_digit_char k : is_digit k → is_space (digit_char k) = false.
Proof. intros H. digit_cases H; reflexivity. Qed.

Lemma digit_char_not_dash k : is_digit k → Ascii.eqb (digit_char k) "-" = false.
Proof. intros H. digit_cases H; reflexivity. Qed.

Lemma digit_char_compare a b :
  is_digit a → is_digit b →
  Ascii.compare (digit_char a) (digit_char b) = (a ?= b)%Z.
Proof. intros Ha Hb. digit_cases Ha; digit_cases Hb; reflexivity. Qed.

Lemma py_int_unsigned k (rest : string) :
  is_digit k →
  strip (String (digit_char k) rest) = String (digit_char k) rest →
  py_int (String (digit_char k) rest)
  = parse_digits 0 false (String (digit_char k) rest).
Proof.
  intros H Hstrip. unfold py_int. rewrite Hstrip.
  digit_cases H; reflexivity.
Qed.

Lemma py_int_2 a b :
  is_digit a → is_digit b →
  py_int (String (digit_char a) (String (digit_char b) EmptyString))
  = Some (10 * a + b)%Z.
Proof.
  intros Ha Hb. rewrite py_int_unsigned; [|done|].
  - cbn [parse_digits]. rewrite !digit_of_digit_char by done. f_equal; lia.
  - unfold strip. cbn [lstrip]. rewrite is_space_digit_char by done.
    cbn [String.rev String.rev_app lstrip]. rewrite is_space_digit_char by done.
    reflexivity.
Qed.

Lemma py_int_4 a b c d :
  is_digit a → is_digit b → is_digit c → is_digit d →
  py_int (String (digit_char a) (String (digit_char b)
           (String (digit_char c) (String (digit_char d) EmptyString))))
  = Some (10 * (10 * (10 * a + b) + c) + d)%Z.
Proof.
  intros Ha Hb Hc Hd. rewrite py_int_unsigned; [|done|].
  - cbn [parse_digits]. rewrite !digit_of_digit_char by done. f_equal; lia.
  - unfold strip. cbn [lstrip]. rewrite is_space_digit_char by done.
    cbn [String.rev String.rev_app lstrip]. rewrite is_space_digit_char by done.
    reflexivity.
Qed.

Lemma str_split_digit k (s : string) :
  is_digit k →
  str_split "-" (String (digit_char k) s)
  = match str_split "-" s with
    | p :: ps => String (digit_char k) p :: ps
    | [] => [String (digit_char k) EmptyString]
    end.
Proof. intros H. cbn [str_split]. by rewrite digit_char_not_dash. Qed.

Lemma two_digits_are_digits n :
  (0 ≤ n < 100)%Z → is_digit (n / 10) ∧ is_digit (n mod 10).
Proof. intros Hn. unfold is_digit. split; Z.div_mod_to_equations; lia. Qed.

Lemma two_digits_int n : (0 ≤ n < 100)%Z → py_int (two_digits n) = Some n.
Proof.
  intros Hn. destruct (two_digits_are_digits n Hn). unfold two_digits.
  rewrite py_int_2 by done. f_equal. Z.div_mod_to_equations. lia.
Qed.

Lemma four_digits_int n : (0 ≤ n < 10000)%Z → py_int (four_digits n) = Some n.
Proof.
  intros Hn.
  destruct (two_digits_are_digits (n / 100)); [Z.div_mod_to_equations; lia|].
  destruct (two_digits_are_digits (n mod 100)); [Z.div_mod_to_equations; lia|].
  change (four_digits n)
    with (String (digit_char (n / 100 / 10))
            (String (digit_char ((n / 100) mod 10))
               (String (digit_char (n mod 100 / 10))
                  (String (digit_char ((n mod 100) mod 10)) EmptyString)))).
  rewrite py_int_4 by done. f_equal. Z.div_mod_to_equations. lia.
Qed.

Lemma two_digits_split n :
  (0 ≤ n < 100)%Z → str_split "-" (two_digits n) = [two_digits n].
Proof.
  intros Hn. destruct (two_digits_are_digits n Hn). unfold two_digits.
  by rewrite !str_split_digit.
Qed.

Lemma four_digits_split n :
  (0 ≤ n < 10000)%Z → str_split "-" (four_digits n) = [four_digits n].
Proof.
  intros Hn.
  destruct (two_digits_are_digits (n / 100)); [Z.div_mod_to_equations; lia|].
  destruct (two_digits_are_digits (n mod 100)); [Z.div_mod_to_equations; lia|].
  change (four_digits n)
    with (String (digit_char (n / 100 / 10))
            (String (digit_char ((n / 100) mod 10))
               (String (digit_char (n mod 100 / 10))
                  (String (digit_char ((n mod 100) mod 10)) EmptyString)))).
  by rewrite !str_split_digit.
Qed.

Lemma str_split_app sep (a b : string) :
  str_split sep a = [a] →
  str_split sep (a ++ String sep b)%string = a :: str_split sep b.
Proof.
  induction a as [|c a IH]; intros Ha.
  - change (EmptyString ++ String sep b)%string with (String sep b).
    cbn [str_split]. by rewrite Ascii.eqb_refl.
  - change (String c a ++ String sep b)%string
      with (String c (a ++ String sep b)).
    cbn [str_split] in *. destruct (Ascii.eqb c sep); [done|].
    destruct (str_split sep a) as [|p ps] eqn:Hsplit.
    + inversion Ha; subst a. by cbn in Hsplit.
    + inversion Ha; subst p ps. by rewrite (IH eq_refl).
Qed.

Lemma parse_date_parts s p0 p1 p2 rest :
  str_split "-" s = p0 :: p1 :: p2 :: rest →
  parse_date s
  = (y ← py_int p0; m ← py_int p1; d ← py_int p2; datetime y m d).
Proof.
  intros Hs. unfold parse_date. rewrite Hs. simpl.
  destruct (py_int p0); simpl; [|done].
  destruct (py_int p1); simpl; [|done]. done.
Qed.

(** A zero-padded cutoff reads back as its date; the hour is not read. *)
Lemma parse_date_format_cutoff y m d h :
  (0 ≤ y < 10000)%Z → (0 ≤ m < 100)%Z → (0 ≤ d < 100)%Z → (0 ≤ h < 100)%Z →
  parse_date (format_cutoff y m d h) = datetime y m d.
Proof.
  intros Hy Hm Hd Hh.
  rewrite (parse_date_parts _ (four_digits y) (two_digits m) (two_digits d)
             [two_digits h]).
  - rewrite four_digits_int, !two_digits_int by done. done.
  - change (format_cutoff y m d h)
      with (four_digits y ++ String "-" (two_digits m ++ String "-"
              (two_digits d ++ String "-" (two_digits h))))%string.
    rewrite str_split_app by (by apply four_digits_split).
    rewrite !str_split_app by (by apply two_digits_split).
    by rewrite two_digits_split.
Qed.

Lemma compare_app_same_length (a1 a2 b1 b2 : string) :
  String.length a1 = String.length a2 →
  String.compare (a1 ++ b1)%string (a2 ++ b2)%string
  = match String.compare a1 a2 with
    | Eq => String.compare b1 b2
    | c => c
    end.
Proof.
  revert a2. induction a1 as [|c1 a1 IH]; intros [|c2 a2] Hlen; try done.
  change (String.compare (String c1 (a1 ++ b1)) (String c2 (a2 ++ b2))
          = match String.compare (String c1 a1) (String c2 a2) with
            | Eq => String.compare b1 b2
            | c => c
            end).
  cbn [String.compare]. destruct (Ascii.compare c1 c2); [|done|done].
  apply IH. by inversion Hlen.
Qed.

Lemma two_digits_compare a b :
  (0 ≤ a < 100)%Z → (0 ≤ b < 100)%Z →
  String.compare (two_digits a) (two_digits b) = (a ?= b)%Z.
Proof.
  intros Ha Hb.
  destruct (two_digits_are_digits a Ha), (two_digits_are_digits b Hb).
  unfold two_digits. cbn [String.compare].
  rewrite !digit_char_compare by done.
  destruct (Z.compare_spec (a / 10) (b / 10));
    destruct (Z.compare_spec (a mod 10) (b mod 10));
    destruct (Z.compare_spec a b); try done;
    exfalso; Z.div_mod_to_equations; lia.
Qed.

Lemma four_digits_compare a b :
  (0 ≤ a < 10000)%Z → (0 ≤ b < 10000)%Z →
  String.compare (four_digits a) (four_digits b) = (a ?= b)%Z.
Proof.
  intros Ha Hb. unfold four_digits.
  rewrite compare_app_same_length by done.
  rewrite !two_digits_compare by (Z.div_mod_to_equations; lia).
  destruct (Z.compare_spec (a / 100) (b / 100));
    destruct (Z.compare_spec (a mod 100) (b mod 100));
    destruct (Z.compare_spec a b); try done;
    exfalso; Z.div_mod_to_equations; lia.
Qed.

(** Zero-padded cutoffs are ordered as strings the way their fields are
    ordered lexicographically. *)
Lemma format_cutoff_compare y1 m1 d1 h1 y2 m2 d2 h2 :
  (0 ≤ y1 < 10000)%Z → (0 ≤ m1 < 100)%Z → (0 ≤ d1 < 100)%Z → (0 ≤ h1 < 100)%Z →
  (0 ≤ y2 < 10000)%Z → (0 ≤ m2 < 100)%Z → (0 ≤ d2 < 100)%Z → (0 ≤ h2 < 100)%Z →
  String.compare (format_cutoff y1 m1 d1 h1) (format_cutoff y2 m2 d2 h2)
  = match (y1 ?= y2)%Z with
    | Eq => match (m1 ?= m2)%Z with
            | Eq => match (d1 ?= d2)%Z with
                    | Eq => (h1 ?= h2)%Z
                    | c => c
                    end
            | c => c
            end
    | c => c
    end.
Proof.
  intros. 
  change (format_cutoff y1 m1 d1 h1)
    with (four_digits y1 ++ String "-" (two_digits m1 ++ String "-"
            (two_digits d1 ++ String "-" (two_digits h1))))%string.
  change (format_cutoff y2 m2 d2 h2)
    with (four_digits y2 ++ String "-" (two_digits m2 ++ String "-"
            (two_digits d2 ++ String "-" (two_digits h2))))%string.
  rewrite compare_app_same_length by done.
  rewrite four_digits_compare by done.
  destruct (y1 ?= y2)%Z; [|done|done].
  cbn [String.compare]. change (Ascii.compare "-" "-") with Eq. cbv iota.
  rewrite compare_app_same_length by done.
  rewrite two_digits_compare by done.
  destruct (m1 ?= m2)%Z; [|done|done].
  cbn [String.compare]. change (Ascii.compare "-" "-") with Eq. cbv iota.
  rewrite compare_app_same_length by done.
  rewrite two_digits_compare by done.
  destruct (d1 ?= d2)%Z; [|done|done].
  cbn [String.compare]. change (Ascii.compare "-" "-") with Eq. cbv iota.
  by apply two_digits_compare.
Qed.

(** ** Dates and ordinals *)

Lemma days_before_year_succ y :
  days_before_year (y + 1)
  = (days_before_year y + 365 + (if is_leap y then 1 else 0))%Z.
Proof.
  unfold days_before_year, is_leap.
  replace (y + 1 - 1)%Z with y by lia.
  destruct (Z.eqb_spec (y mod 4) 0); destruct (Z.eqb_spec (y mod 100) 0);
    destruct (Z.eqb_spec (y mod 400) 0); simpl;
    Z.div_mod_to_equations; lia.
Qed.

Lemma days_before_year_mono y1 y2 :
  (y1 ≤ y2)%Z → (days_before_year y1 ≤ days_before_year y2)%Z.
Proof. unfold days_before_year. intros. Z.div_mod_to_equations. lia. Qed.

Lemma month_cases m :
  (1 ≤ m ≤ 12)%Z →
  m = 1%Z ∨ m = 2%Z ∨ m = 3%Z ∨ m = 4%Z ∨ m = 5%Z ∨ m = 6%Z ∨
  m = 7%Z ∨ m = 8%Z ∨ m = 9%Z ∨ m = 10%Z ∨ m = 11%Z ∨ m = 12%Z.
Proof. lia. Qed.

Ltac month_cases H :=
  apply month_cases in H;
  repeat (destruct H as [->|H]); [..|subst].

(** Within a year the day number grows with (month, day) and stays within
    the year. *)
Lemma days_before_month_table y m :
  (1 ≤ m ≤ 12)%Z →
  days_before_month y m
  = (nth (Z.to_nat (m - 1))
         [0; 31; 59; 90; 120; 151; 181; 212; 243; 273; 304; 334] 0
     + (if (2 <? m) && is_leap y then 1 else 0))%Z.
Proof.
  intros Hm. unfold days_before_month, days_in_month.
  month_cases Hm; destruct (is_leap y); reflexivity.
Qed.

Lemma days_in_month_table y m :
  (1 ≤ m ≤ 12)%Z →
  days_in_month y m
  = (nth (Z.to_nat (m - 1)) [31; 28; 31; 30; 31; 30; 31; 31; 30; 31; 30; 31] 0
     + (if (m =? 2) && is_leap y then 1 else 0))%Z.
Proof.
  intros Hm. unfold days_in_month.
  month_cases Hm; destruct (is_leap y); reflexivity.
Qed.

Ltac eval_tables :=
  repeat match goal with
         | |- context [nth ?n ?l ?d] =>
             let v := eval vm_compute in (nth n l d) in
             change (nth n l d) with v
         | |- context [(?a <? ?b)%Z] =>
             let v := eval vm_compute in (a <? b)%Z in
             change (a <? b)%Z with v
         | |- context [(?a =? ?b)%Z] =>
             let v := eval vm_compute in (a =? b)%Z in
             change (a =? b)%Z with v
         end;
  cbn [andb].

Lemma day_of_year_bounds y m d :
  (1 ≤ m ≤ 12)%Z → (1 ≤ d ≤ days_in_month y m)%Z →
  (1 ≤ days_before_month y m + d
   ≤ 365 + (if is_leap y then 1 else 0))%Z.
Proof.
  intros Hm. rewrite days_before_month_table, days_in_month_table by done.
  month_cases Hm; destruct (is_leap y); eval_tables; lia.
Qed.

Lemma day_of_year_mono y m1 d1 m2 d2 :
  (1 ≤ m1 ≤ 12)%Z → (1 ≤ d1 ≤ days_in_month y m1)%Z →
  (1 ≤ m2 ≤ 12)%Z → (1 ≤ d2 ≤ days_in_month y m2)%Z →
  (m1 < m2)%Z →
  (days_before_month y m1 + d1 < days_before_month y m2 + d2)%Z.
Proof.
  intros Hm1 Hd1 Hm2 Hd2. revert Hd1 Hd2.
  rewrite !days_before_month_table, !days_in_month_table by done.
  month_cases Hm1; month_cases Hm2; try lia;
    destruct (is_leap y); eval_tables; lia.
Qed.

Lemma datetime_inv y m d o :
  datetime y m d = Some o →
  (1 ≤ y ≤ 9999)%Z ∧ (1 ≤ m ≤ 12)%Z ∧ (1 ≤ d ≤ days_in_month y m)%Z ∧
  o = (days_before_year y + days_before_month y m + d)%Z.
Proof.
  unfold datetime.
  destruct (Z.leb_spec 1 y), (Z.leb_spec y 9999), (Z.leb_spec 1 m),
    (Z.leb_spec m 12), (Z.leb_spec 1 d), (Z.leb_spec d (days_in_month y m));
    simpl; intros Ho; inversion Ho. lia.
Qed.

(** Ordinals grow with (year, month, day). *)
Lemma datetime_mono y1 m1 d1 o1 y2 m2 d2 o2 :
  datetime y1 m1 d1 = Some o1 → datetime y2 m2 d2 = Some o2 →
  (y1 < y2 ∨ (y1 = y2 ∧ (m1 < m2 ∨ (m1 = m2 ∧ d1 ≤ d2))))%Z →
  (o1 ≤ o2)%Z.
Proof.
  intros (Hy1 & Hm1 & Hd1 & ->)%datetime_inv (Hy2 & Hm2 & Hd2 & ->)%datetime_inv.
  pose proof (day_of_year_bounds y1 m1 d1 Hm1 Hd1).
  pose proof (day_of_year_bounds y2 m2 d2 Hm2 Hd2).
  intros [Hlt|[-> [Hlt|[-> Hle]]]].
  - pose proof (days_before_year_succ y1).
    pose proof (days_before_year_mono (y1 + 1) y2). lia.
  - pose proof (day_of_year_mono y2 m1 d1 m2 d2 Hm1 Hd1 Hm2 Hd2 Hlt). lia.
  - lia.
Qed.

(** For zero-padded cutoffs, string order agrees with date order: a cutoff
    that is not greater as a string is not later as a date. *)
Lemma format_cutoff_le_date y1 m1 d1 h1 o1 y2 m2 d2 h2 o2 :
  (0 ≤ y1 < 10000)%Z → (0 ≤ m1 < 100)%Z → (0 ≤ d1 < 100)%Z → (0 ≤ h1 < 100)%Z →
  (0 ≤ y2 < 10000)%Z → (0 ≤ m2 < 100)%Z → (0 ≤ d2 < 100)%Z → (0 ≤ h2 < 100)%Z →
  parse_date (format_cutoff y1 m1 d1 h1) = Some o1 →
  parse_date (format_cutoff y2 m2 d2 h2) = Some o2 →
  String.le (format_cutoff y1 m1 d1 h1) (format_cutoff y2 m2 d2 h2) →
  (o1 ≤ o2)%Z.
Proof.
  intros ? ? ? ? ? ? ? ? Ho1 Ho2 Hle.
  rewrite parse_date_format_cutoff in Ho1, Ho2 by done.
  apply (datetime_mono _ _ _ _ _ _ _ _ Ho1 Ho2).
  unfold String.le, String.leb in Hle.
  rewrite format_cutoff_compare in Hle by done.
  destruct (Z.compare_spec y1 y2); [|lia|done].
  destruct (Z.compare_spec m1 m2); [|lia|done].
  destruct (Z.compare_spec d1 d2); [lia|lia|done].
Qed.

(** C5. When there is no record at all, the filter leaves both lists as they
    are.  Otherwise it takes the greatest cutoff string of the two lists
    together, reads its first three dash-separated parts as a date (the hour
    part is not read), subtracts 90 days to get the threshold, and keeps in
    each list, with this one threshold, exactly the records whose own cutoff
    reads as a date on or after the threshold, in their order.  Among
    zero-padded [YYYY-MM-DD-HH] cutoffs the string order agrees with the date
    order, so there the greatest string carries the latest date.  The filter
    returns whenever every cutoff reads as a date from which 90 days can be
    subtracted. *)
Theorem filter_last_3_months_spec (mase_records crps_records : list record) :
  let all_records := mase_records ++ crps_records in
  (all_records = [] →
   filter_last_3_months mase_records crps_records
   = Some (mase_records, crps_records)) ∧
  (all_records ≠ [] →
   ∀ mase' crps',
     filter_last_3_months mase_records crps_records = Some (mase', crps') →
     ∃ latest latest_date,
       latest ∈ cutoff <$> all_records ∧
       (∀ c, c ∈ cutoff <$> all_records → String.le c latest) ∧
       parse_date latest = Some latest_date ∧
       mase' = filter (λ r, on_or_after (latest_date - 90) r) mase_records ∧
       crps' = filter (λ r, on_or_after (latest_date - 90) r) crps_records) ∧
  (∀ threshold (r : record),
     on_or_after threshold r ↔
     ∃ d, parse_date (cutoff r) = Some d ∧ (threshold ≤ d)%Z) ∧
  (∀ s p0 p1 p2 rest,
     str_split "-" s = p0 :: p1 :: p2 :: rest →
     parse_date s
     = (y ← py_int p0; m ← py_int p1; d ← py_int p2; datetime y m d)) ∧
  (∀ y1 m1 d1 h1 o1 y2 m2 d2 h2 o2,
     (0 ≤ y1 < 10000)%Z → (0 ≤ m1 < 100)%Z →
     (0 ≤ d1 < 100)%Z → (0 ≤ h1 < 100)%Z →
     (0 ≤ y2 < 10000)%Z → (0 ≤ m2 < 100)%Z →
     (0 ≤ d2 < 100)%Z → (0 ≤ h2 < 100)%Z →
     parse_date (format_cutoff y1 m1 d1 h1) = Some o1 →
     parse_date (format_cutoff y2 m2 d2 h2) = Some o2 →
     String.le (format_cutoff y1 m1 d1 h1) (format_cutoff y2 m2 d2 h2) →
     (o1 ≤ o2)%Z) ∧
  (cutoffs_ok all_records →
   is_Some (filter_last_3_months mase_records crps_records)).
Proof.
  intros all_records. split; [|split; [|split; [|split; [|split]]]].
  - intros Hnil. apply app_eq_nil in Hnil as [-> ->]. reflexivity.
  - intros Hne mase' crps' Hf.
    apply filter_last_3_months_inv in Hf
      as (latest & latest_date & Hlast & Hdate & _ & Hm & Hc); [|done].
    apply sorted_set_last in Hlast as [Hin Hmax].
    exists latest, latest_date. done.
  - apply on_or_after_iff.
  - apply parse_date_parts.
  - apply format_cutoff_le_date.
  - apply filter_last_3_months_is_Some.
Qed.

(** The example of the specification: cutoffs up to 2026-02-12 give the
    threshold 2025-11-14; 2026-01-01 is kept and 2025-10-01 is dropped. *)
Lemma filter_last_3_months_spec_witness :
  let mase_records := [example_cutoff_record "2026-01-01-00";
                       example_cutoff_record "2025-10-01-00"] in
  let crps_records := [example_cutoff_record "2026-02-12-00"] in
  cutoffs_ok (mase_records ++ crps_records) ∧
  is_Some (filter_last_3_months mase_records crps_records) ∧
  filter_last_3_months mase_records crps_records
  = Some ([example_cutoff_record "2026-01-01-00"], crps_records) ∧
  (parse_date "2026-02-12-00" ≫= λ d, minus_days d 90)
  = parse_date "2025-11-14-00".
Proof.
  intros mase_records crps_records.
  assert (cutoffs_ok (mase_records ++ crps_records)) as Hok.
  { repeat constructor; eexists; (split; [vm_compute; reflexivity|done]). }
  split; [exact Hok|]. split.
  - exact (proj2 (proj2 (proj2 (proj2 (proj2
             (filter_last_3_months_spec mase_records crps_records))))) Hok).
  - split; vm_compute; reflexivity.
Defined.

(** C6. In the dataset [main] builds, [mase] and [crps] are the filtered
    lists, and each of [cutoffs], [subdatasets] and [frequencies] is sorted,
    free of duplicates, and holds exactly the values of that field over the
    filtered records of both lists. *)
Theorem dataset_domains (mase_records crps_records : list record) data :
  main_data mase_records crps_records = Some data →
  ∃ mase' crps',
    filter_last_3_months mase_records crps_records = Some (mase', crps') ∧
    Dataset.mase data = mase' ∧ Dataset.crps data = crps' ∧
    (∀ c, c ∈ Dataset.cutoffs data ↔ ∃ r, r ∈ mase' ++ crps' ∧ cutoff r = c) ∧
    (∀ s, s ∈ Dataset.subdatasets data ↔
          ∃ r, r ∈ mase' ++ crps' ∧ subdataset r = s) ∧
    (∀ f, f ∈ Dataset.frequencies data ↔
          ∃ r, r ∈ mase' ++ crps' ∧ frequency r = f) ∧
    StronglySorted String.le (Dataset.cutoffs data) ∧
    NoDup (Dataset.cutoffs data) ∧
    StronglySorted String.le (Dataset.subdatasets data) ∧
    NoDup (Dataset.subdatasets data) ∧
    StronglySorted String.le (Dataset.frequencies data) ∧
    NoDup (Dataset.frequencies data).
Proof.
  unfold main_data. intros Hmain.
  destruct (filter_last_3_months mase_records crps_records)
    as [[mase' crps']|]; [|done].
  simpl in Hmain. inversion Hmain; subst data. clear Hmain.
  exists mase', crps'. unfold build_data. simpl.
  repeat split; try done;
    try apply sorted_set_sorted; try apply sorted_set_NoDup.
  all: try (intros Hin; apply elem_of_sorted_set, list_elem_of_fmap_1 in Hin
              as (r & -> & Hr); by exists r).
  all: intros (r & Hr & <-); apply elem_of_sorted_set;
    by apply list_elem_of_fmap_2.
Qed.

Lemma dataset_domains_witness :
  let mase_records := [example_cutoff_record "2026-01-01-00";
                       example_cutoff_record "2025-10-01-00"] in
  let crps_records := [example_cutoff_record "2026-02-12-00"] in
  let data := build_data [example_cutoff_record "2026-01-01-00"]
                         crps_records MODELS in
  main_data mase_records crps_records = Some data ∧
  Dataset.cutoffs data = ["2026-01-01-00"; "2026-02-12-00"] ∧
  ∃ mase' crps',
    filter_last_3_months mase_records crps_records = Some (mase', crps') ∧
    Dataset.mase data = mase' ∧ Dataset.crps data = crps' ∧
    (∀ c, c ∈ Dataset.cutoffs data ↔ ∃ r, r ∈ mase' ++ crps' ∧ cutoff r = c) ∧
    (∀ s, s ∈ Dataset.subdatasets data ↔
          ∃ r, r ∈ mase' ++ crps' ∧ subdataset r = s) ∧
    (∀ f, f ∈ Dataset.frequencies data ↔
          ∃ r, r ∈ mase' ++ crps' ∧ frequency r = f) ∧
    StronglySorted String.le (Dataset.cutoffs data) ∧
    NoDup (Dataset.cutoffs data) ∧
    StronglySorted String.le (Dataset.subdatasets data) ∧
    NoDup (Dataset.subdatasets data) ∧
    StronglySorted String.le (Dataset.frequencies data) ∧
    NoDup (Dataset.frequencies data).
Proof.
  intros mase_records crps_records data.
  assert (main_data mase_records crps_records = Some data) as Hmain
    by (vm_compute; reflexivity).
  split; [exact Hmain|]. split; [vm_compute; reflexivity|].
  exact (dataset_domains mase_records crps_records data Hmain).
Defined.

(** C10. When the two lists together are not empty and the filter returns,
    every record whose cutoff is the greatest cutoff string is kept, so the
    filtered lists together are not empty and the dataset's [cutoffs] contains
    that greatest cutoff.  The filter returns whenever every cutoff reads as a
    date from which 90 days can be subtracted. *)
Theorem filter_keeps_latest (mase_records crps_records : list record) :
  mase_records ++ crps_records ≠ [] →
  (∀ mase' crps',
     filter_last_3_months mase_records crps_records = Some (mase', crps') →
     ∃ latest,
       latest ∈ cutoff <$> mase_records ++ crps_records ∧
       (∀ c, c ∈ cutoff <$> mase_records ++ crps_records → String.le c latest) ∧
       (∀ r, r ∈ mase_records → cutoff r = latest → r ∈ mase') ∧
       (∀ r, r ∈ crps_records → cutoff r = latest → r ∈ crps') ∧
       mase' ++ crps' ≠ [] ∧
       latest ∈ Dataset.cutoffs (build_data mase' crps' MODELS)) ∧
  (cutoffs_ok (mase_records ++ crps_records) →
   is_Some (filter_last_3_months mase_records crps_records)).
Proof.
  intros Hne. split; [|apply filter_last_3_months_is_Some].
  intros mase' crps' Hf.
  apply filter_last_3_months_inv in Hf
    as (latest & latest_date & Hlast & Hdate & _ & -> & ->); [|done].
  apply sorted_set_last in Hlast as [Hin Hmax].
  assert (∀ r : record, cutoff r = latest →
            on_or_after (latest_date - 90) r) as Hkeep.
  { intros r Hr. apply on_or_after_iff. exists latest_date.
    rewrite Hr. split; [done|lia]. }
  assert (∀ (rs : list record) (r : record), r ∈ rs → cutoff r = latest →
            r ∈ filter (λ r, on_or_after (latest_date - 90) r) rs) as Hmem.
  { intros rs r Hr Hc. apply list_elem_of_filter. split; [by apply Hkeep|done]. }
  apply list_elem_of_fmap_1 in Hin as (r & Hc & Hr).
  assert (r ∈ filter (λ r, on_or_after (latest_date - 90) r) mase_records
              ++ filter (λ r, on_or_after (latest_date - 90) r) crps_records)
    as Hr'.
  { apply elem_of_app. apply elem_of_app in Hr as [Hr|Hr];
      [left|right]; by apply Hmem. }
  exists latest. split.
  { apply list_elem_of_fmap. by exists r. }
  split; [exact Hmax|]. split; [by intros; apply Hmem|].
  split; [by intros; apply Hmem|]. split.
  - intros Hnil. rewrite Hnil in Hr'. by apply elem_of_nil in Hr'.
  - unfold build_data. simpl. apply elem_of_sorted_set.
    apply list_elem_of_fmap. by exists r.
Qed.

Lemma filter_keeps_latest_witness :
  let mase_records := [example_cutoff_record "2026-01-01-00";
                       example_cutoff_record "2025-10-01-00"] in
  let crps_records := [example_cutoff_record "2026-02-12-00"] in
  mase_records ++ crps_records ≠ [] ∧
  cutoffs_ok (mase_records ++ crps_records) ∧
  is_Some (filter_last_3_months mase_records crps_records).
Proof.
  intros mase_records crps_records.
  assert (mase_records ++ crps_records ≠ []) as Hne by done.
  assert (cutoffs_ok (mase_records ++ crps_records)) as Hok.
  { repeat constructor; eexists; (split; [vm_compute; reflexivity|done]). }
  split; [exact Hne|]. split; [exact Hok|].
  exact (proj2 (filter_keeps_latest mase_records crps_records Hne) Hok).
Defined.

(** ** Renderer *)

Section replace_facts.
Local Open Scope string_scope.
Local Arguments String.append !_ _ / : simpl nomatch.
Implicit Types (old new s pre post : string).

Lemma prefix_app old s :
  String.prefix old s = true ↔ ∃ rest, s = (old ++ rest)%string.
Proof.
  revert s. induction old as [|c old IH]; intros s.
  - split; [intros _; by exists s|intros _; by destruct s].
  - destruct s as [|d s]; simpl.
    + split; [done|]. by intros [rest ?].
    + destruct (ascii_dec c d) as [->|Hne].
      * rewrite IH. split; intros [rest Hr]; exists rest; simpl in *; congruence.
      * split; [done|]. intros [rest Hr]. simpl in Hr. congruence.
Qed.

Lemma app_assoc_string (a b c : string) :
  ((a ++ b) ++ c)%string = (a ++ (b ++ c))%string.
Proof. induction a as [|x a IH]; simpl; [done|]. by rewrite IH. Qed.

Lemma contains_app old s :
  contains old s = true ↔ ∃ pre post, s = (pre ++ old ++ post)%string.
Proof.
  induction s as [|c s IH]; cbn [contains].
  - rewrite orb_false_r, prefix_app. split.
    + intros [rest Hr]. by exists EmptyString, rest.
    + intros (pre & post & Hs). destruct pre; [by exists post|done].
  - rewrite orb_true_iff, IH, prefix_app. split.
    + intros [[rest Hr]|(pre & post & Hs)].
      * by exists EmptyString, rest.
      * exists (String c pre), post. simpl. by rewrite Hs.
    + intros (pre & post & Hs). destruct pre as [|d pre]; simpl in Hs.
      * left. by exists post.
      * right. exists pre, post. congruence.
Qed.

Lemma occurrences_app_ge old a b :
  (occurrences old b ≤ occurrences old (a ++ b)%string)%nat.
Proof.
  induction a as [|x a IH]; cbn [occurrences String.append]; [lia|].
  destruct (String.prefix old (String x (a ++ b))); lia.
Qed.

Lemma occurrences_here old post :
  (1 ≤ occurrences old (old ++ post)%string)%nat.
Proof.
  assert (String.prefix old (old ++ post) = true) as Hp.
  { apply prefix_app. by exists post. }
  destruct (old ++ post)%string; cbn [occurrences]; rewrite Hp; lia.
Qed.

Lemma replace_from_skip old new a b :
  replace_from old new (String.length a) (a ++ b)%string
  = replace_from old new 0 b.
Proof.
  induction a as [|x a IH]; cbn [replace_from String.append String.length];
    [by destruct b|done].
Qed.

Lemma replace_from_absent old new s :
  occurrences old s = 0%nat → replace_from old new 0 s = s.
Proof.
  induction s as [|c s IH]; cbn [replace_from occurrences]; [done|].
  destruct (String.prefix old (String c s)) eqn:Hp; [done|].
  simpl. intros Hocc. by rewrite IH.
Qed.

(** With a single occurrence, [replace] rewrites exactly that occurrence
    and copies the text before and after it. *)
Lemma replace_single old new pre post :
  old ≠ EmptyString →
  occurrences old (pre ++ old ++ post)%string = 1%nat →
  replace old new (pre ++ old ++ post)%string = (pre ++ new ++ post)%string.
Proof.
  intros Hne. unfold replace.
  induction pre as [|c pre IH]; cbn [String.append].
  - destruct old as [|o old]; [done|]. intros Hocc.
    change (String o old ++ post)%string with (String o (old ++ post)) in *.
    assert (String.prefix (String o old) (String o (old ++ post)) = true) as Hp.
    { apply prefix_app. by exists post. }
    cbn [replace_from occurrences] in *. rewrite Hp in *.
    replace (String.length (String o old) - 1)%nat with (String.length old)
      by (cbn [String.length]; lia).
    rewrite replace_from_skip.
    rewrite replace_from_absent; [done|].
    pose proof (occurrences_app_ge (String o old) old post). lia.
  - intros Hocc. cbn [replace_from occurrences] in *.
    pose proof (occurrences_app_ge old pre (old ++ post)) as Hge.
    pose proof (occurrences_here old post) as Hhere.
    destruct (String.prefix old (String c (pre ++ old ++ post))) eqn:Hp;
      [lia|].
    rewrite IH; [done|lia].
Qed.
End replace_facts.

(** C7. [render] exits with [PlaceholderMissing] exactly when the placeholder
    token does not occur in the template.  When the token occurs exactly
    once, the output is the template with that occurrence replaced by
    [const DATA = <data_json>;], the text before and after it unchanged. *)
Theorem render_placeholder data_json template :
  (render data_json template = inl PlaceholderMissing ↔
   ∀ pre post, template ≠ (pre ++ PLACEHOLDER ++ post)%string) ∧
  (∀ pre post,
     template = (pre ++ PLACEHOLDER ++ post)%string →
     occurrences PLACEHOLDER template = 1%nat →
     render data_json template
     = inr (pre ++ ("const DATA = " ++ data_json ++ ";") ++ post)%string).
Proof.
  unfold render. split.
  - destruct (contains PLACEHOLDER template) eqn:Hc; simpl.
    + split; [done|]. intros Habs.
      apply contains_app in Hc as (pre & post & Hs). by destruct (Habs pre post).
    + split; [|done]. intros _ pre post Hs.
      assert (contains PLACEHOLDER template = true) as Hc'.
      { apply contains_app. by exists pre, post. }
      congruence.
  - intros pre post Hs Hocc.
    assert (contains PLACEHOLDER template = true) as ->.
    { apply contains_app. by exists pre, post. }
    simpl. f_equal. subst template.
    by apply replace_single.
Qed.

Lemma render_placeholder_witness :
  let template := "<script>/* __DATA_PLACEHOLDER__ */</script>" in
  let data_json := "{}" in
  template = ("<script>" ++ PLACEHOLDER ++ "</script>")%string ∧
  occurrences PLACEHOLDER template = 1%nat ∧
  render data_json template
  = inr ("<script>" ++ ("const DATA = " ++ data_json ++ ";") ++ "</script>")%string.
Proof.
  intros template data_json.
  assert (template = ("<script>" ++ PLACEHOLDER ++ "</script>")%string) as H1
    by reflexivity.
  assert (occurrences PLACEHOLDER template = 1%nat) as H2 by reflexivity.
  split; [exact H1|]. split; [exact H2|].
  exact (proj2 (render_placeholder data_json template) "<script>" "</script>" H1 H2).
Defined.

(** ** Rank means *)

Ltac fold_omap :=
  repeat match goal with
         | |- context [list_omap ?A ?B ?f ?l] =>
             change (list_omap A B f l) with (omap f l)
         | H : context [list_omap ?A ?B ?f ?l] |- _ =>
             change (list_omap A B f l) with (omap f l) in H
         end.

Section rank_mean_facts.
Context (models : list string) (Hnd : NoDup models).

Lemma record_ranks_NoDup (r : record) : NoDup (record_ranks models r).*1.
Proof.
  rewrite record_ranks_fst.
  rewrite (fmap_Permutation fst _ _ (list_sort_Permutation snd _)).
  by apply present_vals_NoDup.
Qed.

Lemma elem_of_record_ranks_fst (r : record) m :
  m ∈ (record_ranks models r).*1 ↔ m ∈ models ∧ is_Some (get_value r m).
Proof.
  rewrite record_ranks_fst.
  rewrite (fmap_Permutation fst _ _ (list_sort_Permutation snd _)).
  rewrite present_vals_fst, list_elem_of_filter. tauto.
Qed.

Lemma rank_of_is_Some (r : record) m :
  m ∈ models → is_Some (rank_of models r m) ↔ is_Some (get_value r m).
Proof.
  intros Hin. unfold rank_of. split.
  - intros [k Hk]. apply elem_of_list_to_map in Hk; [|apply record_ranks_NoDup].
    apply (list_elem_of_fmap_2 fst) in Hk. simpl in Hk.
    by apply elem_of_record_ranks_fst in Hk as [_ ?].
  - intros Hv. apply not_eq_None_Some. intros Hnone.
    apply not_elem_of_list_to_map in Hnone. apply Hnone.
    by apply elem_of_record_ranks_fst.
Qed.

Lemma rank_record_step st (r : record) m :
  (rank_record models st r).1 !!! m
  = (st.1 !!! m + default 0 (rank_of models r m))%nat ∧
  (rank_record models st r).2 !!! m
  = (st.2 !!! m + length (option_list (rank_of models r m)))%nat.
Proof.
  unfold rank_record. destruct (rank_of models r m) as [k|] eqn:Hk.
  - unfold rank_of in Hk.
    apply elem_of_list_to_map in Hk; [|apply record_ranks_NoDup].
    apply list_elem_of_lookup in Hk as [i Hi].
    apply record_ranks_lookup in Hi as [-> [v Hv]]. simpl.
    apply (foldl_rank_add_once st _ i m v).
    + rewrite ranked_names, <- record_ranks_fst. apply record_ranks_NoDup.
    + unfold ranked. by apply enumerate_elem_of.
  - unfold rank_of in Hk. apply not_elem_of_list_to_map in Hk.
    rewrite record_ranks_fst, <- ranked_names in Hk.
    destruct (foldl_rank_add_other st (ranked models r) m Hk) as [H1 H2].
    rewrite !lookup_total_alt, H1, H2. simpl. lia.
Qed.

Lemma foldl_rank_record st (records : list record) m :
  (foldl (rank_record models) st records).1 !!! m
  = (st.1 !!! m + sum_list (omap (λ r, rank_of models r m) records))%nat ∧
  (foldl (rank_record models) st records).2 !!! m
  = (st.2 !!! m + length (omap (λ r, rank_of models r m) records))%nat.
Proof.
  revert st. induction records as [|r records IH]; intros st; simpl.
  - lia.
  - destruct (IH (rank_record models st r)) as [-> ->].
    destruct (rank_record_step st r m) as [-> ->].
    destruct (rank_of models r m); simpl; fold_omap; lia.
Qed.

Lemma rank_totals_lookup (records : list record) m :
  (rank_totals models records).1 !!! m
  = sum_list (omap (λ r, rank_of models r m) records) ∧
  (rank_totals models records).2 !!! m
  = length (omap (λ r, rank_of models r m) records).
Proof.
  unfold rank_totals.
  destruct (foldl_rank_record (init_dict 0%nat models, init_dict 0%nat models)
              records m) as [-> ->]. simpl.
  rewrite lookup_total_alt, init_dict_lookup.
  by destruct (decide (m ∈ models)).
Qed.

Lemma length_ranks_vals (records : list record) m :
  m ∈ models →
  length (omap (λ r, rank_of models r m) records)
  = length (omap (λ r, get_value r m) records).
Proof.
  intros Hin. induction records as [|r records IH]; simpl; [done|].
  pose proof (rank_of_is_Some r m Hin) as Hiff.
  destruct (rank_of models r m) as [k|], (get_value r m) as [v|]; simpl;
    fold_omap.
  - by rewrite IH.
  - assert (is_Some (@None Q)) as [? ?] by (apply Hiff; by eexists). done.
  - assert (is_Some (@None nat)) as [? ?] by (apply Hiff; by eexists). done.
  - done.
Qed.

Lemma avg_rank_lookup (records : list record) m :
  m ∈ models →
  (avg_metric_and_rank records models).2 !! m
  = Some (rank_mean (sum_list (omap (λ r, rank_of models r m) records))
                    (length (omap (λ r, rank_of models r m) records))).
Proof.
  intros Hin. unfold avg_metric_and_rank, avg_rank_of. simpl.
  rewrite (foldl_insert_lookup
             (λ m', rank_mean ((rank_totals models records).1 !!! m')
                              ((rank_totals models records).2 !!! m'))).
  rewrite decide_True by done.
  by destruct (rank_totals_lookup records m) as [-> ->].
Qed.
End rank_mean_facts.

(** X1. For a duplicate-free model list and a model [m] of it, [avg_rank[m]]
    is the double nearest to the sum of the ranks [m] received over the
    number of records that ranked it, and that quotient itself when it is a
    double; it is [None] when no record ranked it.  The records that rank
    [m] are exactly those in which [m] has a value. *)
Theorem avg_rank_spec models (records : list record) m :
  NoDup models → m ∈ models →
  let ranks := omap (λ r, rank_of models r m) records in
  let avg_rank := (avg_metric_and_rank records models).2 in
  let quotient := (inject_Z (Z.of_nat (sum_list ranks))
                   / inject_Z (Z.of_nat (length ranks)))%Q in
  (ranks = [] → avg_rank !! m = Some None) ∧
  (ranks ≠ [] →
   ∃ q, avg_rank !! m = Some (Some q) ∧
        (q == round_double quotient)%Q ∧
        (representable quotient → (q == quotient)%Q)) ∧
  length ranks = length (omap (λ r, get_value r m) records) ∧
  (∀ r, is_Some (rank_of models r m) ↔ is_Some (get_value r m)).
Proof.
  intros Hnd Hin ranks avg_rank quotient. unfold avg_rank.
  rewrite (avg_rank_lookup models Hnd records m Hin). fold ranks.
  split; [|split; [|split]].
  - by intros ->.
  - intros Hne. unfold rank_mean.
    destruct ranks as [|k ranks'] eqn:Hranks; [done|]. simpl length.
    eexists. split; [reflexivity|]. split; [reflexivity|].
    intros Hrep. by apply round_double_representable.
  - by apply length_ranks_vals.
  - intros r. by apply rank_of_is_Some.
Qed.

Lemma avg_rank_spec_witness :
  NoDup MODELS ∧ "AutoARIMA" ∈ MODELS ∧
  omap (λ r, rank_of MODELS r "AutoARIMA") example_records = [2; 1]%nat ∧
  (avg_metric_and_rank example_records MODELS).2 !! "AutoARIMA"
  = Some (Some (round_double (3 # 2))) ∧
  length (omap (λ r, rank_of MODELS r "AutoARIMA") example_records)
  = length (omap (λ r, get_value r "AutoARIMA") example_records).
Proof.
  assert (NoDup MODELS) as Hnd by (apply (bool_decide_unpack _); vm_compute; exact I).
  assert ("AutoARIMA" ∈ MODELS) as Hin
    by (apply (bool_decide_unpack _); vm_compute; exact I).
  split; [exact Hnd|]. split; [exact Hin|].
  split; [vm_compute; reflexivity|]. split; [vm_compute; reflexivity|].
  exact (proj1 (proj2 (proj2
           (avg_rank_spec MODELS example_records "AutoARIMA" Hnd Hin)))).
Defined.

(** X2. For a duplicate-free model list and a model [m] of it, the average
    metric and the average rank of [m] are missing together: each is [None]
    exactly when no record has a value for [m]. *)
Theorem avg_metric_rank_None models (records : list record) m :
  NoDup models → m ∈ models →
  let avg := avg_metric_and_rank records models in
  (avg.1 !! m = Some None ↔ Forall (λ r, get_value r m = None) records) ∧
  (avg.2 !! m = Some None ↔ Forall (λ r, get_value r m = None) records).
Proof.
  intros Hnd Hin avg.
  assert (omap (λ r, get_value r m) records = [] ↔
          Forall (λ r, get_value r m = None) records) as Hvals.
  { induction records as [|r records IH]; simpl.
    - split; [constructor|done].
    - destruct (get_value r m) eqn:Hv.
      + split; [done|]. intros Hall. apply Forall_cons in Hall as [? _]. congruence.
      + rewrite IH. split; [by constructor|]. by intros [_ ?]%Forall_cons. }
  split.
  - unfold avg, avg_metric_and_rank. simpl.
    rewrite avg_metric_of_lookup, collect_vals_lookup by done.
    rewrite <- Hvals.
    destruct (omap (λ r, get_value r m) records); simpl; split; done.
  - unfold avg. rewrite (avg_rank_lookup models Hnd records m Hin).
    rewrite <- Hvals, <- length_zero_iff_nil.
    rewrite <- (length_ranks_vals models Hnd records m Hin).
    unfold rank_mean.
    destruct (omap (λ r, rank_of models r m) records); simpl; split; done.
Qed.

Lemma avg_metric_rank_None_witness :
  NoDup MODELS ∧ "AutoCES" ∈ MODELS ∧
  ((avg_metric_and_rank example_records MODELS).1 !! "AutoCES" = Some None ↔
   Forall (λ r, get_value r "AutoCES" = None) example_records) ∧
  (avg_metric_and_rank example_records MODELS).2 !! "AutoCES" = Some None.
Proof.
  assert (NoDup MODELS) as Hnd by (apply (bool_decide_unpack _); vm_compute; exact I).
  assert ("AutoCES" ∈ MODELS) as Hin
    by (apply (bool_decide_unpack _); vm_compute; exact I).
  split; [exact Hnd|]. split; [exact Hin|].
  split; [|vm_compute; reflexivity].
  exact (proj1 (avg_metric_rank_None MODELS example_records "AutoCES" Hnd Hin)).
Defined.

(** X3. A rank mean, when present, lies between 1 and the number of models
    in the list, for a list of at most [2^53] models; in general it lies
    between 1 and the double nearest to that number. *)
Theorem avg_rank_range models (records : list record) m q :
  (avg_metric_and_rank records models).2 !! m = Some (Some q) →
  (1 <= q)%Q ∧
  (q <= round_double (inject_Z (Z.of_nat (length models))))%Q ∧
  ((Z.of_nat (length models) ≤ 2 ^ 53)%Z →
   (q <= inject_Z (Z.of_nat (length models)))%Q).
Proof.
  intros Hq. apply lookup_total_correct in Hq.
  destruct (avg_rank_bound models records m q Hq) as (_ & Hlo & Hhi).
  split; [done|]. split; [done|].
  intros Hlen. rewrite <- (round_double_Z (Z.of_nat (length models))); [done|lia].
Qed.

Lemma avg_rank_range_witness :
  (avg_metric_and_rank example_records MODELS).2 !! "AutoARIMA"
  = Some (Some (round_double (3 # 2))) ∧
  (1 <= round_double (3 # 2) <= inject_Z (Z.of_nat (length MODELS)))%Q.
Proof.
  assert ((avg_metric_and_rank example_records MODELS).2 !! "AutoARIMA"
          = Some (Some (round_double (3 # 2)))) as Hq by (vm_compute; reflexivity).
  split; [exact Hq|].
  destruct (avg_rank_range MODELS example_records "AutoARIMA"
              (round_double (3 # 2)) Hq) as (Hlo & _ & Hhi).
  split; [exact Hlo|]. apply Hhi. by vm_compute.
Defined.

(** ** Order of the summary *)

Lemma before_fmap {A B} (f : A → B) (l : list A) (x y : B) :
  before (f <$> l) x y → ∃ a b, before l a b ∧ x = f a ∧ y = f b.
Proof.
  intros (i & j & Hij & Hi & Hj).
  apply list_lookup_fmap_Some in Hi as (a & -> & Ha).
  apply list_lookup_fmap_Some in Hj as (b & -> & Hb).
  exists a, b. split; [|done]. exists i, j. done.
Qed.

(** X4. Rows with equal combined scores stay in the order of the model list:
    the sort of the summary is stable. *)
Theorem summary_ties_keep_order mase_records crps_records models i j ri rj :
  (i < j)%nat →
  sorted_rows mase_records crps_records models !! i = Some ri →
  sorted_rows mase_records crps_records models !! j = Some rj →
  (_combined ri == _combined rj)%Q →
  before models (model (fields ri)) (model (fields rj)).
Proof.
  intros Hij Hi Hj Heq. unfold sorted_rows in Hi, Hj.
  pose proof (StronglySorted_lookup _ _ _ _ _ _
                (list_sort_stable _combined
                   (summary_rows mase_records crps_records models))
                Hij Hi Hj) as [Hlt|[_ Hb]].
  - rewrite Heq in Hlt. by apply Qlt_irrefl in Hlt.
  - rewrite summary_rows_eq in Hb.
    apply before_fmap in Hb as (a & b & Hab & -> & ->). done.
Qed.

Lemma summary_ties_keep_order_witness :
  let rows := sorted_rows [example_ab 1 2] [example_ab 3 1] ["A"; "B"] in
  (0 < 1)%nat ∧
  (∃ ri rj, rows !! 0%nat = Some ri ∧ rows !! 1%nat = Some rj ∧
            (_combined ri == _combined rj)%Q ∧
            before ["A"; "B"] (model (fields ri)) (model (fields rj))).
Proof.
  intros rows.
  assert (0 < 1)%nat as Hij by lia.
  destruct (rows !! 0%nat) as [ri|] eqn:Hi; [|by vm_compute in Hi].
  destruct (rows !! 1%nat) as [rj|] eqn:Hj; [|by vm_compute in Hj].
  assert (_combined ri == _combined rj)%Q as Heq.
  { vm_compute in Hi, Hj. inversion Hi; inversion Hj; subst. reflexivity. }
  split; [exact Hij|]. exists ri, rj.
  split; [done|]. split; [done|]. split; [exact Heq|].
  exact (summary_ties_keep_order [example_ab 1 2] [example_ab 3 1] ["A"; "B"]
           0 1 ri rj Hij Hi Hj Heq).
Defined.

Section list_sort_id.
Context {A : Type} (key : A → Q).

Lemma sort_insert_HdRel (x : A) l :
  HdRel (λ a b, (key a <= key b)%Q) x l → sort_insert key x l = x :: l.
Proof.
  intros [|y l' Hxy]; simpl; [done|].
  by rewrite (proj2 (Qle_bool_iff _ _) Hxy).
Qed.

(** Sorting a list that is already in order returns it unchanged. *)
Lemma list_sort_id l :
  Sorted (λ a b, (key a <= key b)%Q) l → list_sort key l = l.
Proof.
  induction 1 as [|x l Hl IH Hx]; simpl; [done|].
  rewrite IH. by apply sort_insert_HdRel.
Qed.
End list_sort_id.

Lemma avg_metric_and_rank_nil models m :
  m ∈ models →
  (avg_metric_and_rank [] models).1 !!! m = None ∧
  (avg_metric_and_rank [] models).2 !!! m = None.
Proof.
  intros Hin. unfold avg_metric_and_rank. simpl. split.
  - rewrite lookup_total_alt, avg_metric_of_lookup by done. simpl.
    unfold collect_vals. simpl.
    rewrite lookup_total_alt, init_dict_lookup, decide_True by done. done.
  - rewrite avg_rank_of_lookup, decide_True by done.
    unfold rank_totals. simpl.
    rewrite lookup_total_alt, init_dict_lookup, decide_True by done. done.
Qed.

(** X5. Without any record, the summary lists the models in the order of
    the model list, every numeric field [None]; the first three still get
    their medals. *)
Theorem compute_summary_nil models :
  length (compute_summary [] [] models) = length models ∧
  ∀ i m, models !! i = Some m →
    compute_summary [] [] models !! i
    = Some (mkEntry (match medals !! i with
                     | Some glyph => (glyph ++ " " ++ m)%string
                     | None => m
                     end) None None None None).
Proof.
  assert (sorted_rows [] [] models = empty_row <$> models) as Hrows.
  { unfold sorted_rows. rewrite summary_rows_eq.
    rewrite (list_fmap_ext _ empty_row models).
    - apply list_sort_id.
      induction models as [|m ms IH]; [constructor|].
      rewrite fmap_cons. constructor; [done|].
      destruct ms; constructor. simpl. apply Qle_refl.
    - intros k m Hm. apply list_elem_of_lookup_2 in Hm.
      destruct (avg_metric_and_rank_nil models m Hm) as [Ha Hr].
      unfold model_row, summary_row, empty_row. by rewrite Ha, Hr. }
  split.
  - unfold compute_summary, enumerate.
    rewrite Hrows, length_fmap, length_zip, length_seq, Nat.min_id.
    by rewrite length_fmap.
  - intros i m Hm. rewrite compute_summary_lookup, Hrows, list_lookup_fmap, Hm.
    simpl. f_equal.
    pose proof (decorate_model i (empty_row m)) as Hmodel.
    destruct (decorate_fields i (empty_row m)) as (H1 & H2 & H3 & H4).
    destruct (decorate (i, empty_row m)) as [mo a1 a2 a3 a4]. simpl in *.
    by subst.
Qed.

Lemma compute_summary_nil_witness :
  MODELS !! 0%nat = Some "AutoARIMA" ∧
  compute_summary [] [] MODELS !! 0%nat
  = Some (mkEntry (medal "135" ++ " AutoARIMA")%string None None None None).
Proof.
  assert (MODELS !! 0%nat = Some "AutoARIMA") as Hm by reflexivity.
  split; [exact Hm|].
  exact (proj2 (compute_summary_nil MODELS) 0%nat "AutoARIMA" Hm).
Defined.

(** ** The filter as an operation *)

Lemma sorted_set_last_intro (xs : list string) x :
  x ∈ xs → (∀ c, c ∈ xs → String.le c x) → last (sorted_set xs) = Some x.
Proof.
  intros Hx Hmax.
  destruct (last (sorted_set xs)) as [y|] eqn:Hlast.
  - apply sorted_set_last in Hlast as [Hy Hle]. f_equal.
    apply (anti_symm String.le); [by apply Hmax|by apply Hle].
  - apply last_None in Hlast. apply (proj1 (sorted_set_nil xs)) in Hlast.
    subst xs.
    by apply elem_of_nil in Hx.
Qed.

Lemma keep_within_parses threshold (records out : list record) :
  keep_within threshold records = Some out →
  Forall (λ r, is_Some (parse_date (cutoff r))) records.
Proof.
  revert out. induction records as [|r records IH]; intros out Hk; [constructor|].
  simpl in Hk. unfold is_within_3_months in Hk.
  destruct (parse_date (cutoff r)) as [d|] eqn:Hd; [|done]. simpl in Hk.
  destruct (keep_within threshold records) as [rest|]; [|done].
  constructor; [by eexists|]. by eapply IH.
Qed.

Lemma keep_within_None threshold (records : list record) :
  Exists (λ r, parse_date (cutoff r) = None) records →
  keep_within threshold records = None.
Proof.
  induction 1 as [r records Hr|r records _ IH]; simpl.
  - unfold is_within_3_months. by rewrite Hr.
  - rewrite IH. by destruct (is_within_3_months threshold (cutoff r)).
Qed.

Lemma keep_within_filter threshold (records : list record) :
  Forall (λ r, is_Some (parse_date (cutoff r))) records →
  keep_within threshold records
  = Some (filter (λ r, on_or_after threshold r) records).
Proof.
  intros Hall. destruct (keep_within_is_Some threshold records Hall) as [out Hout].
  rewrite Hout. f_equal. by apply keep_within_inv.
Qed.

Lemma filter_latest_kept (mase_records crps_records : list record)
    latest latest_date :
  last (sorted_set (cutoff <$> mase_records ++ crps_records)) = Some latest →
  parse_date latest = Some latest_date →
  last (sorted_set
          (cutoff <$> filter (λ r, on_or_after (latest_date - 90) r) mase_records
                      ++ filter (λ r, on_or_after (latest_date - 90) r)
                           crps_records))
  = Some latest.
Proof.
  intros Hlast Hdate. apply sorted_set_last in Hlast as [Hin Hmax].
  apply sorted_set_last_intro.
  - apply list_elem_of_fmap_1 in Hin as (r & -> & Hr).
    apply list_elem_of_fmap_2.
    assert (on_or_after (latest_date - 90) r) as Hon.
    { apply on_or_after_iff. exists latest_date. split; [done|lia]. }
    apply elem_of_app. apply elem_of_app in Hr as [Hr|Hr]; [left|right];
      by apply list_elem_of_filter.
  - intros c Hc. apply Hmax.
    apply list_elem_of_fmap_1 in Hc as (r & -> & Hr).
    apply list_elem_of_fmap_2.
    apply elem_of_app. apply elem_of_app in Hr as [Hr|Hr]; [left|right];
      by apply list_elem_of_filter in Hr as [_ ?].
Qed.

Lemma Forall_filter_keep {A} (P Q : A → Prop) `{!∀ x, Decision (Q x)}
    (l : list A) :
  Forall P l → Forall P (filter Q l).
Proof.
  rewrite !Forall_forall. intros Hall x [_ Hx]%list_elem_of_filter. by apply Hall.
Qed.

(** X6. The time-window filter is idempotent: filtering lists it has
    already filtered returns them unchanged. *)
Theorem filter_last_3_months_idempotent
    (mase_records crps_records mase' crps' : list record) :
  filter_last_3_months mase_records crps_records = Some (mase', crps') →
  filter_last_3_months mase' crps' = Some (mase', crps').
Proof.
  intros Hf.
  destruct (decide (mase_records ++ crps_records = [])) as [Hnil|Hne].
  - apply app_eq_nil in Hnil as [-> ->]. by inversion Hf.
  - pose proof Hf as Hf'. unfold filter_last_3_months in Hf'.
    apply filter_last_3_months_inv in Hf
      as (latest & latest_date & Hlast & Hdate & Hd91 & -> & ->); [|done].
    rewrite Hlast, Hdate in Hf'. simpl in Hf'. unfold minus_days in Hf'.
    rewrite (proj2 (Z.leb_le 1 (latest_date - 90))) in Hf' by lia.
    simpl in Hf'.
    destruct (keep_within (latest_date - 90) mase_records) as [m|] eqn:Hm;
      [|done].
    destruct (keep_within (latest_date - 90) crps_records) as [c|] eqn:Hc;
      [|done].
    apply keep_within_parses in Hm, Hc.
    unfold filter_last_3_months.
    rewrite (filter_latest_kept _ _ _ _ Hlast Hdate), Hdate. simpl.
    unfold minus_days. rewrite (proj2 (Z.leb_le 1 (latest_date - 90))) by lia.
    simpl.
    rewrite !keep_within_filter by (by apply Forall_filter_keep).
    simpl. by rewrite !list_filter_filter_l by done.
Qed.

Lemma filter_last_3_months_idempotent_witness :
  let mase_records := [example_cutoff_record "2026-01-01-00";
                       example_cutoff_record "2025-10-01-00"] in
  let crps_records := [example_cutoff_record "2026-02-12-00"] in
  let mase' := [example_cutoff_record "2026-01-01-00"] in
  filter_last_3_months mase_records crps_records = Some (mase', crps_records) ∧
  filter_last_3_months mase' crps_records = Some (mase', crps_records).
Proof.
  intros mase_records crps_records mase'.
  assert (filter_last_3_months mase_records crps_records
          = Some (mase', crps_records)) as Hf by (vm_compute; reflexivity).
  split; [exact Hf|].
  exact (filter_last_3_months_idempotent _ _ _ _ Hf).
Defined.

(** X7. On cutoffs written in ASCII, of at most 4300 characters, the filter
    returns exactly when there is no record at all, or every cutoff of both
    lists reads as a date and the date of the greatest cutoff string is at
    least 90 days after 0001-01-01.  One unreadable cutoff anywhere makes
    the whole filter raise. *)
Theorem filter_last_3_months_returns (mase_records crps_records : list record) :
  Forall (λ r, ascii_text (cutoff r)) (mase_records ++ crps_records) →
  is_Some (filter_last_3_months mase_records crps_records) ↔
  mase_records ++ crps_records = [] ∨
  (Forall (λ r, is_Some (parse_date (cutoff r)))
          (mase_records ++ crps_records) ∧
   ∀ latest latest_date,
     last (sorted_set (cutoff <$> mase_records ++ crps_records)) = Some latest →
     parse_date latest = Some latest_date → (91 ≤ latest_date)%Z).
Proof.
  intros _. split.
  - intros [[mase' crps'] Hf].
    destruct (decide (mase_records ++ crps_records = [])) as [|Hne]; [by left|].
    right. pose proof Hf as Hf'. unfold filter_last_3_months in Hf'.
    apply filter_last_3_months_inv in Hf
      as (latest & latest_date & Hlast & Hdate & Hd91 & _ & _); [|done].
    rewrite Hlast, Hdate in Hf'. simpl in Hf'. unfold minus_days in Hf'.
    rewrite (proj2 (Z.leb_le 1 (latest_date - 90))) in Hf' by lia.
    simpl in Hf'.
    destruct (keep_within (latest_date - 90) mase_records) as [m|] eqn:Hm;
      [|done].
    destruct (keep_within (latest_date - 90) crps_records) as [c|] eqn:Hc;
      [|done].
    apply keep_within_parses in Hm, Hc. split.
    + apply Forall_app. by split.
    + intros l d Hl Hd. congruence.
  - intros [Hnil|[Hall Hlate]].
    + apply app_eq_nil in Hnil as [-> ->]. by eexists.
    + unfold filter_last_3_months.
      destruct (last (sorted_set (cutoff <$> mase_records ++ crps_records)))
        as [latest|] eqn:Hlast; [|by eexists].
      pose proof Hlast as Hin. apply sorted_set_last in Hin as [Hin _].
      apply list_elem_of_fmap_1 in Hin as (r & -> & Hr).
      rewrite Forall_forall in Hall. destruct (Hall r Hr) as [d Hd].
      rewrite Hd. simpl. unfold minus_days.
      rewrite (proj2 (Z.leb_le 1 (d - 90))) by (specialize (Hlate _ _ eq_refl Hd); lia).
      simpl.
      assert (Forall (λ r, is_Some (parse_date (cutoff r))) mase_records) as Hm.
      { apply Forall_forall. intros x Hx. apply Hall. apply elem_of_app. by left. }
      assert (Forall (λ r, is_Some (parse_date (cutoff r))) crps_records) as Hc.
      { apply Forall_forall. intros x Hx. apply Hall. apply elem_of_app. by right. }
      rewrite !keep_within_filter by done. by eexists.
Qed.

Lemma filter_last_3_months_returns_witness :
  let mase_records := [example_cutoff_record "2026-01-01-00";
                       example_cutoff_record "not-a-date"] in
  let crps_records := [example_cutoff_record "2026-02-12-00"] in
  Forall (λ r, ascii_text (cutoff r)) (mase_records ++ crps_records) ∧
  ¬ Forall (λ r, is_Some (parse_date (cutoff r)))
           (mase_records ++ crps_records) ∧
  filter_last_3_months mase_records crps_records = None.
Proof.
  intros mase_records crps_records.
  assert (Forall (λ r, ascii_text (cutoff r)) (mase_records ++ crps_records))
    as Hascii.
  { repeat (apply Forall_cons; split;
            [split; [apply (bool_decide_unpack _); vm_compute; exact I
                    |vm_compute; lia]|]).
    apply Forall_nil. done. }
  assert (filter_last_3_months mase_records crps_records = None) as Hf
    by (vm_compute; reflexivity).
  split; [exact Hascii|]. split; [|exact Hf].
  intros Hall.
  destruct (proj2 (filter_last_3_months_returns mase_records crps_records
                     Hascii))
    as [x Hx].
  - right. split; [exact Hall|].
    intros latest latest_date Hl Hd. vm_compute in Hl. inversion Hl; subst.
    vm_compute in Hd. done.
  - rewrite Hf in Hx. done.
Defined.

(** X8. In the dataset [main] builds, the last entry of [cutoffs] is the
    greatest cutoff string of the records before filtering, and every entry
    of [cutoffs] reads as a date no more than 90 days before the date of that
    last entry. *)
Theorem dataset_cutoffs_window (mase_records crps_records : list record) data :
  main_data mase_records crps_records = Some data →
  last (Dataset.cutoffs data)
  = last (sorted_set (cutoff <$> mase_records ++ crps_records)) ∧
  ∀ latest c,
    last (Dataset.cutoffs data) = Some latest → c ∈ Dataset.cutoffs data →
    ∃ d latest_date,
      parse_date c = Some d ∧ parse_date latest = Some latest_date ∧
      (latest_date - 90 ≤ d)%Z.
Proof.
  unfold main_data. intros Hmain.
  destruct (filter_last_3_months mase_records crps_records)
    as [[mase' crps']|] eqn:Hf; [|done].
  simpl in Hmain. inversion Hmain; subst data. clear Hmain.
  unfold build_data. simpl.
  destruct (decide (mase_records ++ crps_records = [])) as [Hnil|Hne].
  - apply app_eq_nil in Hnil as [-> ->]. inversion Hf; subst.
    split; [done|]. intros latest c Hl. done.
  - apply filter_last_3_months_inv in Hf
      as (latest & latest_date & Hlast & Hdate & Hd91 & -> & ->); [|done].
    pose proof (filter_latest_kept _ _ _ _ Hlast Hdate) as Hkept.
    split; [by rewrite Hkept, Hlast|].
    intros l c Hl Hc. rewrite Hkept in Hl. inversion Hl; subst l.
    apply elem_of_sorted_set, list_elem_of_fmap_1 in Hc as (r & -> & Hr).
    assert (on_or_after (latest_date - 90) r) as Hon.
    { apply elem_of_app in Hr as [Hr|Hr];
        by apply list_elem_of_filter in Hr as [? _]. }
    apply on_or_after_iff in Hon as (d & Hd & Hle).
    by exists d, latest_date.
Qed.

Lemma dataset_cutoffs_window_witness :
  let mase_records := [example_cutoff_record "2026-01-01-00";
                       example_cutoff_record "2025-10-01-00"] in
  let crps_records := [example_cutoff_record "2026-02-12-00"] in
  let data := build_data [example_cutoff_record "2026-01-01-00"]
                         crps_records MODELS in
  main_data mase_records crps_records = Some data ∧
  last (Dataset.cutoffs data)
  = last (sorted_set (cutoff <$> mase_records ++ crps_records)).
Proof.
  intros mase_records crps_records data.
  assert (main_data mase_records crps_records = Some data) as Hmain
    by (vm_compute; reflexivity).
  split; [exact Hmain|].
  exact (proj1 (dataset_cutoffs_window mase_records crps_records data Hmain)).
Defined.

(** ** The normaliser as an operation *)

Section parse_rows_more.
Context {C : Type}.
Implicit Types (row : list C) (mc : list string).

Lemma fill_values_ext row1 row2 mc k (acc : gmap string C) :
  (∀ i, (i < length mc)%nat →
        row1 !! (3 + k + i)%nat = row2 !! (3 + k + i)%nat) →
  fill_values row1 (zip (seq k (length mc)) mc) acc
  = fill_values row2 (zip (seq k (length mc)) mc) acc.
Proof.
  revert k acc. induction mc as [|m mc IH]; intros k acc Hrows; simpl; [done|].
  pose proof (Hrows 0%nat) as H0. simpl in H0.
  rewrite Nat.add_0_r in H0. rewrite <- H0 by lia.
  destruct (row1 !! S (S (S k))) as [val|]; simpl; [|done].
  apply IH. intros i Hi.
  replace (3 + S k + i)%nat with (3 + k + S i)%nat by lia.
  apply Hrows. simpl. lia.
Qed.

Lemma parse_row_take mc row :
  parse_row mc (take (3 + length mc) row) = parse_row mc row.
Proof.
  unfold parse_row, enumerate.
  rewrite !lookup_take_lt by lia.
  rewrite (fill_values_ext (take (3 + length mc) row) row); [done|].
  intros i Hi. apply lookup_take_lt. lia.
Qed.

Lemma parse_loop_acc mc (rows : list (list C)) (sofar : list (MetricRecord C C)) :
  parse_loop mc rows sofar = (app sofar) <$> parse_loop mc rows [].
Proof.
  revert sofar. induction rows as [|row rows IH]; intros sofar; simpl.
  - by rewrite app_nil_r.
  - destruct (parse_row mc row) as [r|]; simpl; [|done].
    rewrite (IH (sofar ++ [r])), (IH [r]).
    destruct (parse_loop mc rows []) as [rest|]; simpl; [|done].
    by rewrite <- app_assoc.
Qed.

Lemma parse_loop_app mc (rows1 rows2 : list (list C)) sofar :
  parse_loop mc (rows1 ++ rows2) sofar
  = parse_loop mc rows1 sofar ≫= parse_loop mc rows2.
Proof.
  revert sofar. induction rows1 as [|row rows1 IH]; intros sofar; simpl; [done|].
  destruct (parse_row mc row) as [r|]; simpl; [|done]. apply IH.
Qed.

Lemma parse_loop_fmap mc (f : list C → list C) (rows : list (list C)) sofar :
  (∀ row, parse_row mc (f row) = parse_row mc row) →
  parse_loop mc (f <$> rows) sofar = parse_loop mc rows sofar.
Proof.
  intros Hf. revert sofar. induction rows as [|row rows IH]; intros sofar;
    [done|].
  rewrite fmap_cons. simpl. rewrite Hf.
  destruct (parse_row mc row); simpl; [apply IH|done].
Qed.
End parse_rows_more.

(** X9. [parse_rows] never reads a cell beyond the columns named by the
    headers (and the three key columns): cutting every row down to that many
    cells changes nothing, whether it returns or raises. *)
Theorem parse_rows_ignores_extra_cells {C} headers (raw_rows : list (list C)) :
  parse_rows headers (take (3 `max` length headers) <$> raw_rows)
  = parse_rows headers raw_rows.
Proof.
  unfold parse_rows.
  rewrite (parse_loop_fmap (drop 3 headers)); [done|].
  intros row.
  replace (3 `max` length headers)%nat with (3 + length (drop 3 headers))%nat
    by (rewrite length_drop; lia).
  apply parse_row_take.
Qed.

(** X10. [parse_rows] works row by row: the records of two tables put one
    after the other are the records of the first followed by those of the
    second, and the whole raises as soon as one part does. *)
Theorem parse_rows_app {C} headers (rows1 rows2 : list (list C)) :
  parse_rows headers (rows1 ++ rows2)
  = (t1 ← parse_rows headers rows1;
     t2 ← parse_rows headers rows2;
     Some (t1.1 ++ t2.1, drop 3 headers)).
Proof.
  unfold parse_rows. rewrite parse_loop_app.
  destruct (parse_loop (drop 3 headers) rows1 []) as [recs1|]; simpl; [|done].
  rewrite parse_loop_acc.
  by destruct (parse_loop (drop 3 headers) rows2 []).
Qed.

(** ** The renderer as an operation *)

Section replace_more.
Local Open Scope string_scope.
Local Arguments String.append !_ _ / : simpl nomatch.
Implicit Types (old new a b : string).

(** [replace] rewrites the leftmost occurrence and goes on after it. *)
Lemma replace_leftmost old new a b :
  old ≠ EmptyString →
  (∀ a1 a2, a = (a1 ++ a2)%string → a2 ≠ EmptyString →
            String.prefix old (a2 ++ old ++ b)%string = false) →
  replace old new (a ++ old ++ b)%string
  = (a ++ new ++ replace old new b)%string.
Proof.
  intros Hne. unfold replace. induction a as [|c a IH]; intros Hfree.
  - cbn [String.append]. destruct old as [|o old]; [done|].
    change (String o old ++ b)%string with (String o (old ++ b)).
    assert (String.prefix (String o old) (String o (old ++ b)) = true) as Hp.
    { apply prefix_app. by exists b. }
    cbn [replace_from]. rewrite Hp.
    replace (String.length (String o old) - 1)%nat with (String.length old)
      by (cbn [String.length]; lia).
    by rewrite replace_from_skip.
  - assert (String.prefix old (String c a ++ old ++ b) = false) as Hp
      by (by apply (Hfree EmptyString (String c a))).
    cbn [String.append] in *. cbn [replace_from]. rewrite Hp.
    rewrite IH; [done|].
    intros a1 a2 -> Ha2. by apply (Hfree (String c a1) a2).
Qed.
End replace_more.

(** X11. [render] replaces every occurrence it meets from left to right, not
    only one: when the first occurrence of the token starts after [a], the
    output is [a], the data line, and then the rest of the template rendered
    the same way. *)
Theorem render_leftmost data_json (a b : string) :
  (∀ a1 a2, a = (a1 ++ a2)%string → a2 ≠ EmptyString →
            String.prefix PLACEHOLDER (a2 ++ PLACEHOLDER ++ b)%string = false) →
  render data_json (a ++ PLACEHOLDER ++ b)%string
  = inr (a ++ data_line data_json
           ++ replace PLACEHOLDER (data_line data_json) b)%string.
Proof.
  intros Hfree. unfold render.
  assert (contains PLACEHOLDER (a ++ PLACEHOLDER ++ b)%string = true) as ->.
  { apply contains_app. by exists a, b. }
  simpl negb. cbv iota. f_equal. by apply replace_leftmost.
Qed.

Lemma render_leftmost_witness :
  (∀ a1 a2, "<a>" = (a1 ++ a2)%string → a2 ≠ EmptyString →
     String.prefix PLACEHOLDER
       (a2 ++ PLACEHOLDER ++ "<b>/* __DATA_PLACEHOLDER__ */<c>")%string = false) ∧
  render "{}" "<a>/* __DATA_PLACEHOLDER__ */<b>/* __DATA_PLACEHOLDER__ */<c>"
  = inr "<a>const DATA = {};<b>const DATA = {};<c>".
Proof.
  assert (∀ a1 a2, "<a>" = (a1 ++ a2)%string → a2 ≠ EmptyString →
     String.prefix PLACEHOLDER
       (a2 ++ PLACEHOLDER ++ "<b>/* __DATA_PLACEHOLDER__ */<c>")%string = false)
    as Hfree.
  { intros a1 a2 Ha Hne.
    destruct a1 as [|x1 [|x2 [|x3 [|x4 a1]]]];
      cbv [String.append] in Ha; fold String.append in Ha;
      inversion Ha; subst; try reflexivity; done. }
  split; [exact Hfree|].
  exact (render_leftmost "{}" "<a>" "<b>/* __DATA_PLACEHOLDER__ */<c>" Hfree).
Defined.

(** ** Fetching the MASE table *)

Lemma find_dataframe_None comps :
  find_dataframe comps = Some None ↔
  Forall (λ c, dataframe_value c = Some None) comps.
Proof.
  induction comps as [|c comps IH]; simpl.
  - split; [constructor|done].
  - destruct (dataframe_value c) as [[val|]|] eqn:Hc; simpl.
    + split; [done|]. intros [? _]%Forall_cons. congruence.
    + rewrite IH. split; [by constructor|]. by intros [_ ?]%Forall_cons.
    + split; [done|]. intros [? _]%Forall_cons. congruence.
Qed.

Lemma find_dataframe_Some comps val :
  find_dataframe comps = Some (Some val) ↔
  ∃ pre comp post,
    comps = pre ++ comp :: post ∧
    Forall (λ c, dataframe_value c = Some None) pre ∧
    dataframe_value comp = Some (Some val).
Proof.
  induction comps as [|c comps IH]; simpl.
  - split; [done|]. intros (pre & comp & post & Heq & _). by destruct pre.
  - destruct (dataframe_value c) as [[v|]|] eqn:Hc; simpl.
    + split.
      * intros Hv. inversion Hv; subst v. by exists [], c, comps.
      * intros ([|c' pre] & comp & post & Heq & Hpre & Hcomp);
          inversion Heq; subst; [congruence|].
        apply Forall_cons in Hpre as [? _]. congruence.
    + rewrite IH. split.
      * intros (pre & comp & post & -> & Hpre & Hcomp).
        exists (c :: pre), comp, post. split; [done|]. split; [|done].
        by constructor.
      * intros ([|c' pre] & comp & post & Heq & Hpre & Hcomp);
          inversion Heq; subst; [congruence|].
        apply Forall_cons in Hpre as [_ Hpre]. by exists pre, comp, post.
    + split; [done|].
      intros ([|c' pre] & comp & post & Heq & Hpre & Hcomp);
        inversion Heq; subst; [congruence|].
      apply Forall_cons in Hpre as [? _]. congruence.
Qed.

Lemma dataframe_value_Some comp val :
  dataframe_value comp = Some (Some val) →
  (∃ t, comp_type comp = Some t ∧ json_eq_str t "dataframe" = true) ∧
  truthy val = true ∧
  ∃ headers n,
    py_getitem "headers" val = Some headers ∧
    is_Some (py_getitem "data" val) ∧
    py_len headers = Some n ∧ (15 ≤ n)%nat.
Proof.
  unfold dataframe_value. intros Hv.
  destruct (comp_type comp) as [t|] eqn:Ht; [|done]. cbn [mbind option_bind] in Hv.
  destruct (json_eq_str t "dataframe") eqn:Heq; [|done].
  destruct (py_get_or "props" (JObj []) comp) as [props|]; [|done]. cbn [mbind option_bind] in Hv.
  destruct (py_get "value" props) as [v|]; [|done]. cbn [mbind option_bind] in Hv.
  destruct (truthy v) eqn:Htruthy; [|done].
  destruct (py_in "headers" v) as [[|]|]; cbn [mbind option_bind] in Hv; try done.
  destruct (py_in "data" v) as [[|]|] eqn:Hdata; cbn [mbind option_bind] in Hv; try done.
  destruct (py_getitem "headers" v) as [headers|] eqn:Hh; [|done]. cbn [mbind option_bind] in Hv.
  destruct (py_len headers) as [n|] eqn:Hn; [|done].
  cbn [mbind option_bind] in Hv.
  destruct (Nat.leb_spec 15 n) as [Hlen|Hlen]; [|done].
  inversion Hv; subst v. split; [by exists t|]. split; [done|].
  exists headers, n. split; [done|]. split; [|by split].
  destruct val as [| | | | |members]; try done.
  cbn [py_in] in Hdata. cbn [py_getitem]. injection Hdata as Hd.
  by apply bool_decide_eq_true_1 in Hd.
Qed.

(** X12. When [fetch_mase_data] returns, the table comes from the first
    component of the payload that passes its test: the components before it
    were examined and skipped, it is declared as a dataframe, and its value
    holds the returned [headers] and [data], with at least 15 headers.  The
    shorter summary table of the same payload is never returned. *)
Theorem fetch_mase_data_returns config headers rows :
  fetch_mase_data config = Returns (headers, rows) →
  ∃ comps pre comp post val n,
    py_get_or "components" (JArr []) config = Some comps ∧
    py_iter comps = Some (pre ++ comp :: post) ∧
    Forall (λ c, dataframe_value c = Some None) pre ∧
    dataframe_value comp = Some (Some val) ∧
    (∃ t, comp_type comp = Some t ∧ json_eq_str t "dataframe" = true) ∧
    py_getitem "headers" val = Some headers ∧
    py_getitem "data" val = Some rows ∧
    py_len headers = Some n ∧ (15 ≤ n)%nat.
Proof.
  unfold fetch_mase_data. intros Hf.
  destruct (py_get_or "components" (JArr []) config) as [comps|] eqn:Hcomps;
    [|done].
  simpl in Hf.
  destruct (py_iter comps) as [items|] eqn:Hitems; [|done]. simpl in Hf.
  destruct (find_dataframe items) as [[val|]|] eqn:Hfind; [|done|done].
  apply find_dataframe_Some in Hfind as (pre & comp & post & -> & Hpre & Hcomp).
  pose proof (dataframe_value_Some comp val Hcomp)
    as (Htype & _ & hs & n & Hhs & _ & Hn & Hlen).
  rewrite Hhs in Hf. simpl in Hf.
  destruct (py_getitem "data" val) as [d|] eqn:Hd; [|done]. simpl in Hf.
  destruct (py_len d); [|done]. simpl in Hf. rewrite Hn in Hf. simpl in Hf.
  inversion Hf; subst. exists comps, pre, comp, post, val, n.
  repeat (split; [done|]). done.
Qed.

(** X13. [fetch_mase_data] exits with [DataNotFound] exactly when the
    components can be enumerated and every one of them is examined without
    error and skipped; in particular when the payload has no [components]
    key. *)
Theorem fetch_mase_data_not_found config :
  fetch_mase_data config = Exits DataNotFound ↔
  ∃ comps items,
    py_get_or "components" (JArr []) config = Some comps ∧
    py_iter comps = Some items ∧
    Forall (λ c, dataframe_value c = Some None) items.
Proof.
  unfold fetch_mase_data. split.
  - intros Hf.
    destruct (py_get_or "components" (JArr []) config) as [comps|]; [|done].
    cbn [mbind option_bind] in Hf.
    destruct (py_iter comps) as [items|] eqn:Hitems; [|done].
    cbn [mbind option_bind] in Hf.
    destruct (find_dataframe items) as [[val|]|] eqn:Hfind.
    + destruct (_ ≫= _); discriminate.
    + exists comps, items. split; [done|]. split; [done|].
      by apply find_dataframe_None.
    + discriminate.
  - intros (comps & items & -> & Hitems & Hall). simpl. rewrite Hitems. simpl.
    by rewrite (proj2 (find_dataframe_None items) Hall).
Qed.

Lemma fetch_mase_data_not_found_witness :
  fetch_mase_data (JObj [("version", JStr "5")]) = Exits DataNotFound.
Proof.
  apply fetch_mase_data_not_found. exists (JArr []), [].
  split; [reflexivity|]. split; [reflexivity|constructor].
Defined.

Lemma dataframe_value_component desc :
  dataframe_value (component_json desc)
  = Some (if decide (is_mase_table desc)
          then Some (table_json desc.1.2 desc.2) else None).
Proof.
  destruct desc as [[t hs] rows]. unfold is_mase_table. cbn [fst snd].
  assert (dataframe_value (component_json (t, hs, rows))
          = if String.eqb t "dataframe"
            then Some (if (15 <=? length (JStr <$> hs))%nat
                       then Some (table_json hs rows) else None)
            else Some None) as -> by reflexivity.
  rewrite length_fmap.
  destruct (String.eqb_spec t "dataframe") as [->|Hne].
  - destruct (Nat.leb_spec 15 (length hs)).
    + by rewrite decide_True.
    + rewrite decide_False; [done|]. intros [_ ?]. lia.
  - rewrite decide_False; [done|]. by intros [? _].
Qed.

(** X14. On a payload of the documented shape, [fetch_mase_data] returns the
    headers and rows of the first component that is a dataframe with at
    least 15 headers, and exits with [DataNotFound] when there is none. *)
Theorem fetch_mase_data_selects descs :
  fetch_mase_data (config_json descs)
  = match list_find is_mase_table descs with
    | Some (_, desc) => Returns (JArr (JStr <$> desc.1.2), JArr desc.2)
    | None => Exits DataNotFound
    end.
Proof.
  unfold fetch_mase_data, config_json. simpl.
  induction descs as [|desc descs IH]; [done|].
  rewrite fmap_cons. cbn [find_dataframe].
  rewrite dataframe_value_component. cbn [list_find].
  destruct (decide (is_mase_table desc)) as [Hok|Hno]; simpl.
  - done.
  - destruct (find_dataframe (component_json <$> descs)) as [[val|]|];
      destruct (list_find is_mase_table descs) as [[i d]|]; simpl in *;
      done.
Qed.

Lemma fetch_mase_data_returns_witness :
  fetch_mase_data example_config
  = Returns (JArr (JStr <$> example_headers), JArr [JArr [JStr "s1"]]) ∧
  ∃ comps pre comp post val n,
    py_get_or "components" (JArr []) example_config = Some comps ∧
    py_iter comps = Some (pre ++ comp :: post) ∧
    Forall (λ c, dataframe_value c = Some None) pre ∧
    dataframe_value comp = Some (Some val) ∧
    (∃ t, comp_type comp = Some t ∧ json_eq_str t "dataframe" = true) ∧
    py_getitem "headers" val = Some (JArr (JStr <$> example_headers)) ∧
    py_getitem "data" val = Some (JArr [JArr [JStr "s1"]]) ∧
    py_len (JArr (JStr <$> example_headers)) = Some n ∧ (15 ≤ n)%nat.
Proof.
  assert (fetch_mase_data example_config
          = Returns (JArr (JStr <$> example_headers), JArr [JArr [JStr "s1"]]))
    as Hf by (vm_compute; reflexivity).
  split; [exact Hf|].
  exact (fetch_mase_data_returns example_config _ _ Hf).
Defined.

(** ** Fetching the CRPS table *)

Section fetch_crps_facts.
Context (json_loads : string → option json).

Lemma scan_lines_nothing lines :
  scan_lines json_loads lines = Some None ↔
  Forall (λ l, scan_line json_loads l = Some None) lines.
Proof.
  induction lines as [|l lines IH]; simpl.
  - split; [constructor|done].
  - destruct (scan_line json_loads l) as [[t|]|] eqn:Hl; simpl.
    + split; [done|]. intros [? _]%Forall_cons. congruence.
    + rewrite IH. split; [by constructor|]. by intros [_ ?]%Forall_cons.
    + split; [done|]. intros [? _]%Forall_cons. congruence.
Qed.

Lemma scan_lines_app_nothing lines1 lines2 :
  Forall (λ l, scan_line json_loads l = Some None) lines1 →
  scan_lines json_loads (lines1 ++ lines2) = scan_lines json_loads lines2.
Proof.
  induction 1 as [|l lines1 Hl _ IH]; simpl; [done|]. by rewrite Hl.
Qed.

Lemma scan_lines_found lines table :
  scan_lines json_loads lines = Some (Some table) ↔
  ∃ pre line post,
    lines = pre ++ line :: post ∧
    Forall (λ l, scan_line json_loads l = Some None) pre ∧
    scan_line json_loads line = Some (Some table).
Proof.
  induction lines as [|l lines IH]; simpl.
  - split; [done|]. intros (pre & line & post & Heq & _). by destruct pre.
  - destruct (scan_line json_loads l) as [[t|]|] eqn:Hl; simpl.
    + split.
      * intros Ht. inversion Ht; subst t. by exists [], l, lines.
      * intros ([|l' pre] & line & post & Heq & Hpre & Hline);
          inversion Heq; subst; [congruence|].
        apply Forall_cons in Hpre as [? _]. congruence.
    + rewrite IH. split.
      * intros (pre & line & post & -> & Hpre & Hline).
        exists (l :: pre), line, post. split; [done|]. split; [|done].
        by constructor.
      * intros ([|l' pre] & line & post & Heq & Hpre & Hline);
          inversion Heq; subst; [congruence|].
        apply Forall_cons in Hpre as [_ Hpre]. by exists pre, line, post.
    + split; [done|].
      intros ([|l' pre] & line & post & Heq & Hpre & Hline);
        inversion Heq; subst; [congruence|].
      apply Forall_cons in Hpre as [? _]. congruence.
Qed.

Lemma scan_line_found line headers data :
  scan_line json_loads line = Some (Some (headers, data)) →
  String.prefix "data: " line = true ∧
  ∃ df rest,
    json_loads (str_drop 6 line) = Some (JArr (df :: rest)) ∧
    py_getitem "headers" df = Some headers ∧
    py_getitem "data" df = Some data.
Proof.
  unfold scan_line. intros Hs.
  destruct (String.prefix "data: " line); [|done]. split; [done|].
  destruct (json_loads (str_drop 6 line)) as [result|]; [|done].
  destruct result as [| | | |[|df rest]|]; try done.
  exists df, rest. split; [done|].
  destruct (py_in "headers" df) as [[|]|]; cbn [mbind option_bind] in Hs;
    try done.
  destruct (py_in "data" df) as [[|]|]; cbn [mbind option_bind] in Hs;
    try done.
  destruct (py_getitem "data" df) as [d|]; [|done].
  cbn [mbind option_bind] in Hs.
  destruct (py_len d); [|done]. cbn [mbind option_bind] in Hs.
  destruct (py_getitem "headers" df) as [h|]; [|done].
  cbn [mbind option_bind] in Hs. by inversion Hs.
Qed.

Lemma scan_line_noise line :
  String.prefix "data: " line = false ∨ json_loads (str_drop 6 line) = None →
  scan_line json_loads line = Some None.
Proof.
  unfold scan_line. intros [->| Hbad]; [done|].
  rewrite Hbad. by destruct (String.prefix "data: " line).
Qed.

Context (poll : json → nat → option string).

Lemma poll_loop_spec event_id remaining attempt slept o slept' :
  poll_loop json_loads poll event_id remaining attempt slept = (o, slept') →
  ∃ k, (k ≤ remaining)%nat ∧ slept' = (slept + 3 * k)%nat ∧
       (∀ i, (i < k)%nat →
             no_result json_loads poll event_id (attempt + i)) ∧
       match o with
       | Exits e => e = PollTimeout ∧ k = remaining
       | Returns table =>
           (k < remaining)%nat ∧
           ∃ content, poll event_id (attempt + k)%nat = Some content ∧
                      scan_lines json_loads (str_split "010" content)
                      = Some (Some table)
       | Raises =>
           (k < remaining)%nat ∧
           (poll event_id (attempt + k)%nat = None ∨
            ∃ content, poll event_id (attempt + k)%nat = Some content ∧
                       scan_lines json_loads (str_split "010" content) = None)
       end.
Proof.
  revert attempt slept. induction remaining as [|n IH]; intros attempt slept Hp;
    simpl in Hp.
  - inversion Hp; subst. exists 0%nat. split; [lia|]. split; [lia|].
    split; [intros i Hi; lia|done].
  - destruct (poll event_id attempt) as [content|] eqn:Hpoll.
    + destruct (scan_lines json_loads (str_split "010" content))
        as [[table|]|] eqn:Hscan.
      * inversion Hp; subst. exists 0%nat. split; [lia|]. split; [lia|].
        split; [intros i Hi; lia|]. split; [lia|].
        exists content. by rewrite Nat.add_0_r.
      * apply IH in Hp as (k & Hk & -> & Hnone & Ho).
        exists (S k). split; [lia|]. split; [lia|]. split.
        -- intros [|i] Hi.
           ++ rewrite Nat.add_0_r. by exists content.
           ++ replace (attempt + S i)%nat with (S attempt + i)%nat by lia.
              apply Hnone. lia.
        -- replace (attempt + S k)%nat with (S attempt + k)%nat by lia.
           destruct o as [table|e|]; [|destruct Ho; split; [done|lia]|];
             destruct Ho as [Hlt Ho]; (split; [lia|done]).
      * inversion Hp; subst. exists 0%nat. split; [lia|]. split; [lia|].
        split; [intros i Hi; lia|]. split; [lia|]. right.
        exists content. by rewrite Nat.add_0_r.
    + inversion Hp; subst. exists 0%nat. split; [lia|]. split; [lia|].
      split; [intros i Hi; lia|]. split; [lia|]. left.
      by rewrite Nat.add_0_r.
Qed.

Lemma poll_loop_timeout event_id remaining attempt slept :
  (∀ i, (i < remaining)%nat →
        no_result json_loads poll event_id (attempt + i)) →
  poll_loop json_loads poll event_id remaining attempt slept
  = (Exits PollTimeout, (slept + 3 * remaining)%nat).
Proof.
  revert attempt slept. induction remaining as [|n IH]; intros attempt slept Hall;
    simpl.
  - f_equal. lia.
  - destruct (Hall 0%nat) as (content & Hpoll & Hscan); [lia|].
    rewrite Nat.add_0_r in Hpoll. rewrite Hpoll, Hscan.
    rewrite IH.
    + f_equal. lia.
    + intros i Hi. replace (S attempt + i)%nat with (attempt + S i)%nat by lia.
      apply Hall. lia.
Qed.

Lemma poll_loop_returns event_id remaining attempt slept k content table :
  (k < remaining)%nat →
  (∀ i, (i < k)%nat → no_result json_loads poll event_id (attempt + i)) →
  poll event_id (attempt + k)%nat = Some content →
  scan_lines json_loads (str_split "010" content) = Some (Some table) →
  poll_loop json_loads poll event_id remaining attempt slept
  = (Returns table, (slept + 3 * k)%nat).
Proof.
  revert remaining attempt slept.
  induction k as [|k IH]; intros remaining attempt slept Hk Hnone Hpoll Hscan;
    (destruct remaining as [|n]; [lia|]); simpl.
  - rewrite Nat.add_0_r in Hpoll. rewrite Hpoll, Hscan. f_equal. lia.
  - destruct (Hnone 0%nat) as (c0 & Hp0 & Hs0); [lia|].
    rewrite Nat.add_0_r in Hp0. rewrite Hp0, Hs0.
    rewrite (IH n (S attempt) (slept + 3)%nat); [f_equal; lia|lia| | |done].
    + intros i Hi. replace (S attempt + i)%nat with (attempt + S i)%nat by lia.
      apply Hnone. lia.
    + by replace (S attempt + k)%nat with (attempt + S k)%nat by lia.
Qed.
End fetch_crps_facts.

Lemma poll_loop_ext json_loads poll1 poll2 event_id remaining attempt slept :
  (∀ i, (attempt ≤ i < attempt + remaining)%nat →
        poll1 event_id i = poll2 event_id i) →
  poll_loop json_loads poll1 event_id remaining attempt slept
  = poll_loop json_loads poll2 event_id remaining attempt slept.
Proof.
  revert attempt slept. induction remaining as [|n IH]; intros attempt slept Hext;
    simpl; [done|].
  rewrite <- (Hext attempt) by lia.
  destruct (poll1 event_id attempt) as [content|]; [|done].
  destruct (scan_lines json_loads (str_split "010" content)) as [[t|]|];
    try done.
  apply IH. intros i Hi. apply Hext. lia.
Qed.

(** X15. [fetch_crps_data] exits with [PollTimeout] exactly when the
    submission gave a usable event id and each of the ten polls came back
    without a table; it has then slept 31 seconds. *)
Theorem fetch_crps_data_timeout json_loads poll body slept :
  fetch_crps_data json_loads poll (Some body) = (Exits PollTimeout, slept) ↔
  slept = 31%nat ∧
  ∃ event_id,
    py_get "event_id" body = Some event_id ∧ truthy event_id = true ∧
    ∀ i, (i < 10)%nat → no_result json_loads poll event_id i.
Proof.
  unfold fetch_crps_data. split.
  - intros Hf. destruct (py_get "event_id" body) as [event_id|]; [|done].
    destruct (truthy event_id) eqn:Ht; [|done].
    apply poll_loop_spec in Hf as (k & _ & -> & Hnone & _ & ->).
    split; [done|]. by exists event_id.
  - intros (-> & event_id & -> & -> & Hnone).
    by rewrite poll_loop_timeout.
Qed.

Lemma fetch_crps_data_timeout_witness :
  fetch_crps_data example_loads example_silent_poll
    (Some (JObj [("event_id", JStr "e1")]))
  = (Exits PollTimeout, 31%nat).
Proof.
  apply fetch_crps_data_timeout. split; [reflexivity|].
  exists (JStr "e1"). split; [reflexivity|]. split; [reflexivity|].
  intros i _. exists "event: heartbeat". split; reflexivity.
Defined.

(** X16. [fetch_crps_data] returns a table exactly when the submission gave
    a usable event id and some poll among the first ten carries that table,
    the polls before it having come back without one.  When that is poll
    number [k] (from 0), it has slept [1 + 3 k] seconds. *)
Theorem fetch_crps_data_returns json_loads poll body table slept :
  fetch_crps_data json_loads poll (Some body) = (Returns table, slept) ↔
  ∃ event_id k content,
    py_get "event_id" body = Some event_id ∧ truthy event_id = true ∧
    (k < 10)%nat ∧ slept = (1 + 3 * k)%nat ∧
    (∀ i, (i < k)%nat → no_result json_loads poll event_id i) ∧
    poll event_id k = Some content ∧
    scan_lines json_loads (str_split "010" content) = Some (Some table).
Proof.
  unfold fetch_crps_data. split.
  - intros Hf. destruct (py_get "event_id" body) as [event_id|]; [|done].
    destruct (truthy event_id) eqn:Ht; [|done].
    apply poll_loop_spec in Hf
      as (k & _ & -> & Hnone & Hk & content & Hpoll & Hscan).
    exists event_id, k, content. repeat (split; [done|]). done.
  - intros (event_id & k & content & -> & -> & Hk & -> & Hnone & Hpoll & Hscan).
    by apply poll_loop_returns with (content := content).
Qed.

Lemma fetch_crps_data_returns_witness :
  fetch_crps_data example_loads example_poll
    (Some (JObj [("event_id", JStr "e1")]))
  = (Returns (JArr [JStr "h"], JArr []), 7%nat).
Proof.
  apply fetch_crps_data_returns.
  exists (JStr "e1"), 2%nat,
    ("event: complete" ++ String "010" "data: [table]")%string.
  split; [reflexivity|]. split; [reflexivity|]. split; [lia|].
  split; [reflexivity|]. split; [|split; reflexivity].
  intros i Hi.
  exists ("event: heartbeat" ++ String "010" "data: null")%string.
  destruct i as [|[|i]]; [split; reflexivity|split; reflexivity|lia].
Defined.

(** X17. [fetch_crps_data] issues at most ten polls: what the service would
    answer to an eleventh or later poll has no influence on the result. *)
Theorem fetch_crps_data_ten_polls json_loads poll1 poll2 submit :
  (∀ event_id i, (i < 10)%nat → poll1 event_id i = poll2 event_id i) →
  fetch_crps_data json_loads poll1 submit
  = fetch_crps_data json_loads poll2 submit.
Proof.
  intros Hext. unfold fetch_crps_data.
  destruct submit as [body|]; [|done].
  destruct (py_get "event_id" body) as [event_id|]; [|done].
  destruct (truthy event_id); [|done].
  apply poll_loop_ext. intros i Hi. apply Hext. lia.
Qed.

Lemma fetch_crps_data_ten_polls_witness :
  (∀ event_id i, (i < 10)%nat →
     example_silent_poll event_id i
     = (λ e n, if (n <? 10)%nat then example_silent_poll e n else None)
         event_id i) ∧
  fetch_crps_data example_loads example_silent_poll
    (Some (JObj [("event_id", JStr "e1")]))
  = fetch_crps_data example_loads
      (λ e n, if (n <? 10)%nat then example_silent_poll e n else None)
      (Some (JObj [("event_id", JStr "e1")])).
Proof.
  assert (∀ event_id i, (i < 10)%nat →
     example_silent_poll event_id i
     = (λ e n, if (n <? 10)%nat then example_silent_poll e n else None)
         event_id i) as Hext.
  { intros event_id i Hi. simpl.
    by rewrite (proj2 (Nat.ltb_lt i 10) Hi). }
  split; [exact Hext|].
  exact (fetch_crps_data_ten_polls example_loads _ _ _ Hext).
Defined.

(** X18. When the scan of a response returns a table, it is the table of the
    first line that starts with [data: ] and whose payload decodes to a
    non-empty list with a table first: [headers] and [data] are the entries
    of that first element, and every line before was scanned and passed
    over. *)
Theorem scan_lines_returns json_loads lines headers data :
  scan_lines json_loads lines = Some (Some (headers, data)) →
  ∃ pre line post df rest,
    lines = pre ++ line :: post ∧
    Forall (λ l, scan_line json_loads l = Some None) pre ∧
    String.prefix "data: " line = true ∧
    json_loads (str_drop 6 line) = Some (JArr (df :: rest)) ∧
    py_getitem "headers" df = Some headers ∧
    py_getitem "data" df = Some data.
Proof.
  intros (pre & line & post & -> & Hpre & Hline)%scan_lines_found.
  apply scan_line_found in Hline as (Hprefix & df & rest & Hload & Hh & Hd).
  by exists pre, line, post, df, rest.
Qed.

Lemma scan_lines_returns_witness :
  let lines := ["event: complete"; "data: oops"; "data: [table]"; "data: x"] in
  scan_lines example_loads lines = Some (Some (JArr [JStr "h"], JArr [])) ∧
  ∃ pre line post df rest,
    lines = pre ++ line :: post ∧
    Forall (λ l, scan_line example_loads l = Some None) pre ∧
    String.prefix "data: " line = true ∧
    example_loads (str_drop 6 line) = Some (JArr (df :: rest)) ∧
    py_getitem "headers" df = Some (JArr [JStr "h"]) ∧
    py_getitem "data" df = Some (JArr []).
Proof.
  intros lines.
  assert (scan_lines example_loads lines
          = Some (Some (JArr [JStr "h"], JArr []))) as Hs by reflexivity.
  split; [exact Hs|].
  exact (scan_lines_returns example_loads lines _ _ Hs).
Defined.

(** X19. Lines that do not start with [data: ], and data lines whose payload
    does not decode, never change the result of a scan, wherever they stand
    in the response. *)
Theorem scan_lines_skips_noise json_loads lines1 noise lines2 :
  Forall (λ l, String.prefix "data: " l = false ∨
               json_loads (str_drop 6 l) = None) noise →
  scan_lines json_loads (lines1 ++ noise ++ lines2)
  = scan_lines json_loads (lines1 ++ lines2).
Proof.
  intros Hnoise. induction lines1 as [|l lines1 IH]; simpl.
  - apply scan_lines_app_nothing.
    eapply Forall_impl; [exact Hnoise|]. intros l. apply scan_line_noise.
  - by rewrite IH.
Qed.

Lemma scan_lines_skips_noise_witness :
  Forall (λ l, String.prefix "data: " l = false ∨
               example_loads (str_drop 6 l) = None)
         ["event: heartbeat"; "data: {broken"] ∧
  scan_lines example_loads
    (["event: complete"] ++ ["event: heartbeat"; "data: {broken"]
       ++ ["data: [table]"])
  = scan_lines example_loads (["event: complete"] ++ ["data: [table]"]).
Proof.
  assert (Forall (λ l, String.prefix "data: " l = false ∨
                       example_loads (str_drop 6 l) = None)
                 ["event: heartbeat"; "data: {broken"]) as Hnoise.
  { constructor; [left; reflexivity|].
    constructor; [right; reflexivity|]. constructor. }
  split; [exact Hnoise|].
  exact (scan_lines_skips_noise example_loads _ _ _ Hnoise).
Defined.

(** X20. [fetch_crps_data] exits with [SubmissionError] exactly when the
    submission response is a dict whose [event_id] is missing or falsy; no
    poll is made and nothing is slept. *)
Theorem fetch_crps_data_submission json_loads poll submit slept :
  fetch_crps_data json_loads poll submit = (Exits SubmissionError, slept) ↔
  slept = 0%nat ∧
  ∃ body event_id,
    submit = Some body ∧ py_get "event_id" body = Some event_id ∧
    truthy event_id = false.
Proof.
  unfold fetch_crps_data. split.
  - intros Hf. destruct submit as [body|]; [|done].
    destruct (py_get "event_id" body) as [event_id|] eqn:Hid; [|done].
    destruct (truthy event_id) eqn:Ht.
    + apply poll_loop_spec in Hf as (k & _ & _ & _ & Habs & _). done.
    + inversion Hf; subst. split; [done|]. by exists body, event_id.
  - intros (-> & body & event_id & -> & -> & ->). done.
Qed.

Lemma fetch_crps_data_submission_witness :
  fetch_crps_data example_loads example_poll
    (Some (JObj [("error", JStr "queue full")]))
  = (Exits SubmissionError, 0%nat).
Proof.
  apply fetch_crps_data_submission. split; [reflexivity|].
  exists (JObj [("error", JStr "queue full")]), JNull.
  split; [reflexivity|]. split; reflexivity.
Defined.
